(** * birdnet-go audio pipeline: embedding and verified properties

    The development follows the Go sources of the capture/analysis path:
    - [process.go] (package [myaudio]): PCM to float32 conversion and the
      hand-off of inference results to the dispatch queue;
    - [ffmpeg_monitor.go] (package [myaudio]): the FFmpeg process monitor;
    - the [ffmpeg] process manager and its restart policy, of which only the
      test-suite is available; these are modelled from the design document.
    - the process managers of [ffmpeg_monitor.go] and the starting and
      stopping of the monitor;
    - package [errors]: the error builder and the telemetry hooks;
    - package [backup]: the retention of stored backups and their
      statistics;
    with the functions of Go's [strings] and [fmt] these call.

    Integers are [Z] with the wrap-around of Go's fixed-width types written
    out, bytes are [Init.Byte.byte], float32/float64 values are IEEE-754
    binary floats as specified by [SpecFloat], slices are lists and Go maps
    are [gmap]/[gset].  A run-time panic is [None] in the option monad of
    the conversion loops and the outcome [Panics] everywhere else. *)

From Stdlib Require Import ZArith QArith Qabs Qpower Lia Bool.
From Stdlib Require Import Floats.SpecFloat.
From coqutil Require Import Byte.
From Stdlib Require Import Ascii.
From stdpp Require Import base option list gmap strings pretty.

Local Open Scope Z_scope.

(* ===================================================================== *)
(** * Part I: definitions                                                 *)
(* ===================================================================== *)

(** ** Floating point: Go's [float32] and [float64] *)

(** Go's [float32] is IEEE-754 binary32: 24 bits of precision, infinities
    at exponent 128.  Conversions and division round to nearest, ties to
    even, which is what [SpecFloat] specifies. *)
Module F32.
Definition prec : Z := 24.
Definition emax : Z := 128.

(** [float32(n)] for an integer [n]. *)
Definition of_int (n : Z) : spec_float := binary_normalize prec emax n 0 false.

(** [x / y] on float32 operands. *)
Definition div (x y : spec_float) : spec_float := SFdiv prec emax x y.

Definition zero : spec_float := S754_zero false.
Definition one : spec_float := of_int 1.
Definition minus_one : spec_float := of_int (-1).

Definition ltb (x y : spec_float) : bool := SFltb x y.
Definition leb (x y : spec_float) : bool := SFleb x y.

Definition is_finite (x : spec_float) : bool :=
  match x with
  | S754_zero _ | S754_finite _ _ _ => true
  | _ => false
  end.

(** The rational number denoted by a finite float (0 for the others). *)
Definition to_Q (x : spec_float) : Q :=
  match x with
  | S754_finite s m e => (inject_Z (cond_Zopp s (Zpos m)) * Qpower 2 e)%Q
  | _ => 0%Q
  end.
End F32.

Abbreviation float32 := spec_float (only parsing).

(** Go's [float64] is IEEE-754 binary64. *)
Module F64.
Definition prec : Z := 53.
Definition emax : Z := 1024.

Definition of_int (n : Z) : spec_float := binary_normalize prec emax n 0 false.
Definition mul (x y : spec_float) : spec_float := SFmul prec emax x y.

(** Conversion of a float64 to an integer type of 64 bits ([int64],
    [time.Duration]) truncates towards zero.  Where the truncated value does
    not fit, and for an infinity or a NaN, Go leaves the result to the
    implementation; this is the result on amd64, the smallest integer. *)
Definition to_int (x : spec_float) : Z :=
  match x with
  | S754_zero _ => 0
  | S754_finite s m e =>
      let z := cond_Zopp s (if 0 <=? e then Zpos m * 2 ^ e else Zpos m / 2 ^ (- e)) in
      if (- 2 ^ 63 <=? z) && (z <? 2 ^ 63) then z else - 2 ^ 63
  | _ => - 2 ^ 63
  end.
End F64.

Abbreviation float64 := spec_float (only parsing).

(** Reference rounding of a non-negative integer to 24 significant bits:
    [rne_shift M k] drops the [k] low bits of [M], rounding to nearest with
    ties to even; [round24] is the integer a float32 conversion denotes. *)
Definition rne_shift (M k : Z) : Z :=
  let q := M / 2 ^ k in
  match 2 * (M mod 2 ^ k) ?= 2 ^ k with
  | Lt => q
  | Eq => if Z.even q then q else q + 1
  | Gt => q + 1
  end.

Definition round24 (n : Z) : Z :=
  let k := Z.log2 n + 1 - 24 in
  if 0 <? k then rne_shift n k * 2 ^ k else n.

(** ** Fixed-width integers *)

(** Two's-complement wrap-around of a [bits]-wide signed integer. *)
Definition wrap_signed (bits z : Z) : Z :=
  (z + 2 ^ (bits - 1)) mod 2 ^ bits - 2 ^ (bits - 1).

Definition int16 (z : Z) : Z := wrap_signed 16 z.
Definition int32 (z : Z) : Z := wrap_signed 32 z.

(** ** Loops and slices *)

(** [buf[i] = x]; an index out of range panics. *)
Definition store {A} (buf : list A) (i : nat) (x : A) : option (list A) :=
  if decide (i < length buf)%nat then Some (<[i:=x]> buf) else None.

(** [for i := start; i < start + count; i++ { body }] over a state [St];
    the body may panic. *)
Fixpoint for_loop {St : Type} (count i : nat) (body : nat -> St -> option St)
    (s : St) : option St :=
  match count with
  | O => Some s
  | S count' => s' ← body i s; for_loop count' (S i) body s'
  end.

(** [make([]float32, n)]. *)
Definition make_float32 (n : nat) : list float32 := replicate n F32.zero.

(** ** process.go: the float32 buffer pool *)

(** Modelled from the spec: the type [Float32Pool] and its methods are not
    part of the available sources.  The design document describes it as a
    pool of "reusable fixed-length float slices sized to the standard window
    length": [Get] hands out a slice of exactly [pool_size] elements whose
    contents are whatever an earlier user left there ([pool_stale]). *)
Record Float32Pool := {
  pool_size : nat;
  pool_stale : nat -> float32
}.

Definition Float32Pool_Get (p : Float32Pool) : list float32 :=
  map (pool_stale p) (seq 0 (pool_size p)).

(** Modelled from the spec: [NewFloat32Pool size] is not part of the
    available sources either; a pool has a positive size. *)
Definition NewFloat32Pool (size : Z) (stale : nat -> float32) : option Float32Pool :=
  if 0 <? size then Some {| pool_size := Z.to_nat size; pool_stale := stale |}
  else None.

(** Package-level state of [process.go]: the constants [conf.BufferSize] and
    [conf.BitDepth] and the global [float32Pool] ([None] is [nil]). *)
Record Globals := {
  BufferSize : Z;
  BitDepth : Z;
  float32Pool : option Float32Pool
}.

(** [InitFloat32Pool]: the only assignment to the global pool. *)
Definition InitFloat32Pool (g : Globals) (stale : nat -> float32) : Globals :=
  let size := BufferSize g ÷ 2 in
  {| BufferSize := BufferSize g; BitDepth := BitDepth g;
     float32Pool := NewFloat32Pool size stale |}.

(** The states of the globals a program can be in: before and after
    [InitFloat32Pool]. *)
Definition startup (bufferSize bitDepth : Z) (init : option (nat -> float32)) : Globals :=
  let g := {| BufferSize := bufferSize; BitDepth := bitDepth; float32Pool := None |} in
  match init with
  | None => g
  | Some stale => InitFloat32Pool g stale
  end.

(** ** process.go: conversion of PCM bytes to float32 *)

(** The sample read by the 16-bit loop body:
    [int16(sample[i*2]) | int16(sample[i*2+1])<<8]. *)
Definition sample16 (b0 b1 : byte) : Z :=
  Z.lor (int16 (byte.unsigned b0)) (int16 (Z.shiftl (int16 (byte.unsigned b1)) 8)).

(** The sample read by the 24-bit loop body, with its sign extension. *)
Definition sample24 (b0 b1 b2 : byte) : Z :=
  let sample :=
    Z.lor (Z.lor (int32 (byte.unsigned b0))
                 (int32 (Z.shiftl (int32 (byte.unsigned b1)) 8)))
          (int32 (Z.shiftl (int32 (byte.unsigned b2)) 16)) in
  if 0 <? Z.land sample 0x00800000
  then Z.lor sample (Z.lnot 0x00FFFFFF)
  else sample.

(** The sample read by the 32-bit loop body. *)
Definition sample32 (b0 b1 b2 b3 : byte) : Z :=
  Z.lor (Z.lor (Z.lor (int32 (byte.unsigned b0))
                      (int32 (Z.shiftl (int32 (byte.unsigned b1)) 8)))
               (int32 (Z.shiftl (int32 (byte.unsigned b2)) 16)))
        (int32 (Z.shiftl (int32 (byte.unsigned b3)) 24)).

Definition convert16BitToFloat32 (g : Globals) (sample : list byte)
    : option (list float32) :=
  let length := (length sample / 2)%nat in
  let float32Data :=
    match float32Pool g with
    | Some pool =>
        if Z.of_nat length =? BufferSize g ÷ 2
        then Float32Pool_Get pool
        else make_float32 length
    | None => make_float32 length
    end in
  let divisor := F32.of_int 32768 in
  for_loop length 0
    (fun i float32Data =>
       b0 ← sample !! (i * 2)%nat;
       b1 ← sample !! (i * 2 + 1)%nat;
       store float32Data i (F32.div (F32.of_int (sample16 b0 b1)) divisor))
    float32Data.

Definition convert24BitToFloat32 (sample : list byte) : option (list float32) :=
  let length := (length sample / 3)%nat in
  let float32Data := make_float32 length in
  let divisor := F32.of_int 8388608 in
  for_loop length 0
    (fun i float32Data =>
       b0 ← sample !! (i * 3)%nat;
       b1 ← sample !! (i * 3 + 1)%nat;
       b2 ← sample !! (i * 3 + 2)%nat;
       store float32Data i (F32.div (F32.of_int (sample24 b0 b1 b2)) divisor))
    float32Data.

Definition convert32BitToFloat32 (sample : list byte) : option (list float32) :=
  let length := (length sample / 4)%nat in
  let float32Data := make_float32 length in
  let divisor := F32.of_int 2147483648 in
  for_loop length 0
    (fun i float32Data =>
       b0 ← sample !! (i * 4)%nat;
       b1 ← sample !! (i * 4 + 1)%nat;
       b2 ← sample !! (i * 4 + 2)%nat;
       b3 ← sample !! (i * 4 + 3)%nat;
       store float32Data i (F32.div (F32.of_int (sample32 b0 b1 b2 b3)) divisor))
    float32Data.

(** Errors.  The categories are those of the package [errors]. *)
Inductive ErrorCategory :=
| CategoryValidation | CategoryImageFetch | CategoryImageCache
| CategoryImageProvider | CategoryNetwork | CategoryDatabase | CategoryFileIO
| CategoryModelInit | CategoryModelLoad | CategoryConfiguration
| CategorySystem | CategoryRTSP | CategoryAudio | CategoryHTTP.

Inductive ContextValue :=
| CtxString (s : string)
| CtxInt (n : Z).

(** [Enhanced] is an error built by
    [errors.Newf(format, args...).Component(c).Category(k).Context(..)...Build()];
    [CollaboratorError] is an error returned by a collaborator outside this
    file; [Wrapped] is [fmt.Errorf(format, args..., err)] with [%w]. *)
Inductive Error :=
| Enhanced (format : string) (args : list Z) (component : string)
    (category : ErrorCategory) (context : list (string * ContextValue))
| CollaboratorError (msg : string)
| Wrapped (format : string) (args : list Z) (inner : Error).

Definition category_of (err : Error) : option ErrorCategory :=
  match err with
  | Enhanced _ _ _ category _ => Some category
  | _ => None
  end.

(** The error of the [default] case of [ConvertToFloat32]. *)
Definition unsupportedBitDepth (bitDepth : Z) : Error :=
  Enhanced "unsupported audio bit depth: %d" [bitDepth] "myaudio" CategoryValidation
    [("operation", CtxString "convert_to_float32");
     ("bit_depth", CtxInt bitDepth);
     ("supported_bit_depths", CtxString "16,24,32")].

(** A Go result pair [([][]float32, error)]: [None] in the first component
    is the nil slice, [None] in the second is the nil error. *)
Definition ConvertToFloat32 (g : Globals) (sample : list byte) (bitDepth : Z)
    : option (option (list (list float32)) * option Error) :=
  if bitDepth =? 16 then
    out ← convert16BitToFloat32 g sample; Some (Some [out], None)
  else if bitDepth =? 24 then
    out ← convert24BitToFloat32 sample; Some (Some [out], None)
  else if bitDepth =? 32 then
    out ← convert32BitToFloat32 sample; Some (Some [out], None)
  else
    Some (None, Some (unsupportedBitDepth bitDepth)).

(** Reference descriptions of what the conversion computes: the float32
    written for one frame, and the frame at index [i] of a byte slice (a
    frame that is not wholly inside the slice reads as zero). *)
Definition normalize16 (b0 b1 : byte) : float32 :=
  F32.div (F32.of_int (sample16 b0 b1)) (F32.of_int 32768).
Definition normalize24 (b0 b1 b2 : byte) : float32 :=
  F32.div (F32.of_int (sample24 b0 b1 b2)) (F32.of_int 8388608).
Definition normalize32 (b0 b1 b2 b3 : byte) : float32 :=
  F32.div (F32.of_int (sample32 b0 b1 b2 b3)) (F32.of_int 2147483648).

Definition frame16 (sample : list byte) (i : nat) : float32 :=
  match sample !! (i * 2)%nat, sample !! (i * 2 + 1)%nat with
  | Some b0, Some b1 => normalize16 b0 b1
  | _, _ => F32.zero
  end.
Definition frame24 (sample : list byte) (i : nat) : float32 :=
  match sample !! (i * 3)%nat, sample !! (i * 3 + 1)%nat, sample !! (i * 3 + 2)%nat with
  | Some b0, Some b1, Some b2 => normalize24 b0 b1 b2
  | _, _, _ => F32.zero
  end.
Definition frame32 (sample : list byte) (i : nat) : float32 :=
  match sample !! (i * 4)%nat, sample !! (i * 4 + 1)%nat,
        sample !! (i * 4 + 2)%nat, sample !! (i * 4 + 3)%nat with
  | Some b0, Some b1, Some b2, Some b3 => normalize32 b0 b1 b2 b3
  | _, _, _, _ => F32.zero
  end.

(** The integer denoted by [float32(v)]: [v] rounded to 24 significant
    bits. *)
Definition round_int (v : Z) : Z := Z.sgn v * round24 (Z.abs v).

(** Bit depths, bytes per sample and maximum magnitudes. *)
Definition supported (bitDepth : Z) : bool :=
  (bitDepth =? 16) || (bitDepth =? 24) || (bitDepth =? 32).

Definition bytesPerSample (bitDepth : Z) : nat := Z.to_nat (bitDepth / 8).

Definition maxMagnitude (bitDepth : Z) : Z := 2 ^ (bitDepth - 1).

(** The little-endian two's-complement layout of a sample: byte [i] is
    bits [8i .. 8i+7] of the value. *)
Definition encode (bitDepth : Z) (v : Z) : list byte :=
  map (fun i => byte.of_Z (Z.shiftr v (8 * Z.of_nat i))) (seq 0 (bytesPerSample bitDepth)).

(** The rational [v / maxMagnitude]. *)
Definition ideal (bitDepth v : Z) : Q :=
  (inject_Z v / inject_Z (maxMagnitude bitDepth))%Q.

(** The frame written at index [i] and the whole converted channel. *)
Definition frame (bitDepth : Z) : list byte -> nat -> float32 :=
  if bitDepth =? 16 then frame16
  else if bitDepth =? 24 then frame24
  else frame32.

Definition converted (bitDepth : Z) (sample : list byte) : list float32 :=
  map (frame bitDepth sample) (seq 0 (length sample / bytesPerSample bitDepth)).

(** ** process.go: handing results to the dispatch queue *)

(** The result of running a statement: it returns, it panics, or it blocks
    for ever (a channel send nobody can receive). *)
Inductive outcome (A : Type) :=
| Returns (a : A)
| Panics
| Blocks.
Arguments Returns {A} a.
Arguments Panics {A}.
Arguments Blocks {A}.

(** A buffered Go channel, observed while no receiver is waiting on it:
    its capacity and the elements it holds, oldest first. *)
Record chan (A : Type) := {
  chan_cap : nat;
  chan_buf : list A
}.
Arguments chan_cap {A} c.
Arguments chan_buf {A} c.

Definition make_chan {A} (capacity : nat) : chan A :=
  {| chan_cap := capacity; chan_buf := [] |}.

(** The send operation [ch <- v] can proceed exactly when the buffer has
    room; [None] means that it cannot proceed now. *)
Definition chan_try_send {A} (ch : chan A) (v : A) : option (chan A) :=
  if decide (length (chan_buf ch) < chan_cap ch)%nat
  then Some {| chan_cap := chan_cap ch; chan_buf := chan_buf ch ++ [v] |}
  else None.

(** A plain send statement [ch <- v]. *)
Definition chan_send {A} (ch : chan A) (v : A) : outcome (chan A) :=
  match chan_try_send ch v with
  | Some ch' => Returns ch'
  | None => Blocks
  end.

(** [select { case ch <- v: (ready) default: (otherwise) }]: the boolean
    tells which case ran ([true]: the send). *)
Definition select_send_default {A} (ch : chan A) (v : A) : outcome (chan A * bool) :=
  match chan_try_send ch v with
  | Some ch' => Returns (ch', true)
  | None => Returns (ch, false)
  end.

Module birdnet.
(** One prediction of the inference collaborator. *)
Record Result := {
  Species : string;
  Confidence : float32
}.

(** The message type of the dispatch queue, as [ProcessData] builds it
    (the field [Results] of the Go struct is [Results'] here). *)
Record Results := {
  StartTime : Z;
  ElapsedTime : Z;
  PCMdata : list byte;
  Results' : list Result;
  Source : string
}.
End birdnet.

Inductive LogEntry :=
| LogResultsHeader
| LogResult (confidence : float32) (species : string)
| LogProcessingTime (elapsedTime effectiveBufferDuration : Z) (source : string)
| LogQueueFull.

(** The settings [ProcessData] reads. *)
Record Settings := {
  Debug : bool;
  Overlap : float64
}.

(** Everything [ProcessData] reads or writes: the package globals, the
    channel [birdnet.ResultsQueue] and the log. *)
Record World := {
  globals : Globals;
  ResultsQueue : chan birdnet.Results;
  log : list LogEntry
}.

(** Returning a buffer to the pool: the buffer's contents are what the
    next [Get] hands out. *)
Definition Float32Pool_Put (p : Float32Pool) (buffer : list float32) : Float32Pool :=
  {| pool_size := pool_size p;
     pool_stale := fun i => default (pool_stale p i) (buffer !! i) |}.

Definition ReturnFloat32Buffer (g : Globals) (buffer : list float32) : Globals :=
  match float32Pool g with
  | Some pool =>
      if Z.of_nat (length buffer) =? BufferSize g ÷ 2
      then {| BufferSize := BufferSize g; BitDepth := BitDepth g;
              float32Pool := Some (Float32Pool_Put pool buffer) |}
      else g
  | None => g
  end.

Definition second : Z := 1000000000.

(** The debug block of [ProcessData]. *)
Definition debug_log (results : list birdnet.Result) : list LogEntry :=
  let debugThreshold := F32.of_int 0 in
  let hasHighConfidenceResults :=
    existsb (fun r => F32.ltb debugThreshold (birdnet.Confidence r)) results in
  if hasHighConfidenceResults then
    LogResultsHeader ::
    map (fun r => LogResult (birdnet.Confidence r) (birdnet.Species r))
        (filter (fun r => F32.ltb debugThreshold (birdnet.Confidence r) = true) results)
  else [].

(** The [select] statement at the end of [ProcessData]: the message is sent
    if the queue can take it now, otherwise the default case logs "Results
    queue is full!" and the message is not sent. *)
Definition sendResults (queue : chan birdnet.Results) (log : list LogEntry)
    (resultsMessage : birdnet.Results)
    : outcome (chan birdnet.Results * list LogEntry) :=
  match select_send_default queue resultsMessage with
  | Returns (queue', true) => Returns (queue', log)
  | Returns (queue', false) => Returns (queue', log ++ [LogQueueFull])
  | Panics => Panics
  | Blocks => Blocks
  end.

(** [ProcessData bn data startTime source].  [predict] is [bn.Predict];
    [elapsedTime] is the reading of [time.Since(predictStart)]. *)
Definition ProcessData
    (predict : list (list float32) -> list birdnet.Result * option Error)
    (settings : Settings) (elapsedTime : Z)
    (w : World) (data : list byte) (startTime : Z) (source : string)
    : outcome (World * option Error) :=
  let g := globals w in
  match ConvertToFloat32 g data (BitDepth g) with
  | None => Panics
  | Some (_, Some err) =>
      Returns (w, Some (Wrapped "error converting %v bit PCM data to float32: %w"
                                [BitDepth g] err))
  | Some (sampleData, None) =>
      let sampleData := default [] sampleData in
      let '(results, err) := predict sampleData in
      let g' :=
        match sampleData with
        | first :: _ =>
            if (BitDepth g =? 16) && (Z.of_nat (length first) =? BufferSize g ÷ 2)
            then ReturnFloat32Buffer g first
            else g
        | [] => g
        end in
      match err with
      | Some err =>
          Returns ({| globals := g'; ResultsQueue := ResultsQueue w; log := log w |},
                   Some (Wrapped "error predicting species: %w" [] err))
      | None =>
          let log1 := if Debug settings then debug_log results else [] in
          let bufferDuration := 3 * second in
          let overlapDuration :=
            F64.to_int (F64.mul (Overlap settings) (F64.of_int second)) in
          let effectiveBufferDuration :=
            wrap_signed 64 (bufferDuration - overlapDuration) in
          let log2 :=
            if elapsedTime >? effectiveBufferDuration
            then [LogProcessingTime elapsedTime effectiveBufferDuration source]
            else [] in
          let resultsMessage :=
            {| birdnet.StartTime := startTime;
               birdnet.ElapsedTime := elapsedTime;
               birdnet.PCMdata := data;
               birdnet.Results' := results;
               birdnet.Source := source |} in
          match sendResults (ResultsQueue w) (log w ++ log1 ++ log2) resultsMessage with
          | Returns (queue', log') =>
              Returns ({| globals := g'; ResultsQueue := queue'; log := log' |}, None)
          | Panics => Panics
          | Blocks => Blocks
          end
      end
  end.

(** One analysis window handed to [ProcessData]: the arguments of the call
    and the reading of [time.Since(predictStart)] during it. *)
Record Window := {
  window_data : list byte;
  window_startTime : Z;
  window_source : string;
  window_elapsedTime : Z
}.

(** [ProcessData] called for one analysis window after the other while
    nothing receives from the queue.  (The loop that calls [ProcessData] is
    not part of the available sources; every window is processed, whatever
    the call for the window before returned.) *)
Fixpoint ProcessWindows
    (predict : list (list float32) -> list birdnet.Result * option Error)
    (settings : Settings) (w : World) (windows : list Window)
    : outcome (World * list (option Error)) :=
  match windows with
  | [] => Returns (w, [])
  | window :: rest =>
      match ProcessData predict settings (window_elapsedTime window) w
              (window_data window) (window_startTime window) (window_source window) with
      | Returns (w', err) =>
          match ProcessWindows predict settings w' rest with
          | Returns (w'', errs) => Returns (w'', err :: errs)
          | Panics => Panics
          | Blocks => Blocks
          end
      | Panics => Panics
      | Blocks => Blocks
      end
  end.

(** The message a window is expected to leave in the queue at a supported
    bit depth: its own start time, bytes and source, the elapsed time read
    for it, and what the predictor returns for its converted samples. *)
Definition window_message
    (predict : list (list float32) -> list birdnet.Result * option Error)
    (bitDepth : Z) (window : Window) : birdnet.Results :=
  {| birdnet.StartTime := window_startTime window;
     birdnet.ElapsedTime := window_elapsedTime window;
     birdnet.PCMdata := window_data window;
     birdnet.Results' := (predict [converted bitDepth (window_data window)]).1;
     birdnet.Source := window_source window |}.

(** The number of dropped results the log records. *)
Definition is_queue_full (e : LogEntry) : bool :=
  match e with
  | LogQueueFull => true
  | _ => false
  end.

Definition drops (l : list LogEntry) : nat :=
  length (filter (fun e => is_queue_full e = true) l).

(** ** ffmpeg_monitor.go: the FFmpeg process monitor *)

(** [ProcessInfo] contains information about a system process. *)
Record ProcessInfo := {
  PID : Z;
  Name : string
}.

(** What reflection finds in the field [pid] of the struct that a field
    [cmd] leads to: no such field ([FieldByName] gives the zero Value), a
    field of a signed integer kind, or a field of another kind, on which
    [Int] panics. *)
Inductive PidField :=
| NoPidField
| SignedPid (pid : Z)
| OtherPid.

(** What reflection finds in the field [cmd] of the struct a repository
    value points to: no such field; a nil pointer, interface, map, slice,
    channel or function; a pointer to a struct or an interface holding one;
    or anything else, on which [IsNil], [Elem] or [FieldByName] panics. *)
Inductive CmdField :=
| NoCmdField
| NilCmd
| CmdStruct (pid : PidField)
| OtherCmd.

(** The values stored in the process repository (a [sync.Map] from URL to
    [any]), as far as the monitor inspects them:
    - the nil interface value;
    - a [*FFmpegProcess] that is not nil: its [cmd] ([None]: nil), the
      [Process] of that command ([Some None]: nil) and the process id.  The
      declaration of [FFmpegProcess] is not part of the available sources;
      [cmd] is taken to be the [*exec.Cmd] the file imports, a struct
      without a field [pid];
    - the nil [*FFmpegProcess];
    - a pointer, not nil, to any other struct (the test doubles, inspected
      through reflection), with what its field [cmd] holds;
    - any other pointer: a nil pointer, or a pointer to something that is
      not a struct;
    - any other value;
    and for each, whether its dynamic type implements [ProcessCleaner].
    The keys of the repository are the URLs of the sources, which are
    strings. *)
Inductive RepoValue :=
| NilValue
| FFmpegProcessPtr (cleaner : bool) (cmd : option (option Z))
| NilFFmpegProcessPtr (cleaner : bool)
| StructPtr (cleaner : bool) (cmd : CmdField)
| OtherPtr (cleaner : bool)
| OtherValue (cleaner : bool).

(** The type assertion [value.(ProcessCleaner)]. *)
Definition implementsCleaner (value : RepoValue) : bool :=
  match value with
  | NilValue => false
  | FFmpegProcessPtr c _ | NilFFmpegProcessPtr c | StructPtr c _
  | OtherPtr c | OtherValue c => c
  end.

(** The process id the callback of the second [ForEach] finds in a
    repository value.  The first branch reads [process.cmd.Process.Pid] and
    panics on the nil [*FFmpegProcess] (the type assertion succeeds, the
    field access dereferences nil).  The second branch is taken by every
    other value: [reflect.TypeOf(value).Kind()] panics on the nil interface
    value ([TypeOf] is nil), [Elem().FieldByName] panics on a nil pointer
    and on a pointer to something that is not a struct, and the fields [cmd]
    and [pid] are read as far as reflection allows. *)
Definition known_pid (value : RepoValue) : outcome (option Z) :=
  match value with
  | FFmpegProcessPtr _ (Some (Some pid)) => Returns (Some pid)
  | FFmpegProcessPtr _ _ => Returns None
  | NilFFmpegProcessPtr _ => Panics
  | NilValue => Panics
  | StructPtr _ NoCmdField => Returns None
  | StructPtr _ NilCmd => Returns None
  | StructPtr _ (CmdStruct NoPidField) => Returns None
  | StructPtr _ (CmdStruct (SignedPid pid)) => Returns (Some pid)
  | StructPtr _ (CmdStruct OtherPid) => Panics
  | StructPtr _ OtherCmd => Panics
  | OtherPtr _ => Panics
  | OtherValue _ => Returns None
  end.

(** The interface [ProcessManager], as one monitoring pass observes it. *)
Record ProcessManager := {
  FindProcesses : list ProcessInfo + Error;
  TerminateProcess : Z -> option Error;
  IsProcessRunning : Z -> bool
}.

(** The interface [ConfigProvider] (the part the pass reads). *)
Record ConfigProvider := {
  GetConfiguredURLs : list string
}.

(** What a pass does to the outside world, in order. *)
Inductive Event :=
| EvCleanup (receiver : RepoValue) (url : string)
| EvTerminate (pid : Z)
| EvLogOrphanedURL (url : string)
| EvLogNotCleaner (url : string)
| EvLogExternallyKilled (url : string)
| EvLogOrphanedPID (pid : Z)
| EvLogTerminateError (pid : Z) (err : Error)
| EvTelemetry (tag : string) (url : string).

(** The maps [cleanupOrphanedProcesses] builds from the repository. *)
Record KnownProcesses := {
  knownPIDs : gset Z;
  pidToURL : gmap Z string;
  pidToProcess : gmap Z RepoValue
}.

Definition no_known_processes : KnownProcesses :=
  {| knownPIDs := ∅; pidToURL := ∅; pidToProcess := ∅ |}.

(** The callback of the second [ForEach]. *)
Definition track_pid (k : KnownProcesses) (entry : string * RepoValue)
    : outcome KnownProcesses :=
  let '(url, value) := entry in
  match known_pid value with
  | Returns (Some pid) =>
      Returns {| knownPIDs := {[pid]} ∪ knownPIDs k;
                 pidToURL := <[pid:=url]> (pidToURL k);
                 pidToProcess := <[pid:=value]> (pidToProcess k) |}
  | Returns None => Returns k
  | Panics => Panics
  | Blocks => Blocks
  end.

(** [ForEach] with a callback that always returns true, over the state
    [St] the callback updates: the entries are visited in turn, and a panic
    of the callback ends the traversal. *)
Fixpoint ForEach {St : Type} (callback : St -> string * RepoValue -> outcome St)
    (s : St) (entries : list (string * RepoValue)) : outcome St :=
  match entries with
  | [] => Returns s
  | entry :: rest =>
      match callback s entry with
      | Returns s' => ForEach callback s' rest
      | Panics => Panics
      | Blocks => Blocks
      end
  end.

(** [sync.Map.Range] and [range] over a Go map promise no order, and two
    traversals of one map may differ.  An [Iteration] is the choice the
    runtime makes in one pass: the order of each of the two [ForEach]
    traversals of the repository and of the [range] over [pidToURL]; every
    entry is visited exactly once. *)
Record Iteration := {
  first_range : gmap string RepoValue -> list (string * RepoValue);
  first_range_perm : forall repo, first_range repo ≡ₚ map_to_list repo;
  second_range : gmap string RepoValue -> list (string * RepoValue);
  second_range_perm : forall repo, second_range repo ≡ₚ map_to_list repo;
  pid_range : gmap Z string -> list (Z * string);
  pid_range_perm : forall m, pid_range m ≡ₚ map_to_list m
}.

(** The iteration that visits every map in the order of its keys'
    encoding. *)
Definition canonical_iteration : Iteration :=
  {| first_range := map_to_list;
     first_range_perm := fun repo => reflexivity (map_to_list repo);
     second_range := map_to_list;
     second_range_perm := fun repo => reflexivity (map_to_list repo);
     pid_range := map_to_list;
     pid_range_perm := fun m => reflexivity (map_to_list m) |}.

(** The events of the pass, in order, and how it ends: with the error it
    returns, or with a panic of the second [ForEach], which is reached only
    after the enumeration has succeeded and before anything is cleaned up or
    terminated. *)
Definition cleanupOrphanedProcesses (it : Iteration) (pm : ProcessManager)
    (repo : gmap string RepoValue) : list Event * outcome (option Error) :=
  match FindProcesses pm with
  | inr err => ([], Returns (Some (Wrapped "error finding FFmpeg processes: %w" [] err)))
  | inl processes =>
      let systemPIDs : gset Z := list_to_set (map PID processes) in
      match ForEach track_pid no_known_processes (second_range it repo) with
      | Panics => ([], Panics)
      | Blocks => ([], Blocks)
      | Returns known =>
          (* Check for processes that have been killed externally *)
          let killed :=
            flat_map
              (fun '(pid, url) =>
                 if bool_decide (pid ∈ systemPIDs) && negb (IsProcessRunning pm pid)
                 then EvLogExternallyKilled url ::
                      match pidToProcess known !! pid with
                      | Some process =>
                          if implementsCleaner process then [EvCleanup process url] else []
                      | None => []
                      end
                 else [])
              (pid_range it (pidToURL known)) in
          (* Clean up any processes not in our known list *)
          let orphans :=
            flat_map
              (fun proc =>
                 if bool_decide (PID proc ∈ knownPIDs known) then []
                 else EvLogOrphanedPID (PID proc) :: EvTerminate (PID proc) ::
                      match TerminateProcess pm (PID proc) with
                      | Some err => [EvLogTerminateError (PID proc) err]
                      | None => []
                      end)
              processes in
          (killed ++ orphans, Returns None)
      end
  end.

Definition checkProcesses (it : Iteration) (config : ConfigProvider)
    (pm : ProcessManager) (repo : gmap string RepoValue)
    : list Event * outcome (option Error) :=
  let configuredURLs : gset string := list_to_set (GetConfiguredURLs config) in
  (* Check running processes against configuration *)
  let drift :=
    flat_map
      (fun '(url, value) =>
         if implementsCleaner value then
           if bool_decide (url ∈ configuredURLs) then []
           else [EvLogOrphanedURL url;
                 EvTelemetry "ffmpeg-orphaned-cleanup" url;
                 EvCleanup value url]
         else [EvLogNotCleaner url; EvTelemetry "ffmpeg-interface-error" url])
      (first_range it repo) in
  (* Find and clean up any orphaned FFmpeg processes *)
  match cleanupOrphanedProcesses it pm repo with
  | (events, Returns (Some err)) =>
      (drift ++ events,
       Returns (Some (Wrapped "error cleaning up orphaned FFmpeg processes: %w" [] err)))
  | (events, Returns None) => (drift ++ events, Returns None)
  | (events, Panics) => (drift ++ events, Panics)
  | (events, Blocks) => (drift ++ events, Blocks)
  end.

(** ** Package ffmpeg: process manager and restart policy *)

Module ffmpeg.

Record ProcessConfig := {
  ID : string;
  InputURL : string;
  OutputFormat : string;
  SampleRate : Z;
  Channels : Z;
  BitDepth : Z;
  BufferSize : Z;
  FFmpegPath : string
}.

(** Durations are nanoseconds, as in [time.Duration]. *)
Record RestartPolicy := {
  Enabled : bool;
  MaxRetries : Z;
  InitialDelay : Z;
  MaxDelay : Z;
  BackoffMultiplier : float64
}.

Record ManagerConfig := {
  MaxProcesses : nat;
  HealthCheckPeriod : Z;
  CleanupTimeout : Z;
  ManagerRestartPolicy : RestartPolicy
}.

Inductive State :=
| Created | Starting | Running | Unhealthy | Stopping | Stopped | Failed.

(** The fields of [managedProcess] the test-suite uses, with the
    configuration and lifecycle state of the design document. *)
Record managedProcess := {
  config : ProcessConfig;
  state : State;
  restartPolicy : RestartPolicy;
  restartCount : Z;
  nextDelay : Z
}.

Record manager := {
  managerConfig : ManagerConfig;
  processes : gmap string managedProcess
}.

Inductive CreateError := DuplicateID | LimitExceeded | InvalidConfig.

(** Modelled from the spec: the constructor [NewManager] is exercised by
    the test-suite but its code is not available; a new manager has an
    empty registry. *)
Definition NewManager (cfg : ManagerConfig) : manager :=
  {| managerConfig := cfg; processes := ∅ |}.

(** Modelled from the spec: a freshly registered decoder is in state
    [Created], with the counters of its restart policy at their initial
    values. *)
Definition newProcess (policy : RestartPolicy) (cfg : ProcessConfig) : managedProcess :=
  {| config := cfg; state := Created; restartPolicy := policy;
     restartCount := 0; nextDelay := InitialDelay policy |}.

(** Modelled from the spec: the code of [CreateProcess] is not available.
    "[CreateProcess(cfg)]: validates id uniqueness and current count <
    MaxProcesses; registers a new decoder; returns {DuplicateID,
    LimitExceeded, InvalidConfig} errors as applicable."  The checks are
    made in the order the sentence lists them; what makes a configuration
    invalid is not described, so it is the parameter [valid]. *)
Definition CreateProcess (valid : ProcessConfig -> bool) (m : manager)
    (cfg : ProcessConfig) : manager * (managedProcess + CreateError) :=
  match processes m !! ID cfg with
  | Some _ => (m, inr DuplicateID)
  | None =>
      if decide (size (processes m) < MaxProcesses (managerConfig m))%nat then
        if valid cfg then
          let p := newProcess (ManagerRestartPolicy (managerConfig m)) cfg in
          ({| managerConfig := managerConfig m;
              processes := <[ID cfg := p]> (processes m) |}, inl p)
        else (m, inr InvalidConfig)
      else (m, inr LimitExceeded)
  end.

(** Modelled from the spec: "[RemoveProcess(id)]: stops and deregisters;
    errors {NotFound} if absent." *)
Definition RemoveProcess (m : manager) (id : string) : manager * bool :=
  match processes m !! id with
  | Some _ =>
      ({| managerConfig := managerConfig m;
          processes := delete id (processes m) |}, true)
  | None => (m, false)
  end.


Definition ListProcesses (m : manager) : list managedProcess :=
  (map_to_list (processes m)).*2.

(** The operations that change the registry. *)
Inductive Op :=
| OpCreate (cfg : ProcessConfig)
| OpRemove (id : string).

Definition step (valid : ProcessConfig -> bool) (m : manager) (op : Op) : manager :=
  match op with
  | OpCreate cfg => fst (CreateProcess valid m cfg)
  | OpRemove id => fst (RemoveProcess m id)
  end.

Definition run (valid : ProcessConfig -> bool) (m : manager) (ops : list Op) : manager :=
  foldl (step valid) m ops.

(** The backoff computation of [TestRestartPolicy]:
    [nextDelay = time.Duration(float64(nextDelay) * BackoffMultiplier)],
    capped at [MaxDelay]. *)
Definition backoff (policy : RestartPolicy) (delay : Z) : Z :=
  let next := F64.to_int (F64.mul (F64.of_int delay) (BackoffMultiplier policy)) in
  if next >? MaxDelay policy then MaxDelay policy else next.

(** Modelled from the spec: the restart logic itself is not available.
    "On unexpected exit, if the policy is enabled and restartCount <
    MaxRetries: schedule a restart after nextDelay, then nextDelay =
    min(nextDelay x BackoffMultiplier, MaxDelay) [...] Exhausting retries
    moves the decoder to Failed."  The result is the delay of the restart
    that is scheduled, if any. *)
Definition onUnexpectedExit (p : managedProcess) : managedProcess * option Z :=
  let policy := restartPolicy p in
  if Enabled policy && (restartCount p <? MaxRetries policy) then
    ({| config := config p; state := Starting; restartPolicy := policy;
        restartCount := restartCount p + 1;
        nextDelay := backoff policy (nextDelay p) |},
     Some (nextDelay p))
  else
    ({| config := config p; state := Failed; restartPolicy := policy;
        restartCount := restartCount p; nextDelay := nextDelay p |},
     None).

(** [n] consecutive failures: the restarts that were scheduled. *)
Fixpoint failures (n : nat) (p : managedProcess) : managedProcess * list (option Z) :=
  match n with
  | O => (p, [])
  | S n' =>
      let '(p', scheduled) := onUnexpectedExit p in
      let '(p'', rest) := failures n' p' in
      (p'', scheduled :: rest)
  end.

End ffmpeg.

(** ** Scenarios of the test-suite and of the design document *)

(** The process configuration the manager tests use. *)
Definition test_config (id url : string) : ffmpeg.ProcessConfig :=
  {| ffmpeg.ID := id; ffmpeg.InputURL := url; ffmpeg.OutputFormat := "s16le";
     ffmpeg.SampleRate := 48000; ffmpeg.Channels := 2; ffmpeg.BitDepth := 16;
     ffmpeg.BufferSize := 1024; ffmpeg.FFmpegPath := "/usr/bin/ffmpeg" |}.

(** [RestartPolicy{Enabled: true, InitialDelay: 1s, MaxDelay: 30s,
    BackoffMultiplier: 2.0}] with a given retry budget. *)
Definition backoff_policy (maxRetries : Z) : ffmpeg.RestartPolicy :=
  {| ffmpeg.Enabled := true; ffmpeg.MaxRetries := maxRetries;
     ffmpeg.InitialDelay := 1 * second; ffmpeg.MaxDelay := 30 * second;
     ffmpeg.BackoffMultiplier := F64.of_int 2 |}.

(** [NewManager(ManagerConfig{MaxProcesses: n})]. *)
Definition test_manager (n : nat) : ffmpeg.manager :=
  ffmpeg.NewManager
    {| ffmpeg.MaxProcesses := n; ffmpeg.HealthCheckPeriod := 0;
       ffmpeg.CleanupTimeout := 0;
       ffmpeg.ManagerRestartPolicy :=
         {| ffmpeg.Enabled := false; ffmpeg.MaxRetries := 0;
            ffmpeg.InitialDelay := 0; ffmpeg.MaxDelay := 0;
            ffmpeg.BackoffMultiplier := S754_zero false |} |}.

Definition accept_all (cfg : ffmpeg.ProcessConfig) : bool := true.

(** The manager of [TestManagerMaxProcessesLimit] after its first call. *)
Definition full_manager : ffmpeg.manager :=
  (ffmpeg.CreateProcess accept_all (test_manager 1) (test_config "process-1" "test1.wav")).1.

(** The delay the design document expects before restart [i] (counted
    from 0): 1s, 2s, 4s, 8s, 16s, 30s, 30s, ... *)
Definition expected_delay (i : nat) : Z :=
  Z.min (2 ^ Z.of_nat i * second) (30 * second).

(** The restarts the policy is expected to schedule over failures
    [start .. start + count - 1]: failure [i] is answered by a restart after
    [expected_delay i] as long as the retry budget lasts. *)
Definition expected_schedule (maxRetries : Z) (start count : nat) : list (option Z) :=
  map (fun i => if Z.of_nat i <? maxRetries then Some (expected_delay i) else None)
      (seq start count).

(** Monitor scenario of the design document: source "A" is registered with
    a process (pid 42) that fails the liveness probe, the OS also lists the
    unregistered decoder 1234, and "old" is a registered source that is no
    longer configured. *)
Definition scenario_A : RepoValue := StructPtr true (CmdStruct (SignedPid 42)).
Definition scenario_old : RepoValue := FFmpegProcessPtr true (Some (Some 7)).
Definition scenario_repo : gmap string RepoValue :=
  <["A":=scenario_A]> (<["old":=scenario_old]> ∅).
Definition scenario_config : ConfigProvider := {| GetConfiguredURLs := ["A"] |}.
Definition scenario_processes : list ProcessInfo :=
  [ {| PID := 42; Name := "ffmpeg" |}; {| PID := 1234; Name := "ffmpeg" |} ].
Definition scenario_pm : ProcessManager :=
  {| FindProcesses := inl scenario_processes;
     TerminateProcess := fun _ => None;
     IsProcessRunning := fun pid => negb (pid =? 42) |}.

(** A registry the monitor does not fully reconcile: "A" and "B" are both
    registered with pid 42, which the OS lists and which fails the liveness
    probe; "C" is registered with a value that has no [Cleanup] method and
    is not configured. *)
Definition shared_A : RepoValue := FFmpegProcessPtr true (Some (Some 42)).
Definition shared_B : RepoValue := StructPtr true (CmdStruct (SignedPid 42)).
Definition plain_C : RepoValue := OtherValue false.
Definition shared_repo : gmap string RepoValue :=
  <["A":=shared_A]> (<["B":=shared_B]> (<["C":=plain_C]> ∅)).
Definition shared_config : ConfigProvider := {| GetConfiguredURLs := ["A"; "B"] |}.
Definition shared_pm : ProcessManager :=
  {| FindProcesses := inl [ {| PID := 42; Name := "ffmpeg" |} ];
     TerminateProcess := fun _ => None;
     IsProcessRunning := fun _ => false |}.


(** What [track_pid] has recorded after visiting the entries [l]. *)
Record tracked (l : list (string * RepoValue)) (k : KnownProcesses) : Prop := {
  tracked_known : forall pid, pid ∈ knownPIDs k <-> is_Some (pidToURL k !! pid);
  tracked_entry : forall pid url,
    pidToURL k !! pid = Some url ->
    exists value, pidToProcess k !! pid = Some value /\
                  (url, value) ∈ l /\ known_pid value = Returns (Some pid);
  tracked_all : forall url value pid,
    (url, value) ∈ l -> known_pid value = Returns (Some pid) ->
    is_Some (pidToURL k !! pid)
}.

(** ** Further code of the packages: definitions *)

(** ** The Go standard library, as far as the code below calls it *)

Module gostrings.

(** The bytes of a string. *)
Fixpoint chars (s : string) : list ascii :=
  match s with
  | EmptyString => []
  | String c s' => c :: chars s'
  end.

(** [strings.HasPrefix]. *)
Definition HasPrefix (s prefix : string) : bool := String.prefix prefix s.

(** [strings.Index]: the byte offset of the first occurrence of [substr]
    ([None] is Go's -1). *)
Fixpoint Index (s substr : string) : option nat :=
  if HasPrefix s substr then Some 0%nat
  else match s with
       | EmptyString => None
       | String _ s' => S <$> Index s' substr
       end.

(** [strings.LastIndex]. *)
Fixpoint LastIndex (s substr : string) : option nat :=
  match s with
  | EmptyString => if HasPrefix s substr then Some 0%nat else None
  | String _ s' =>
      match LastIndex s' substr with
      | Some i => Some (S i)
      | None => if HasPrefix s substr then Some 0%nat else None
      end
  end.

(** [strings.Contains]. *)
Definition Contains (s substr : string) : bool :=
  match Index s substr with
  | Some _ => true
  | None => false
  end.

(** [strings.Split(s, sep)] for a separator of one byte, which is how the
    code below calls it. *)
Fixpoint Split (s : string) (sep : ascii) : list string :=
  match s with
  | EmptyString => [EmptyString]
  | String c s' =>
      if Ascii.eqb c sep then EmptyString :: Split s' sep
      else match Split s' sep with
           | first :: rest => String c first :: rest
           | [] => [String c EmptyString]
           end
  end.

(** [strings.Join]. *)
Fixpoint Join (elems : list string) (sep : string) : string :=
  match elems with
  | [] => EmptyString
  | [e] => e
  | e :: rest => e +:+ sep +:+ Join rest sep
  end.

(** The white space of ASCII: tab, line feed, vertical tab, form feed,
    carriage return and space. *)
Definition asciiSpace (c : ascii) : bool :=
  match c with
  | "009" | "010" | "011" | "012" | "013" | " " => true
  | _ => false
  end%char.

(** UTF-8 text cut into the pieces that [unicode.IsSpace] (and the
    [isSpace] of package [fmt]) tell apart: a white-space rune with the
    bytes that encode it, or one byte of anything else.  The white-space
    runes are U+0009..U+000D, U+0020, U+0085, U+00A0, U+1680,
    U+2000..U+200A, U+2028, U+2029, U+202F, U+205F and U+3000. *)
Inductive piece :=
| Space (bytes : string)
| Other (c : ascii).

Definition generalPunctuationSpace (c : ascii) : bool :=
  let n := nat_of_ascii c in
  ((128 <=? n) && (n <=? 138) || (n =? 168) || (n =? 169) || (n =? 175))%nat.

Fixpoint pieces (s : string) : list piece :=
  match s with
  | EmptyString => []
  | String c rest =>
      if asciiSpace c then Space (String c EmptyString) :: pieces rest
      else
        match c, rest with
        | "194"%char, String "133"%char rest' =>
            Space (String c (String "133"%char EmptyString)) :: pieces rest'
        | "194"%char, String "160"%char rest' =>
            Space (String c (String "160"%char EmptyString)) :: pieces rest'
        | "225"%char, String "154"%char (String "128"%char rest') =>
            Space (String c (String "154"%char (String "128"%char EmptyString)))
            :: pieces rest'
        | "226"%char, String "128"%char (String c3 rest') =>
            if generalPunctuationSpace c3
            then Space (String c (String "128"%char (String c3 EmptyString)))
                 :: pieces rest'
            else Other c :: pieces rest
        | "226"%char, String "129"%char (String "159"%char rest') =>
            Space (String c (String "129"%char (String "159"%char EmptyString)))
            :: pieces rest'
        | "227"%char, String "128"%char (String "128"%char rest') =>
            Space (String c (String "128"%char (String "128"%char EmptyString)))
            :: pieces rest'
        | _, _ => Other c :: pieces rest
        end
  end.

Definition isSpace (p : piece) : bool :=
  match p with
  | Space _ => true
  | Other _ => false
  end.

Definition bytes_of (p : piece) : string :=
  match p with
  | Space bytes => bytes
  | Other c => String c EmptyString
  end.

Fixpoint text (l : list piece) : string :=
  match l with
  | [] => EmptyString
  | p :: rest => bytes_of p +:+ text rest
  end.

Fixpoint trimLeft (l : list piece) : list piece :=
  match l with
  | Space _ :: rest => trimLeft rest
  | _ => l
  end.

(** [strings.TrimSpace]. *)
Definition TrimSpace (s : string) : string :=
  text (rev (trimLeft (rev (trimLeft (pieces s))))).

(** [strings.Trim(s, cutset)] for a cut set of ASCII bytes, which is how
    the code below calls it: the bytes of the cut set are removed at both
    ends. *)
Definition inCutset (cutset : string) (c : ascii) : bool :=
  existsb (Ascii.eqb c) (chars cutset).

Fixpoint TrimLeft (s cutset : string) : string :=
  match s with
  | EmptyString => EmptyString
  | String c s' => if inCutset cutset c then TrimLeft s' cutset else s
  end.

Fixpoint TrimRight (s cutset : string) : string :=
  match s with
  | EmptyString => EmptyString
  | String c s' =>
      match TrimRight s' cutset with
      | EmptyString => if inCutset cutset c then EmptyString else String c EmptyString
      | kept => String c kept
      end
  end.

Definition Trim (s cutset : string) : string := TrimLeft (TrimRight s cutset) cutset.

End gostrings.

Module gofmt.
Import gostrings.

(** [fmt.Sprint] of an [int]: its decimal digits, with a minus sign for a
    negative number. *)
Definition Sprint (n : Z) : string := pretty n.

(** The ways a scan fails: the input ended ([io.EOF]), a line feed stood
    where an operand was due, the operand of [%d] did not start with a
    digit, or it does not fit 64 bits. *)
Inductive ScanError :=
| EOF
| UnexpectedNewline
| ExpectedInteger
| OutOfRange (token : string).

(** [ss.accept] with the digits of base ten, and the value [strconv]
    gives an accepted byte: its distance from the byte of zero. *)
Definition digit (c : ascii) : option Z :=
  let code := Z.of_N (N_of_ascii c) in
  if (48 <=? code) && (code <=? 57) then Some (code - 48) else None.

(** [ss.SkipSpace] under [Sscanf]: white space is skipped, but a line feed
    is an error. *)
Fixpoint SkipSpace (input : list piece) : list piece + ScanError :=
  match input with
  | Space bytes :: rest =>
      if String.eqb bytes (String "010"%char EmptyString) then inr UnexpectedNewline
      else SkipSpace rest
  | _ => inl input
  end.

(** [ss.scanNumber] with the decimal digits: the digits read, most
    significant first, their value on top of [acc], and the input left. *)
Fixpoint scanNumber (input : list piece) (token : string) (acc : Z)
    : string * Z * list piece :=
  match input with
  | Other c :: rest =>
      match digit c with
      | Some d => scanNumber rest (token +:+ String c EmptyString) (10 * acc + d)
      | None => (token, acc, input)
      end
  | _ => (token, acc, input)
  end.

(** [ss.scanInt] for the verb [%d] and an [int] of 64 bits: optional white
    space, an optional sign, at least one digit; the value must fit. *)
Definition scanInt (input : list piece) : Z * list piece + ScanError :=
  match SkipSpace input with
  | inr e => inr e
  | inl [] => inr EOF
  | inl ((first :: rest) as input1) =>
      let '(sign, negative, input2) :=
        match first with
        | Other "+"%char => ("+"%string, false, rest)
        | Other "-"%char => ("-"%string, true, rest)
        | _ => (EmptyString, false, input1)
        end in
      match input2 with
      | [] => inr EOF
      | Other c :: _ =>
          match digit c with
          | Some _ =>
              let '(token, magnitude, input3) := scanNumber input2 sign 0 in
              let i := if negative then - magnitude else magnitude in
              if (- 2 ^ 63 <=? i) && (i <? 2 ^ 63) then inl (i, input3)
              else inr (OutOfRange token)
          | None => inr ExpectedInteger
          end
      | Space _ :: _ => inr ExpectedInteger
      end
  end.

(** [fmt.Sscanf(str, "%d", &n)]: the value stored and the error.  What
    follows the number in [str] is not looked at. *)
Definition Sscanf_d (str : string) : Z + ScanError :=
  match scanInt (pieces str) with
  | inl (n, _) => inl n
  | inr e => inr e
  end.

(** The word [%s] reads: the bytes up to the next white space. *)
Fixpoint token (input : list piece) : string :=
  match input with
  | Other c :: rest => String c (token rest)
  | _ => EmptyString
  end.

(** [fmt.Sscanf(str, "%d%s", &n, &word)].  (Bytes that are not valid UTF-8
    reach [word] as they are here; Go stores U+FFFD for each.) *)
Definition Sscanf_d_s (str : string) : Z * string + ScanError :=
  match scanInt (pieces str) with
  | inr e => inr e
  | inl (n, input1) =>
      match SkipSpace input1 with
      | inr e => inr e
      | inl [] => inr EOF
      | inl input2 => inl (n, token input2)
      end
  end.

End gofmt.

(** ** ffmpeg_monitor.go: the process managers *)

(** The interface [CommandExecutor], as one call observes it: the output
    of the command and, if it failed, the text of its error. *)
Record CommandExecutor := {
  ExecuteCommand : string -> list string -> string * option string
}.

(** The lines of the output of [pgrep] that hold a process id. *)
Definition pgrep_line (line : string) : list ProcessInfo :=
  let line := gostrings.TrimSpace line in
  if String.eqb line "" then []
  else
    match gofmt.Sscanf_d line with
    | inl pid => [ {| PID := pid; Name := "ffmpeg" |} ]
    | inr _ => []
    end.

(** [UnixProcessManager.FindProcesses]. *)
Definition UnixProcessManager_FindProcesses (cmdExecutor : CommandExecutor)
    : list ProcessInfo + Error :=
  match ExecuteCommand cmdExecutor "pgrep" ["ffmpeg"%string] with
  | (_, Some err) =>
      (* If the command returns no processes, that's not an error *)
      if gostrings.Contains err "exit status 1" then inl []
      else inr (Wrapped "error running pgrep command: %w" [] (CollaboratorError err))
  | (output, None) =>
      inl (flat_map pgrep_line (gostrings.Split output "010"%char))
  end.

(** [UnixProcessManager.TerminateProcess]. *)
Definition UnixProcessManager_TerminateProcess (cmdExecutor : CommandExecutor)
    (pid : Z) : option Error :=
  match ExecuteCommand cmdExecutor "kill" ["-9"%string; gofmt.Sprint pid] with
  | (_, Some err) =>
      Some (Wrapped "failed to terminate process %d: %w" [pid] (CollaboratorError err))
  | (_, None) => None
  end.

(** [UnixProcessManager.IsProcessRunning]. *)
Definition UnixProcessManager_IsProcessRunning (cmdExecutor : CommandExecutor)
    (pid : Z) : bool :=
  match ExecuteCommand cmdExecutor "kill" ["-0"%string; gofmt.Sprint pid] with
  | (_, Some _) => false
  | (_, None) => true
  end.

(** The process manager the monitor uses on Unix. *)
Definition UnixProcessManager (cmdExecutor : CommandExecutor) : ProcessManager :=
  {| FindProcesses := UnixProcessManager_FindProcesses cmdExecutor;
     TerminateProcess := UnixProcessManager_TerminateProcess cmdExecutor;
     IsProcessRunning := UnixProcessManager_IsProcessRunning cmdExecutor |}.

(** A double quote, a space, a carriage return and a line feed: the cut
    set of [WindowsProcessManager.FindProcesses]. *)
Definition quote : ascii := "034"%char.
Definition tasklist_cutset : string :=
  String quote (String " "%char (String "013"%char (String "010"%char EmptyString))).

(** The lines of the output of [tasklist] that hold a process id. *)
Definition tasklist_line (line : string) : list ProcessInfo :=
  if gostrings.Contains line "ffmpeg.exe" then
    match gostrings.Split line ","%char with
    | _ :: field :: _ =>
        (* Remove quotes and convert to PID *)
        let pidStr := gostrings.Trim field tasklist_cutset in
        match gofmt.Sscanf_d pidStr with
        | inl pid => [ {| PID := pid; Name := "ffmpeg.exe" |} ]
        | inr _ => []
        end
    | _ => []
    end
  else [].

(** [WindowsProcessManager.FindProcesses]. *)
Definition WindowsProcessManager_FindProcesses (cmdExecutor : CommandExecutor)
    : list ProcessInfo + Error :=
  match ExecuteCommand cmdExecutor "tasklist"
          ["/FI"; "IMAGENAME eq ffmpeg.exe"; "/NH"; "/FO"; "CSV"]%string with
  | (_, Some err) =>
      inr (Wrapped "error running tasklist command: %w" [] (CollaboratorError err))
  | (output, None) =>
      inl (flat_map tasklist_line (gostrings.Split output "010"%char))
  end.

(** [WindowsProcessManager.TerminateProcess]. *)
Definition WindowsProcessManager_TerminateProcess (cmdExecutor : CommandExecutor)
    (pid : Z) : option Error :=
  match ExecuteCommand cmdExecutor "taskkill"
          ["/F"; "/T"; "/PID"; gofmt.Sprint pid]%string with
  | (_, Some err) =>
      Some (Wrapped "failed to terminate process %d: %w" [pid] (CollaboratorError err))
  | (_, None) => None
  end.

(** [WindowsProcessManager.IsProcessRunning]. *)
Definition WindowsProcessManager_IsProcessRunning (cmdExecutor : CommandExecutor)
    (pid : Z) : bool :=
  match ExecuteCommand cmdExecutor "tasklist"
          ["/FI"; "PID eq " +:+ gofmt.Sprint pid; "/NH"]%string with
  | (_, Some _) => false
  | (output, None) => gostrings.Contains output (gofmt.Sprint pid)
  end.

(** The process manager the monitor uses on Windows. *)
Definition WindowsProcessManager (cmdExecutor : CommandExecutor) : ProcessManager :=
  {| FindProcesses := WindowsProcessManager_FindProcesses cmdExecutor;
     TerminateProcess := WindowsProcessManager_TerminateProcess cmdExecutor;
     IsProcessRunning := WindowsProcessManager_IsProcessRunning cmdExecutor |}.

(** What [tasklist /FO CSV /NH] prints for a process of image
    [ffmpeg.exe]: the quoted image name and process id, then the other
    columns, then a carriage return and a line feed. *)
Definition tasklist_row (pid : Z) (columns : string) : string :=
  String quote "ffmpeg.exe" +:+ String quote "," +:+
  String quote (gofmt.Sprint pid) +:+ String quote "," +:+
  columns +:+ String "013"%char (String "010"%char EmptyString).

Definition tasklist_output (rows : list (Z * string)) : string :=
  foldr (fun row rest => tasklist_row row.1 row.2 +:+ rest) EmptyString rows.

(** What [pgrep] prints for the processes it finds: one process id per
    line. *)
Definition pgrep_output (pids : list Z) : string :=
  foldr (fun pid rest => gofmt.Sprint pid +:+ String "010"%char rest) EmptyString pids.

(** ** ffmpeg_monitor.go: starting and stopping the monitor *)

(** The fields of [FFmpegMonitor] that [Start] and [Stop] change: the
    ticker ([None] is nil; a ticker is known by its period), whether the
    channel [done] has been closed, and the flag [running]. *)
Record FFmpegMonitor := {
  monitorTicker : option Z;
  done_closed : bool;
  running : bool
}.

(** [NewFFmpegMonitor]: [done] is a fresh channel, the other fields have
    their zero values. *)
Definition NewFFmpegMonitor : FFmpegMonitor :=
  {| monitorTicker := None; done_closed := false; running := false |}.

(** What [Start] and [Stop] do besides changing the monitor. *)
Inductive LifecycleEvent :=
| EvNewTicker (interval : Z)
| EvGoMonitorLoop
| EvTickerStop
| EvLogStarted (interval : Z)
| EvLogStopped.

(** [Start]; [interval] is the reading of [m.config.GetMonitoringInterval()]. *)
Definition Start (interval : Z) (m : FFmpegMonitor)
    : FFmpegMonitor * list LifecycleEvent :=
  if running m then (m, [])
  else
    ({| monitorTicker := Some interval; done_closed := done_closed m; running := true |},
     [EvNewTicker interval; EvGoMonitorLoop; EvLogStarted interval]).

(** [Stop].  Closing a channel that is closed already is a run-time panic. *)
Definition Stop (m : FFmpegMonitor) : outcome (FFmpegMonitor * list LifecycleEvent) :=
  if negb (running m) then Returns (m, [])
  else
    let stopped :=
      match monitorTicker m with
      | Some _ => [EvTickerStop]
      | None => []
      end in
    if done_closed m then Panics
    else Returns ({| monitorTicker := None; done_closed := true; running := false |},
                  stopped ++ [EvLogStopped]).

(** [IsRunning]. *)
Definition IsRunning (m : FFmpegMonitor) : bool := running m.

(** The first turn of the loop of [monitorLoop], for the monitor as the
    goroutine finds it; [tick] tells whether the ticker has fired.  A
    receive from the closed channel [done] is always ready, so the first
    [select] takes that case and the loop returns. *)
Inductive LoopTurn :=
| LoopReturn
| LoopSleep
| LoopCheckProcesses
| LoopWait.

Definition monitorLoop_turn (m : FFmpegMonitor) (tick : bool) : LoopTurn :=
  if done_closed m then LoopReturn
  else
    match monitorTicker m with
    | None => LoopSleep
    | Some _ => if tick then LoopCheckProcesses else LoopWait
    end.

(** ** Package errors: the error builder *)

Module errors.

(** [ErrorCategory] is a string type. *)
Definition ErrorCategory := string.

Definition CategoryModelInit : ErrorCategory := "model-initialization".
Definition CategoryModelLoad : ErrorCategory := "model-loading".
Definition CategoryLabelLoad : ErrorCategory := "label-loading".
Definition CategoryValidation : ErrorCategory := "validation".
Definition CategoryFileIO : ErrorCategory := "file-io".
Definition CategoryNetwork : ErrorCategory := "network".
Definition CategoryAudio : ErrorCategory := "audio-processing".
Definition CategoryRTSP : ErrorCategory := "rtsp-connection".
Definition CategoryDatabase : ErrorCategory := "database".
Definition CategoryHTTP : ErrorCategory := "http-request".
Definition CategoryConfiguration : ErrorCategory := "configuration".
Definition CategorySystem : ErrorCategory := "system-resource".
Definition CategoryGeneric : ErrorCategory := "generic".

(** The error a builder wraps: [fmt.Errorf(format, args...)], as [Newf]
    makes it, or any other error value, known by its text. *)
Inductive error :=
| Errorf (format : string) (args : list ContextValue)
| OtherError (text : string).

(** [EnhancedError] (without its mutex); a nil [Context] is [None]. *)
Record EnhancedError := {
  Err : error;
  component : string;
  Category : ErrorCategory;
  Context : option (gmap string ContextValue);
  Timestamp : Z;
  reported : bool;
  detected : bool
}.

(** [ErrorBuilder]. *)
Record ErrorBuilder := {
  eb_err : error;
  eb_component : string;
  eb_category : ErrorCategory;
  eb_context : option (gmap string ContextValue)
}.

(** [New]: the context is initialised lazily. *)
Definition New (err : error) : ErrorBuilder :=
  {| eb_err := err; eb_component := ""; eb_category := ""; eb_context := None |}.

(** [Newf]. *)
Definition Newf (format : string) (args : list ContextValue) : ErrorBuilder :=
  New (Errorf format args).

(** [ErrorBuilder.Component]. *)
Definition Component (component : string) (eb : ErrorBuilder) : ErrorBuilder :=
  {| eb_err := eb_err eb; eb_component := component;
     eb_category := eb_category eb; eb_context := eb_context eb |}.

(** [ErrorBuilder.Category]. *)
Definition with_Category (category : ErrorCategory) (eb : ErrorBuilder) : ErrorBuilder :=
  {| eb_err := eb_err eb; eb_component := eb_component eb;
     eb_category := category; eb_context := eb_context eb |}.

(** [eb.context[key] = value], after the map has been made if it was nil. *)
Definition set_context (key : string) (value : ContextValue) (eb : ErrorBuilder)
    : ErrorBuilder :=
  {| eb_err := eb_err eb; eb_component := eb_component eb;
     eb_category := eb_category eb;
     eb_context := Some (<[key := value]> (default ∅ (eb_context eb))) |}.

(** [ErrorBuilder.Context]. *)
Definition with_Context (key : string) (value : ContextValue) (eb : ErrorBuilder)
    : ErrorBuilder :=
  set_context key value eb.

(** [ErrorBuilder.Build].  [hasActiveReporting] is the reading of the flag
    of that name, [now] the reading of the clock; [detectComponent] is what
    the inspection of the call stack returns at this call and
    [detectCategory] the function of that name.  The result is the error
    built, the builder as [Build] leaves it, and whether the error was
    handed to [reportToTelemetry]. *)
Definition Build (hasActiveReporting : bool) (now : Z) (detectComponent : string)
    (detectCategory : error -> string -> ErrorCategory) (eb : ErrorBuilder)
    : EnhancedError * ErrorBuilder * bool :=
  if negb hasActiveReporting then
    (* Fast path - skip expensive operations if no reporting is active *)
    let ee :=
      {| Err := eb_err eb; component := eb_component eb; Category := eb_category eb;
         Context := eb_context eb; Timestamp := now; reported := false;
         detected := negb (String.eqb (eb_component eb) "") |} in
    let ee :=
      if String.eqb (component ee) "" then
        {| Err := Err ee; component := "unknown"; Category := Category ee;
           Context := Context ee; Timestamp := Timestamp ee; reported := reported ee;
           detected := true |}
      else ee in
    let ee :=
      if String.eqb (Category ee) "" then
        {| Err := Err ee; component := component ee; Category := CategoryGeneric;
           Context := Context ee; Timestamp := Timestamp ee; reported := reported ee;
           detected := detected ee |}
      else ee in
    (ee, eb, false)
  else
    (* Full path - perform auto-detection when reporting is active *)
    let eb :=
      if String.eqb (eb_component eb) "" then Component detectComponent eb else eb in
    let eb :=
      if String.eqb (eb_category eb) ""
      then with_Category (detectCategory (eb_err eb) (eb_component eb)) eb
      else eb in
    ({| Err := eb_err eb; component := eb_component eb; Category := eb_category eb;
        Context := eb_context eb; Timestamp := now; reported := false;
        detected := true |},
     eb, true).

(** [ValidationError], with the text of [NewStd(message)]. *)
Definition ValidationError (hasActiveReporting : bool) (now : Z) (detectComponent : string)
    (detectCategory : error -> string -> ErrorCategory) (message : string)
    : EnhancedError * ErrorBuilder * bool :=
  Build hasActiveReporting now detectComponent detectCategory
    (with_Category CategoryValidation (New (OtherError message))).

(** The builder of the [default] case of [ConvertToFloat32]. *)
Definition unsupportedBitDepthBuilder (bitDepth : Z) : ErrorBuilder :=
  with_Context "supported_bit_depths" (CtxString "16,24,32")
    (with_Context "bit_depth" (CtxInt bitDepth)
       (with_Context "operation" (CtxString "convert_to_float32")
          (with_Category CategoryValidation
             (Component "myaudio"
                (Newf "unsupported audio bit depth: %d" [CtxInt bitDepth]))))).

(** *** Telemetry hooks and the reporting flag *)

(** A [sync.RWMutex], as the one goroutine that runs the functions below
    meets it while no other goroutine holds it or waits for it. *)
Record RWMutex := {
  writer : bool;
  readers : nat
}.

(** The result of running a function that takes locks: it returns, it is
    blocked for ever with the state it has reached, or the run-time system
    stops the program (unlock of a mutex that is not locked). *)
Inductive run (S A : Type) :=
| Done (a : A) (s : S)
| Blocked (s : S)
| Fatal.
Arguments Done {S A} a s.
Arguments Blocked {S A} s.
Arguments Fatal {S A}.

Definition Lock (mu : RWMutex) : option RWMutex :=
  if writer mu || negb (Nat.eqb (readers mu) 0) then None
  else Some {| writer := true; readers := 0 |}.

Definition Unlock (mu : RWMutex) : option RWMutex :=
  if writer mu then Some {| writer := false; readers := readers mu |} else None.

Definition RLock (mu : RWMutex) : option RWMutex :=
  if writer mu then None
  else Some {| writer := false; readers := S (readers mu) |}.

Definition RUnlock (mu : RWMutex) : option RWMutex :=
  match readers mu with
  | O => None
  | S n => Some {| writer := writer mu; readers := n |}
  end.

(** The interface [TelemetryReporter], as far as the flag depends on it. *)
Record TelemetryReporter := {
  IsEnabled : bool
}.

(** An [ErrorHook] is a function; a nil hook is [None]. *)
Definition ErrorHook := option (EnhancedError -> unit).

(** The package-level state of the telemetry integration. *)
Record Telemetry := {
  hasActiveReporting : bool;
  errorHooks : list ErrorHook;
  globalTelemetryReporter : option TelemetryReporter;
  errorHooksMutex : RWMutex
}.

Definition with_mutex (mu : RWMutex) (st : Telemetry) : Telemetry :=
  {| hasActiveReporting := hasActiveReporting st; errorHooks := errorHooks st;
     globalTelemetryReporter := globalTelemetryReporter st; errorHooksMutex := mu |}.

(** [updateActiveReportingStatus]. *)
Definition updateActiveReportingStatus (st : Telemetry) : run Telemetry unit :=
  match RLock (errorHooksMutex st) with
  | None => Blocked st
  | Some mu =>
      let hooksExist := negb (Nat.eqb (length (errorHooks st)) 0) in
      match RUnlock mu with
      | None => Fatal
      | Some mu =>
          let telemetryActive :=
            match globalTelemetryReporter st with
            | Some reporter => IsEnabled reporter
            | None => false
            end in
          Done tt {| hasActiveReporting := hooksExist || telemetryActive;
                     errorHooks := errorHooks st;
                     globalTelemetryReporter := globalTelemetryReporter st;
                     errorHooksMutex := mu |}
      end
  end.

(** [SetTelemetryReporter]. *)
Definition SetTelemetryReporter (reporter : option TelemetryReporter) (st : Telemetry)
    : run Telemetry unit :=
  updateActiveReportingStatus
    {| hasActiveReporting := hasActiveReporting st; errorHooks := errorHooks st;
       globalTelemetryReporter := reporter; errorHooksMutex := errorHooksMutex st |}.

(** A function body run between [errorHooksMutex.Lock()] and the deferred
    [errorHooksMutex.Unlock()]. *)
Definition locked (body : Telemetry -> run Telemetry unit) (st : Telemetry)
    : run Telemetry unit :=
  match Lock (errorHooksMutex st) with
  | None => Blocked st
  | Some mu =>
      match body (with_mutex mu st) with
      | Done _ st' =>
          match Unlock (errorHooksMutex st') with
          | Some mu' => Done tt (with_mutex mu' st')
          | None => Fatal
          end
      | Blocked st' => Blocked st'
      | Fatal => Fatal
      end
  end.

(** [AddErrorHook]. *)
Definition AddErrorHook (hook : ErrorHook) : Telemetry -> run Telemetry unit :=
  locked (fun st =>
    updateActiveReportingStatus
      {| hasActiveReporting := hasActiveReporting st;
         errorHooks := errorHooks st ++ [hook];
         globalTelemetryReporter := globalTelemetryReporter st;
         errorHooksMutex := errorHooksMutex st |}).

(** [ClearErrorHooks]. *)
Definition ClearErrorHooks : Telemetry -> run Telemetry unit :=
  locked (fun st =>
    updateActiveReportingStatus
      {| hasActiveReporting := hasActiveReporting st;
         errorHooks := [];
         globalTelemetryReporter := globalTelemetryReporter st;
         errorHooksMutex := errorHooksMutex st |}).

(** The state the package starts in. *)
Definition initial : Telemetry :=
  {| hasActiveReporting := false; errorHooks := [];
     globalTelemetryReporter := None;
     errorHooksMutex := {| writer := false; readers := 0 |} |}.

End errors.

(** ** Package backup: retention of stored backups *)

(** The order in which a [range] statement visits a Go map: any order, each
    entry once. *)
Record MapRange (V : Type) := {
  range : gmap string V -> list (string * V);
  range_perm : forall m, range m ≡ₚ map_to_list m
}.
Arguments range {V} _ _.
Arguments range_perm {V} _ _.

(** The order of the keys' encoding. *)
Definition canonical_range {V} : MapRange V :=
  {| range := map_to_list;
     range_perm := fun m => reflexivity (map_to_list m) |}.

Module backup.

(** [BackupInfo], which embeds [Metadata]: the fields of [Metadata] are
    fields of the record here, as Go promotes them.  A [time.Time] is an
    instant in nanoseconds, sizes are bytes. *)
Record BackupInfo := {
  Version : Z;
  ID : string;
  Timestamp : Z;
  Size : Z;
  Type' : string;
  Source : string;
  IsDaily : bool;
  IsWeekly : bool;
  ConfigHash : string;
  AppVersion : string;
  Checksum : string;
  Compressed : bool;
  Encrypted : bool;
  OriginalSize : Z;
  Target : string
}.

(** [BackupSet]: a set of unique backups, keyed by their ids. *)
Abbreviation BackupSet := (gmap string BackupInfo) (only parsing).

Definition Add (bs : BackupSet) (backup : BackupInfo) : BackupSet :=
  <[ID backup := backup]> bs.

Definition Contains (bs : BackupSet) (id : string) : bool :=
  bool_decide (is_Some (bs !! id)).

Definition Size_of (bs : BackupSet) : nat := size bs.

Definition ToSlice (order : MapRange BackupInfo) (bs : BackupSet) : list BackupInfo :=
  map snd (range order bs).

(** The error codes this file uses. *)
Inductive ErrorCode := ErrUnknown | ErrValidation | ErrNotFound.

(** Errors: the error of a collaborator (a target, the context), known by
    its text; a failed scan; and what the constructor [NewError] of this
    package, whose code is elsewhere, is called with: a code, the message
    (a format with the texts and the errors that fill it in) and a cause. *)
#[warnings="-register-all"]
Inductive error :=
| External (text : string)
| ScanFailed (e : gofmt.ScanError)
| NewError (code : ErrorCode) (format : string) (texts : list string)
    (errs : list error) (cause : option error).

(** [combineErrors]: the message joins the texts of [errs] with "; ". *)
Definition combineErrors (errs : list error) : option error :=
  match errs with
  | [] => None
  | _ => Some (NewError ErrUnknown "multiple errors occurred: %s" [] errs None)
  end.

(** A signed integer of 64 bits, as [time.Duration] is. *)
Definition int64 (z : Z) : Z := wrap_signed 64 z.

Definition Hour : Z := 3600 * second.

(** [parseRetentionAge]. *)
Definition parseRetentionAge (age : string) : Z * option error :=
  if String.eqb age "" then (0, None)
  else
    (* Parse the number and unit *)
    match gofmt.Sscanf_d_s age with
    | inr err =>
        (0, Some (NewError ErrValidation "invalid retention age format: %s" [age] []
                    (Some (ScanFailed err))))
    | inl (num, unit) =>
        (* Convert to duration *)
        if String.eqb unit "d" then (int64 (int64 (num * 24) * Hour), None)
        else if String.eqb unit "m" then
          (int64 (int64 (int64 (num * 30) * 24) * Hour), None)
        else if String.eqb unit "y" then
          (int64 (int64 (int64 (num * 365) * 24) * Hour), None)
        else
          (0, Some (NewError ErrValidation "invalid retention age unit: %s" [unit] [] None))
    end.

(** [conf.BackupRetention], as this file reads it. *)
Record BackupRetention := {
  MaxAge : string;
  MaxBackups : Z;
  MinBackups : Z
}.

(** The interface [Target], as [enforceRetentionPolicy] uses it: the result
    of [Delete] may depend on the ids deleted before in the same run. *)
Record Target' := {
  Name : string;
  Delete : list string -> string -> option error
}.

(** A [context.Context]: [Done k] tells whether the context is done when
    the loop of deletions makes its turn number [k]; [CtxErr] is
    [ctx.Err()] then. *)
Record Context := {
  Done : nat -> bool;
  CtxErr : error
}.

(** What [enforceRetentionPolicy] does to the target; the attributes of
    the log lines are not recorded. *)
Inductive Event :=
| EvDelete (id : string)
| EvLog (level : string) (msg : string).

(** One turn of the loop that marks backups for deletion: the backup
    [backups[i]] against the rules. *)
Definition mark (retention : BackupRetention) (maxAgeDuration now : Z)
    (state : BackupSet * list Event) (i : nat) (backup : BackupInfo)
    : BackupSet * list Event :=
  let '(backupsToDelete, events) := state in
  (* Rule 1: Always keep the minimum number *)
  let keep := (0 <? MinBackups retention) && (Z.of_nat i <? MinBackups retention) in
  (* Rule 2: Check Max Age (only if keep wasn't already decided) *)
  if negb keep && (0 <? maxAgeDuration) then
    let cutoffTime := now - maxAgeDuration in
    if cutoffTime <? Timestamp backup then
      (* Backup is newer than max age: kept; rule 3 and the last check
         leave a kept backup alone *)
      state
    else
      (Add backupsToDelete backup,
       events ++ [EvLog "DEBUG" "Marking backup for deletion (age exceeded)"])
  else
  (* Rule 3: Check Max Backups count *)
  if negb keep && (0 <? MaxBackups retention) then
    if Z.of_nat i <? MaxBackups retention then state
    else
      (Add backupsToDelete backup,
       events ++ [EvLog "DEBUG" "Marking backup for deletion (count exceeded)"])
  else
    let markedForDeletion := Contains backupsToDelete (ID backup) in
    if negb keep && negb markedForDeletion then
      (Add backupsToDelete backup,
       events ++ [EvLog "DEBUG" "Marking backup for deletion (not kept by other rules)"])
    else state.

Fixpoint mark_all (retention : BackupRetention) (maxAgeDuration now : Z)
    (state : BackupSet * list Event) (i : nat) (backups : list BackupInfo)
    : BackupSet * list Event :=
  match backups with
  | [] => state
  | backup :: rest =>
      mark_all retention maxAgeDuration now
        (mark retention maxAgeDuration now state i backup) (S i) rest
  end.

(** [deleteBackupWithTimeout]. *)
Definition deleteBackupWithTimeout (target : Target') (deleted : list string)
    (backup : BackupInfo) : list Event * option error :=
  match Delete target deleted (ID backup) with
  | Some err =>
      ([EvLog "INFO" "Deleting backup"; EvDelete (ID backup);
        EvLog "ERROR" "Failed to delete backup"], Some err)
  | None =>
      ([EvLog "INFO" "Deleting backup"; EvDelete (ID backup);
        EvLog "INFO" "Successfully deleted backup"], None)
  end.

(** The loop that performs the deletions, at its turn number [k]:
    [deleted] are the ids [Delete] has been called with, [deleteErrors] the
    errors so far. *)
Fixpoint delete_all (ctx : Context) (target : Target')
    (marked : list (string * BackupInfo)) (k : nat) (deleted : list string)
    (deleteErrors : list error) (events : list Event)
    : list Event * option error :=
  match marked with
  | [] =>
      (events ++ [EvLog "INFO" "Finished enforcing retention policy"],
       combineErrors deleteErrors)
  | (id, backup) :: rest =>
      if Done ctx k then
        (events ++ [EvLog "WARN" "Retention policy enforcement cancelled"],
         combineErrors (deleteErrors ++ [CtxErr ctx]))
      else
        let '(events', err) := deleteBackupWithTimeout target deleted backup in
        delete_all ctx target rest (S k) (deleted ++ [ID backup])
          (match err with
           | Some err => deleteErrors ++ [err]
           | None => deleteErrors
           end)
          (events ++ events')
  end.

(** [enforceRetentionPolicy]; [now] is the reading of [time.Now()]. *)
Definition enforceRetentionPolicy (order : MapRange BackupInfo) (now : Z) (ctx : Context)
    (target : Target') (backups : list BackupInfo) (retention : BackupRetention)
    : list Event * option error :=
  match backups with
  | [] => ([], None) (* Nothing to enforce *)
  | _ =>
      let events := [EvLog "INFO" "Enforcing retention policy"] in
      let '(maxAgeDuration, events) :=
        match parseRetentionAge (MaxAge retention) with
        | (_, Some _) =>
            (0, events ++ [EvLog "WARN" "Invalid MaxAge format in retention policy, skipping age-based retention"])
        | (maxAgeDuration, None) => (maxAgeDuration, events)
        end in
      let '(backupsToDelete, events) :=
        mark_all retention maxAgeDuration now (∅, events) 0 backups in
      delete_all ctx target (range order backupsToDelete) 0 [] [] events
  end.

(** The retention age in force: a value of [MaxAge] that does not parse
    disables the rule. *)
Definition maxAgeInForce (retention : BackupRetention) : Z :=
  match parseRetentionAge (MaxAge retention) with
  | (maxAgeDuration, None) => maxAgeDuration
  | (_, Some _) => 0
  end.

(** Whether the rules give up the backup at index [i] of the list. *)
Definition expendable (retention : BackupRetention) (now : Z) (i : nat)
    (backup : BackupInfo) : bool :=
  negb ((0 <? MinBackups retention) && (Z.of_nat i <? MinBackups retention)) &&
  (if 0 <? maxAgeInForce retention
   then Timestamp backup <=? now - maxAgeInForce retention
   else if 0 <? MaxBackups retention
        then MaxBackups retention <=? Z.of_nat i
        else true).

(** [BackupStats]. *)
Record BackupStats := {
  TotalBackups : Z;
  DailyBackups : Z;
  WeeklyBackups : Z;
  OldestBackup : Z;
  NewestBackup : Z;
  TotalSize : Z;
  AvailableSpace : Z;
  LastBackupStatus : string;
  LastBackupTime : Z
}.

(** The zero value of [time.Time]: January 1, year 1, UTC. *)
Definition zeroTime : Z := - 62135596800 * second.

(** The body of the loop over the backups of one target. *)
Definition count (stats : BackupStats) (backup : BackupInfo) : BackupStats :=
  {| TotalBackups := TotalBackups stats + 1;
     DailyBackups := if IsDaily backup then DailyBackups stats + 1 else DailyBackups stats;
     WeeklyBackups := if IsDaily backup then WeeklyBackups stats else WeeklyBackups stats + 1;
     OldestBackup :=
       if Timestamp backup <? OldestBackup stats then Timestamp backup
       else OldestBackup stats;
     NewestBackup :=
       if NewestBackup stats <? Timestamp backup then Timestamp backup
       else NewestBackup stats;
     TotalSize := int64 (TotalSize stats + Size backup);
     AvailableSpace := AvailableSpace stats;
     LastBackupStatus := LastBackupStatus stats;
     LastBackupTime := LastBackupTime stats |}.

(** The statistics of one target: [backups] is what its [List] returned,
    [state] what the state manager knows of it ([None]: there is no state
    manager). *)
Definition targetStats (backups : list BackupInfo) (state : option (string * Z))
    : BackupStats :=
  let first :=
    match backups with
    | b :: _ => Timestamp b
    | [] => zeroTime
    end in
  let counted :=
    foldl count
      {| TotalBackups := 0; DailyBackups := 0; WeeklyBackups := 0;
         OldestBackup := first; NewestBackup := first; TotalSize := 0;
         AvailableSpace := 0; LastBackupStatus := ""; LastBackupTime := zeroTime |}
      backups in
  {| TotalBackups := TotalBackups counted; DailyBackups := DailyBackups counted;
     WeeklyBackups := WeeklyBackups counted; OldestBackup := OldestBackup counted;
     NewestBackup := NewestBackup counted; TotalSize := TotalSize counted;
     AvailableSpace := AvailableSpace counted;
     LastBackupStatus :=
       match state with
       | Some (status, _) => status
       | None => "Unknown (State Manager unavailable)"
       end;
     LastBackupTime :=
       match state with
       | Some (_, time) => time
       | None => NewestBackup counted
       end |}.

(** [GetBackupStats]: [targets] maps the name of each registered target to
    what its [List] returns, [stateManager] is the state manager's
    [GetTargetState] ([None]: nil).  A target whose listing fails is left
    out; the error returned is always nil. *)
Definition GetBackupStats (targets : gmap string (list BackupInfo + error))
    (stateManager : option (string -> string * Z))
    : gmap string BackupStats * option error :=
  (map_imap
     (fun targetName listed =>
        match listed with
        | inl backups =>
            Some (targetStats backups
                    (match stateManager with
                     | Some GetTargetState => Some (GetTargetState targetName)
                     | None => None
                     end))
        | inr _ => None
        end)
     targets,
   None).

End backup.

(** The ids [Delete] was called with, in order. *)
Definition deleted_ids (events : list backup.Event) : list string :=
  flat_map (fun e => match e with
                     | backup.EvDelete id => [id]
                     | backup.EvLog _ _ => []
                     end) events.

(** *** A target with three backups *)

Definition stored (id : string) (timestamp : Z) : backup.BackupInfo :=
  {| backup.Version := 1; backup.ID := id; backup.Timestamp := timestamp;
     backup.Size := 1024; backup.Type' := "sqlite"; backup.Source := "birdnet.db";
     backup.IsDaily := true; backup.IsWeekly := false; backup.ConfigHash := "";
     backup.AppVersion := "dev"; backup.Checksum := ""; backup.Compressed := true;
     backup.Encrypted := false; backup.OriginalSize := 4096;
     backup.Target := "local" |}.

(** Newest first, one day apart. *)
Definition three_backups : list backup.BackupInfo :=
  [stored "c" (3 * 24 * backup.Hour); stored "b" (2 * 24 * backup.Hour);
   stored "a" (1 * 24 * backup.Hour)].

Definition obliging_target : backup.Target' :=
  {| backup.Name := "local"; backup.Delete := fun _ _ => None |}.

Definition live_context : backup.Context :=
  {| backup.Done := fun _ => false; backup.CtxErr := backup.External "context canceled" |}.

Definition cancelled_context : backup.Context :=
  {| backup.Done := fun _ => true; backup.CtxErr := backup.External "context canceled" |}.

Definition no_limits : backup.BackupRetention :=
  {| backup.MaxAge := ""; backup.MaxBackups := 0; backup.MinBackups := 1 |}.

(** ** Auxiliary notions of the proofs *)

(** Texts of decimal digits, and the value of a run of digits read on top
    of [acc]. *)
Definition digits (s : string) : Prop :=
  Forall (fun c => is_Some (gofmt.digit c)) (gostrings.chars s).

Fixpoint value (cs : list ascii) (acc : Z) : Z :=
  match cs with
  | [] => acc
  | c :: cs' => value cs' (10 * acc + default 0 (gofmt.digit c))
  end.

Definition no_digit_ahead (input : list gostrings.piece) : Prop :=
  match input with
  | gostrings.Other c :: _ => gofmt.digit c = None
  | _ => True
  end.

(** Bytes of ASCII that are not white space. *)
Definition plain (c : ascii) : bool :=
  negb (gostrings.asciiSpace c) && (nat_of_ascii c <? 128)%nat.

(** The characters of the decimal text of a number: digits and the minus
    sign. *)
Definition numeric (c : ascii) : bool :=
  match gofmt.digit c with
  | Some _ => true
  | None => Ascii.eqb c "-"
  end.

(** [backup.expendable], for a retention age given outright. *)
Definition expendable_at (retention : backup.BackupRetention) (maxAge now : Z) (i : nat)
    (b : backup.BackupInfo) : bool :=
  negb ((0 <? backup.MinBackups retention) && (Z.of_nat i <? backup.MinBackups retention)) &&
  (if 0 <? maxAge then backup.Timestamp b <=? now - maxAge
   else if 0 <? backup.MaxBackups retention then backup.MaxBackups retention <=? Z.of_nat i
        else true).

(** The keys of a [BackupSet] are the ids of its backups. *)
Definition keyed (bs : gmap string backup.BackupInfo) : Prop :=
  forall id b, bs !! id = Some b -> backup.ID b = id.

(** What the loop of [GetBackupStats] has established after the backups
    [seen]. *)
Record counted (first : Z) (seen : list backup.BackupInfo) (stats : backup.BackupStats)
    : Prop := {
  counted_total : backup.TotalBackups stats = Z.of_nat (length seen);
  counted_daily :
    backup.DailyBackups stats =
    Z.of_nat (length (filter (fun b => backup.IsDaily b = true) seen));
  counted_weekly :
    backup.WeeklyBackups stats =
    Z.of_nat (length (filter (fun b => backup.IsDaily b = false) seen));
  counted_oldest : forall b, b ∈ seen -> backup.OldestBackup stats <= backup.Timestamp b;
  counted_newest : forall b, b ∈ seen -> backup.Timestamp b <= backup.NewestBackup stats;
  counted_oldest_is :
    backup.OldestBackup stats = first \/
    exists b, b ∈ seen /\ backup.OldestBackup stats = backup.Timestamp b;
  counted_newest_is :
    backup.NewestBackup stats = first \/
    exists b, b ∈ seen /\ backup.NewestBackup stats = backup.Timestamp b;
  counted_bounds : backup.OldestBackup stats <= first <= backup.NewestBackup stats
}.

(** *** A window handed to a predictor *)

Definition failing_predict (sampleData : list (list float32))
    : list birdnet.Result * option Error :=
  ([], Some (CollaboratorError "interpreter invoke failed")).

Definition silent_predict (sampleData : list (list float32))
    : list birdnet.Result * option Error := ([], None).

Definition idle_world (capacity : nat) : World :=
  {| globals := startup 4 16 (Some (fun _ => F32.one));
     ResultsQueue := make_chan capacity;
     log := [] |}.

(** *** Command executors of the examples *)

(** [pgrep] finds the processes 4242 and 17; every other command
    succeeds and prints nothing. *)
Definition two_decoders : CommandExecutor :=
  {| ExecuteCommand := fun name args =>
       if String.eqb name "pgrep" then (pgrep_output [4242; 17], None)
       else (EmptyString, None) |}.

(** [pgrep] finds nothing, which it reports with exit status 1. *)
Definition no_decoder : CommandExecutor :=
  {| ExecuteCommand := fun name args =>
       if String.eqb name "pgrep" then (EmptyString, Some "exit status 1"%string)
       else (EmptyString, None) |}.

(** [tasklist] lists two decoders. *)
Definition two_decoders_windows : CommandExecutor :=
  {| ExecuteCommand := fun name args =>
       (tasklist_output [(4242, "Console,1,45,000 K"%string); (17, "Services,0,1,024 K"%string)],
        None) |}.

(* ===================================================================== *)
(** * Part II: properties                                                 *)
(* ===================================================================== *)

(** ** Rounding in [SpecFloat], at binary32 precision *)

Section Float32Rounding.

Lemma digits2_pos_size p : digits2_pos p = Pos.size p.
Proof. induction p as [p IH|p IH|]; cbn [digits2_pos Pos.size]; congruence. Qed.

Lemma digits2_pos_log2 p : Zpos (digits2_pos p) = Z.succ (Z.log2 (Zpos p)).
Proof.
  rewrite digits2_pos_size.
  destruct p as [p|p|]; cbn [Pos.size Z.log2]; [apply Pos2Z.inj_succ .. | reflexivity].
Qed.

Lemma digits2_pos_unique p d : 0 < d -> 2 ^ (d - 1) <= Zpos p < 2 ^ d -> Zpos (digits2_pos p) = d.
Proof.
  intros Hd H. rewrite digits2_pos_log2.
  rewrite (Z.log2_unique (Zpos p) (d - 1)); try lia.
  replace (Z.succ (d - 1)) with d by lia. exact H.
Qed.

Lemma digits2_pos_bounds p : 2 ^ (Zpos (digits2_pos p) - 1) <= Zpos p < 2 ^ Zpos (digits2_pos p).
Proof.
  rewrite digits2_pos_log2. replace (Z.succ (Z.log2 (Zpos p)) - 1) with (Z.log2 (Zpos p)) by lia.
  apply Z.log2_spec. lia.
Qed.

Lemma shr_1_spec m r s : 0 <= m ->
  shr_1 {| shr_m := m; shr_r := r; shr_s := s |} =
  {| shr_m := m / 2; shr_r := Z.odd m; shr_s := r || s |}.
Proof.
  intros Hm. destruct m as [|p|p]; try lia.
  - reflexivity.
  - destruct p as [p|p|]; unfold shr_1.
    + f_equal. rewrite Pos2Z.inj_xI. apply (Z.div_unique _ _ _ 1); lia.
    + f_equal. rewrite Pos2Z.inj_xO. apply (Z.div_unique _ _ _ 0); lia.
    + reflexivity.
Qed.

Lemma iter_pos_nat {A} (f : A -> A) p x : SpecFloat.iter_pos f p x = Nat.iter (Pos.to_nat p) f x.
Proof.
  revert x. induction p as [p IH|p IH|]; intros x; cbn [SpecFloat.iter_pos].
  - rewrite !IH, Pos2Nat.inj_xI, Nat.iter_succ_r.
    replace (2 * Pos.to_nat p)%nat with (Pos.to_nat p + Pos.to_nat p)%nat by lia.
    now rewrite Nat.iter_add.
  - rewrite !IH, Pos2Nat.inj_xO.
    replace (2 * Pos.to_nat p)%nat with (Pos.to_nat p + Pos.to_nat p)%nat by lia.
    now rewrite Nat.iter_add.
  - reflexivity.
Qed.

Lemma shr_iter_spec n m r s : 0 <= m ->
  Nat.iter (S n) shr_1 {| shr_m := m; shr_r := r; shr_s := s |} =
  {| shr_m := m / 2 ^ Z.of_nat (S n);
     shr_r := Z.testbit m (Z.of_nat n);
     shr_s := r || s || negb (m mod 2 ^ Z.of_nat n =? 0) |}.
Proof.
  intros Hm. induction n as [|n IH].
  - cbn [Nat.iter]. rewrite shr_1_spec by assumption.
    change (Z.of_nat 0) with 0. change (Z.of_nat 1) with 1.
    rewrite Z.pow_1_r, Z.pow_0_r, Z.mod_1_r, Z.bit0_odd. cbn. now rewrite orb_false_r.
  - rewrite Nat.iter_succ, IH.
    assert (H2 : 0 < 2 ^ Z.of_nat (S n)) by (apply Z.pow_pos_nonneg; lia).
    rewrite shr_1_spec by (apply Z.div_pos; lia).
    f_equal.
    + rewrite Z.div_div by lia. f_equal.
      rewrite (Nat2Z.inj_succ (S n)), Z.pow_succ_r by lia. lia.
    + rewrite Z.testbit_odd, Z.shiftr_div_pow2 by lia. reflexivity.
    + rewrite (Nat2Z.inj_succ n).
      assert (E : m mod 2 ^ Z.succ (Z.of_nat n) =
                  m mod 2 ^ Z.of_nat n + Z.b2z (Z.testbit m (Z.of_nat n)) * 2 ^ Z.of_nat n).
      { rewrite Z.testbit_spec' by lia.
        rewrite Z.pow_succ_r by lia.
        rewrite (Z.mul_comm 2), Z.rem_mul_r by lia. lia. }
      rewrite E.
      assert (Hp : 0 < 2 ^ Z.of_nat n) by (apply Z.pow_pos_nonneg; lia).
      pose proof (Z.mod_pos_bound m (2 ^ Z.of_nat n) Hp).
      destruct (Z.testbit m (Z.of_nat n)), r, s; cbn [Z.b2z orb negb];
        try reflexivity;
        destruct (Z.eqb_spec (m mod 2 ^ Z.of_nat n) 0);
        destruct (Z.eqb_spec (m mod 2 ^ Z.of_nat n + 1 * 2 ^ Z.of_nat n) 0);
        destruct (Z.eqb_spec (m mod 2 ^ Z.of_nat n + 0 * 2 ^ Z.of_nat n) 0);
        cbn; try reflexivity; lia.
Qed.

Lemma shr_pos_spec m e k : 0 <= m -> 0 < k ->
  shr {| shr_m := m; shr_r := false; shr_s := false |} e k =
  ({| shr_m := m / 2 ^ k;
      shr_r := Z.testbit m (k - 1);
      shr_s := negb (m mod 2 ^ (k - 1) =? 0) |}, e + k).
Proof.
  intros Hm Hk. destruct k as [|p|p]; try lia.
  unfold shr. rewrite iter_pos_nat.
  destruct (Pos2Nat.is_succ p) as [n Hn]. rewrite Hn, shr_iter_spec by assumption.
  assert (E : Z.of_nat (S n) = Zpos p) by (rewrite <- Hn; apply positive_nat_Z).
  rewrite E. replace (Z.of_nat n) with (Zpos p - 1) by lia. reflexivity.
Qed.

Lemma mod_pow2_split m k : 0 < k ->
  m mod 2 ^ k = m mod 2 ^ (k - 1) + Z.b2z (Z.testbit m (k - 1)) * 2 ^ (k - 1).
Proof.
  intros Hk. assert (Hp : 0 < 2 ^ (k - 1)) by (apply Z.pow_pos_nonneg; lia).
  rewrite Z.testbit_spec' by lia.
  replace k with (Z.succ (k - 1)) at 1 by lia.
  rewrite Z.pow_succ_r by lia.
  rewrite (Z.mul_comm 2), Z.rem_mul_r by lia. lia.
Qed.

Lemma rne_of_shr m k : 0 < k ->
  round_nearest_even (m / 2 ^ k)
    (loc_of_shr_record {| shr_m := m / 2 ^ k; shr_r := Z.testbit m (k - 1);
                          shr_s := negb (m mod 2 ^ (k - 1) =? 0) |}) = rne_shift m k.
Proof.
  intros Hk. unfold rne_shift. cbv zeta.
  rewrite (mod_pow2_split m k Hk).
  assert (Hp : 0 < 2 ^ (k - 1)) by (apply Z.pow_pos_nonneg; lia).
  assert (E : 2 ^ k = 2 * 2 ^ (k - 1)).
  { replace k with (Z.succ (k - 1)) at 1 by lia. apply Z.pow_succ_r; lia. }
  rewrite E at 3. clear E.
  pose proof (Z.mod_pos_bound m (2 ^ (k - 1)) Hp) as Hb.
  destruct (Z.testbit m (k - 1)); cbn [Z.b2z];
    destruct (Z.eqb_spec (m mod 2 ^ (k - 1)) 0) as [E0|E0]; cbn [negb loc_of_shr_record round_nearest_even].
  - rewrite E0. replace (2 * (0 + 1 * 2 ^ (k - 1)) ?= 2 * 2 ^ (k - 1)) with Eq; [reflexivity|].
    symmetry. apply Z.compare_eq_iff. lia.
  - replace (2 * (m mod 2 ^ (k - 1) + 1 * 2 ^ (k - 1)) ?= 2 * 2 ^ (k - 1)) with Gt; [reflexivity|].
    symmetry. apply Z.compare_gt_iff. lia.
  - rewrite E0. replace (2 * (0 + 0 * 2 ^ (k - 1)) ?= 2 * 2 ^ (k - 1)) with Lt; [reflexivity|].
    symmetry. apply Z.compare_lt_iff. lia.
  - replace (2 * (m mod 2 ^ (k - 1) + 0 * 2 ^ (k - 1)) ?= 2 * 2 ^ (k - 1)) with Lt; [reflexivity|].
    symmetry. apply Z.compare_lt_iff. lia.
Qed.

Lemma rne_shift_bounds M k : 0 < k -> 0 <= M ->
  M / 2 ^ k <= rne_shift M k <= M / 2 ^ k + 1 /\
  2 * Z.abs (rne_shift M k * 2 ^ k - M) <= 2 ^ k.
Proof.
  intros Hk HM. unfold rne_shift. cbv zeta.
  assert (Hp : 0 < 2 ^ k) by (apply Z.pow_pos_nonneg; lia).
  pose proof (Z.mod_pos_bound M (2 ^ k) Hp) as Hb.
  pose proof (Z.div_mod M (2 ^ k) ltac:(lia)) as Hdm.
  destruct (Z.compare_spec (2 * (M mod 2 ^ k)) (2 ^ k)) as [E|E|E];
    [destruct (Z.even (M / 2 ^ k))| |]; split; try lia.
Qed.

Lemma round_aux_canonical sx mx ex :
  Zpos (digits2_pos mx) = 24 -> -149 <= ex <= 104 ->
  binary_round_aux 24 128 sx (Zpos mx) ex loc_Exact = S754_finite sx mx ex.
Proof.
  intros Hd He. unfold binary_round_aux, shr_fexp, fexp, emin.
  cbn [Zdigits2 shr_record_of_loc]. rewrite Hd.
  replace (Z.max (24 + ex - 24) (3 - 128 - 24) - ex) with 0 by lia.
  cbn [shr shr_m loc_of_shr_record round_nearest_even Zdigits2]. rewrite Hd.
  replace (Z.max (24 + ex - 24) (3 - 128 - 24) - ex) with 0 by lia.
  cbn [shr shr_m shr_record_of_loc].
  destruct (Z.leb_spec ex (128 - 24)); [reflexivity | lia].
Qed.

Lemma round_aux_shift sx mx ex k :
  0 < k -> Zpos (digits2_pos mx) = 24 + k -> -149 <= ex + k -> ex + k + 1 <= 104 ->
  binary_round_aux 24 128 sx (Zpos mx) ex loc_Exact =
  let q := rne_shift (Zpos mx) k in
  if q =? 2 ^ 24 then S754_finite sx (Z.to_pos (2 ^ 23)) (ex + k + 1)
  else S754_finite sx (Z.to_pos q) (ex + k).
Proof.
  intros Hk Hd Hlo Hhi. unfold binary_round_aux, shr_fexp, fexp, emin.
  cbn [Zdigits2 shr_record_of_loc]. rewrite Hd.
  replace (Z.max (24 + k + ex - 24) (3 - 128 - 24) - ex) with k by lia.
  rewrite shr_pos_spec by lia. cbn [shr_m]. rewrite rne_of_shr by lia.
  cbv zeta.
  pose proof (digits2_pos_bounds mx) as Hb. rewrite Hd in Hb.
  replace (24 + k - 1) with (23 + k) in Hb by lia.
  rewrite !Z.pow_add_r in Hb by lia.
  assert (Hp : 0 < 2 ^ k) by (apply Z.pow_pos_nonneg; lia).
  assert (Hq : 2 ^ 23 <= Zpos mx / 2 ^ k < 2 ^ 24).
  { split; [apply Z.div_le_lower_bound | apply Z.div_lt_upper_bound]; lia. }
  destruct (rne_shift_bounds (Zpos mx) k Hk ltac:(lia)) as [Hr _].
  set (q := rne_shift (Zpos mx) k) in *.
  destruct (Z.eqb_spec q (2 ^ 24)) as [E|E].
  - rewrite E. change (Zdigits2 (2 ^ 24)) with 25.
    replace (Z.max (25 + (ex + k) - 24) (3 - 128 - 24) - (ex + k)) with 1 by lia.
    cbn [shr shr_record_of_loc SpecFloat.iter_pos shr_1 shr_m]. change (2 ^ 24) with (Zpos (xO (Z.to_pos (2 ^ 23)))).
    cbn [shr shr_record_of_loc SpecFloat.iter_pos shr_1 shr_m orb].
    destruct (Z.leb_spec (ex + k + 1) (128 - 24)); [reflexivity | lia].
  - assert (Hq' : 2 ^ 23 <= q < 2 ^ 24) by lia.
    destruct q as [|qp|qp]; try lia.
    cbn [Zdigits2 shr_record_of_loc].
    rewrite (digits2_pos_unique qp 24) by (try lia; exact Hq').
    replace (Z.max (24 + (ex + k) - 24) (3 - 128 - 24) - (ex + k)) with 0 by lia.
    cbn [shr shr_m Z.to_pos].
    destruct (Z.leb_spec (ex + k) (128 - 24)); [reflexivity | lia].
Qed.

Lemma Pos_iter_xO p n : Zpos (Pos.iter xO p n) = Zpos p * 2 ^ Zpos n.
Proof.
  induction n as [|n IH] using Pos.peano_ind.
  - cbn. lia.
  - rewrite Pos.iter_succ, Pos2Z.inj_xO, IH, Pos2Z.inj_succ, Z.pow_succ_r by lia. lia.
Qed.

Lemma binary_round_int sx p : Zpos p <= 2 ^ 40 ->
  exists m e, binary_round 24 128 sx p 0 = S754_finite sx m e /\
    2 ^ 23 <= Zpos m < 2 ^ 24 /\ -23 <= e <= 18 /\
    Zpos m * 2 ^ (e + 23) = round24 (Zpos p) * 2 ^ 23.
Proof.
  intros Hp. unfold binary_round, fexp, emin.
  pose proof (digits2_pos_bounds p) as Hb.
  pose proof (digits2_pos_log2 p) as Hl.
  assert (Hd : 0 < Zpos (digits2_pos p) <= 41).
  { split; [lia|]. destruct (Z.le_gt_cases (Zpos (digits2_pos p)) 41) as [|H]; [assumption|].
    assert (2 ^ 41 <= 2 ^ (Zpos (digits2_pos p) - 1)) by (apply Z.pow_le_mono_r; lia). lia. }
  set (d := Zpos (digits2_pos p)) in *.
  replace (Z.max (d + 0 - 24) (3 - 128 - 24)) with (d - 24) by lia.
  unfold round24. replace (Z.log2 (Zpos p) + 1 - 24) with (d - 24) by lia.
  unfold shl_align.
  destruct (Z.ltb_spec 0 (d - 24)) as [Hk|Hk].
  - (* more than 24 digits: the mantissa is shifted right and rounded *)
    destruct (d - 24 - 0) as [|dd|dd] eqn:Edd; try lia.
    rewrite (round_aux_shift sx p 0 (d - 24)) by (fold d; lia).
    cbv zeta.
    assert (H2k : 0 < 2 ^ (d - 24)) by (apply Z.pow_pos_nonneg; lia).
    assert (Hb' : 2 ^ 23 * 2 ^ (d - 24) <= Zpos p < 2 ^ 24 * 2 ^ (d - 24)).
    { rewrite <- !Z.pow_add_r by lia. replace (23 + (d - 24)) with (d - 1) by lia.
      replace (24 + (d - 24)) with d by lia. exact Hb. }
    assert (Hq : 2 ^ 23 <= Zpos p / 2 ^ (d - 24) < 2 ^ 24).
    { split; [apply Z.div_le_lower_bound | apply Z.div_lt_upper_bound]; lia. }
    destruct (rne_shift_bounds (Zpos p) (d - 24) Hk ltac:(lia)) as [Hr _].
    set (q := rne_shift (Zpos p) (d - 24)) in *.
    destruct (Z.eqb_spec q (2 ^ 24)) as [E|E].
    + exists (Z.to_pos (2 ^ 23)), (0 + (d - 24) + 1). repeat split; try lia.
      rewrite E. replace (0 + (d - 24) + 1 + 23) with (Z.succ (d - 24) + 23) by lia.
      rewrite Z.pow_add_r, Z.pow_succ_r by lia.
      change (Zpos (Z.to_pos (2 ^ 23))) with (2 ^ 23). change (2 ^ 24) with (2 * 2 ^ 23). ring.
    + exists (Z.to_pos q), (0 + (d - 24)). rewrite Z2Pos.id by lia.
      repeat split; try lia.
      replace (0 + (d - 24) + 23) with ((d - 24) + 23) by lia.
      rewrite Z.pow_add_r by lia. ring.
  - (* at most 24 digits: the mantissa is shifted left, exactly *)
    destruct (d - 24 - 0) as [|dd|dd] eqn:Edd; try lia.
    + rewrite round_aux_canonical by (fold d; lia).
      exists p, 0. replace d with 24 in Hb by lia. repeat split; try lia.
    + assert (Hm : Zpos (Pos.iter xO p dd) = Zpos p * 2 ^ (24 - d)).
      { rewrite Pos_iter_xO. f_equal. f_equal. lia. }
      assert (H2 : 0 < 2 ^ (24 - d)) by (apply Z.pow_pos_nonneg; lia).
      assert (Hb' : 2 ^ 23 <= Zpos (Pos.iter xO p dd) < 2 ^ 24).
      { rewrite Hm.
        replace (2 ^ 23) with (2 ^ (d - 1) * 2 ^ (24 - d))
          by (rewrite <- Z.pow_add_r by lia; f_equal; lia).
        replace (2 ^ 24) with (2 ^ d * 2 ^ (24 - d))
          by (rewrite <- Z.pow_add_r by lia; f_equal; lia).
        nia. }
      rewrite round_aux_canonical by first [lia | apply digits2_pos_unique; [lia | exact Hb']].
      exists (Pos.iter xO p dd), (d - 24). repeat split; try lia.
      rewrite Hm. replace (d - 24 + 23) with (d - 1) by lia.
      rewrite <- Z.mul_assoc, <- Z.pow_add_r by lia. f_equal. f_equal. lia.
Qed.

Lemma rne_shift_double m : rne_shift (2 * m) 1 = m.
Proof.
  unfold rne_shift. rewrite Z.pow_1_r.
  replace (2 * m mod 2) with 0 by (symmetry; rewrite Z.mul_comm; apply Z.mod_mul; lia).
  replace (2 * m / 2) with m by (symmetry; rewrite Z.mul_comm; apply Z.div_mul; lia).
  reflexivity.
Qed.

Lemma SFdiv_pow2 s m e j :
  2 ^ 23 <= Zpos m < 2 ^ 24 -> -40 <= e <= 40 -> -40 <= j <= 40 ->
  SFdiv 24 128 (S754_finite s m e) (S754_finite false 8388608 j) =
  S754_finite s m (e - j - 23).
Proof.
  intros Hm He Hj. unfold SFdiv, SFdiv_core_binary, fexp, emin.
  cbn [Zdigits2]. rewrite (digits2_pos_unique m 24) by (try lia; exact Hm).
  change (Zpos (digits2_pos 8388608)) with 24.
  replace (Z.min (Z.max (24 + e - (24 + j) - 24) (3 - 128 - 24)) (e - j)) with (e - j - 24) by lia.
  replace (e - j - (e - j - 24)) with 24 by lia.
  replace (Z.div_eucl (Z.shiftl (Zpos m) 24) 8388608) with (Zpos (xO m), 0).
  2:{ pose proof (Z.div_eucl_eq (Z.shiftl (Zpos m) 24) 8388608 ltac:(lia)) as H.
      pose proof (Z.mod_pos_bound (Z.shiftl (Zpos m) 24) 8388608 ltac:(lia)) as Hr.
      unfold Z.modulo in Hr.
      destruct (Z.div_eucl (Z.shiftl (Zpos m) 24) 8388608) as [q r].
      rewrite Z.shiftl_mul_pow2 in H by lia. change (2 ^ 24) with 16777216 in H.
      f_equal; lia. }
  change (new_location 8388608 0) with loc_Exact.
  rewrite xorb_false_r.
  rewrite (round_aux_shift s (xO m) (e - j - 24) 1); try lia.
  - cbv zeta. rewrite Pos2Z.inj_xO, rne_shift_double.
    destruct (Z.eqb_spec (Zpos m) (2 ^ 24)); [lia|].
    cbn [Z.to_pos]. f_equal. lia.
  - cbn [digits2_pos]. rewrite Pos2Z.inj_succ, (digits2_pos_unique m 24) by (try lia; exact Hm). lia.
Qed.

End Float32Rounding.

(** ** The integer a float32 conversion denotes *)

Lemma round24_small n : 0 < n < 2 ^ 24 -> round24 n = n.
Proof.
  intros H. unfold round24.
  assert (Z.log2 n < 24) by (apply Z.log2_lt_pow2; lia).
  destruct (Z.ltb_spec 0 (Z.log2 n + 1 - 24)); [lia | reflexivity].
Qed.

Lemma round24_shift n :
  2 ^ 24 <= n ->
  let k := Z.log2 n + 1 - 24 in
  0 < k /\ round24 n = rne_shift n k * 2 ^ k /\
  2 ^ 23 * 2 ^ k <= n < 2 ^ 24 * 2 ^ k.
Proof.
  intros H k. assert (Hl : 24 <= Z.log2 n) by (apply Z.log2_le_pow2; lia).
  assert (Hk : 0 < k) by (unfold k; lia).
  split; [exact Hk|]. split.
  - unfold round24. fold k. destruct (Z.ltb_spec 0 k); [reflexivity | lia].
  - pose proof (Z.log2_spec n ltac:(lia)) as Hs.
    rewrite <- !Z.pow_add_r by lia.
    replace (23 + k) with (Z.log2 n) by (unfold k; lia).
    replace (24 + k) with (Z.succ (Z.log2 n)) by (unfold k; lia). exact Hs.
Qed.

Lemma round24_error n : 0 < n -> 2 ^ 24 * Z.abs (round24 n - n) <= n.
Proof.
  intros Hn. destruct (Z.lt_ge_cases n (2 ^ 24)) as [H|H].
  - rewrite round24_small by lia. replace (n - n) with 0 by lia. cbn. lia.
  - destruct (round24_shift n H) as (Hk & -> & Hb).
    set (k := Z.log2 n + 1 - 24) in *.
    destruct (rne_shift_bounds n k Hk ltac:(lia)) as [_ He].
    assert (0 < 2 ^ k) by (apply Z.pow_pos_nonneg; lia).
    change (2 ^ 24) with (2 * 2 ^ 23). lia.
Qed.

Lemma round24_le_pow2 n K : 0 <= K -> 0 < n <= 2 ^ K -> round24 n <= 2 ^ K.
Proof.
  intros HK Hn. destruct (Z.lt_ge_cases n (2 ^ 24)) as [H|H].
  - rewrite round24_small by lia. lia.
  - destruct (round24_shift n H) as (Hk & -> & Hb).
    set (k := Z.log2 n + 1 - 24) in *.
    destruct (rne_shift_bounds n k Hk ltac:(lia)) as [Hr He].
    assert (H2 : 0 < 2 ^ k) by (apply Z.pow_pos_nonneg; lia).
    assert (Hq : n / 2 ^ k < 2 ^ 24) by (apply Z.div_lt_upper_bound; lia).
    destruct (Z.eq_dec n (2 ^ K)) as [Heq|Hne].
    + assert (Hl : Z.log2 n = K) by (rewrite Heq; apply Z.log2_pow2; lia).
      assert (Hn2 : n = 2 ^ 23 * 2 ^ k).
      { rewrite <- Z.pow_add_r by lia. rewrite Heq. f_equal. unfold k. lia. }
      rewrite <- Heq.
      assert (rne_shift n k = 2 ^ 23) by nia. nia.
    + assert (Hlt : n < 2 ^ K) by lia.
      assert (Z.log2 n < K) by (apply Z.log2_lt_pow2; lia).
      assert (2 ^ (24 + k) <= 2 ^ K) by (apply Z.pow_le_mono_r; unfold k; lia).
      rewrite Z.pow_add_r in * by lia. nia.
Qed.

(** ** Conversion to float32 and division by a power of two *)

Lemma of_int_zero : F32.of_int 0 = F32.zero.
Proof. reflexivity. Qed.

Lemma of_int_nonzero v : v <> 0 -> Z.abs v <= 2 ^ 40 ->
  exists m e, F32.of_int v = S754_finite (v <? 0) m e /\
    2 ^ 23 <= Zpos m < 2 ^ 24 /\ -23 <= e <= 18 /\
    Zpos m * 2 ^ (e + 23) = round24 (Z.abs v) * 2 ^ 23.
Proof.
  intros Hv Hb. unfold F32.of_int, F32.prec, F32.emax, binary_normalize.
  destruct v as [|p|p]; [congruence| |].
  - apply (binary_round_int false p). exact Hb.
  - apply (binary_round_int true p). exact Hb.
Qed.

(** Division of a converted integer by the power of two [2 ^ (j + 23)]. *)
Lemma div_of_int_pow2 v j : v <> 0 -> Z.abs v <= 2 ^ 40 -> -40 <= j <= 40 ->
  exists m e,
    F32.div (F32.of_int v) (S754_finite false 8388608 j) = S754_finite (v <? 0) m e /\
    2 ^ 23 <= Zpos m < 2 ^ 24 /\ 0 <= e + j + 46 /\
    Zpos m * 2 ^ (e + j + 46) = round24 (Z.abs v) * 2 ^ 23.
Proof.
  intros Hv Hb Hj. destruct (of_int_nonzero v Hv Hb) as (m & e & -> & Hm & He & Hr).
  exists m, (e - j - 23). unfold F32.div, F32.prec, F32.emax.
  rewrite SFdiv_pow2 by lia.
  replace (e - j - 23 + j + 46) with (e + 23) by lia.
  repeat split; try lia. 
Qed.

Lemma div_zero_pow2 j : F32.div (F32.of_int 0) (S754_finite false 8388608 j) = F32.zero.
Proof. reflexivity. Qed.

Section Order.
Variables (s : bool) (m : positive) (e a R : Z).
Hypothesis Hm : 2 ^ 23 <= Zpos m < 2 ^ 24.
Hypothesis Ha : 0 <= e + a.
Hypothesis HR : Zpos m * 2 ^ (e + a) = R * 2 ^ 23.
Hypothesis Hle : R <= 2 ^ (a - 23).
Hypothesis Ha23 : 23 <= a.

Lemma normalized_exponent : e < -23 \/ (e = -23 /\ Zpos m = 2 ^ 23 /\ R = 2 ^ (a - 23)).
Proof.
  assert (H0 : 0 < 2 ^ (a - 23)) by (apply Z.pow_pos_nonneg; lia).
  destruct (Z.lt_ge_cases e (-23)) as [H|H]; [left; exact H | right].
  assert (E : 2 ^ (e + a) = 2 ^ (e + 23) * 2 ^ (a - 23)).
  { rewrite <- Z.pow_add_r by lia. f_equal. lia. }
  assert (H1 : 1 <= 2 ^ (e + 23)) by (apply (Z.pow_le_mono_r 2 0); lia).
  rewrite E in HR.
  assert (H2 : 2 ^ (e + 23) = 1) by nia.
  assert (e + 23 = 0).
  { destruct (Z.eq_dec (e + 23) 0) as [|Hne]; [assumption|].
    assert (2 ^ 1 <= 2 ^ (e + 23)) by (apply Z.pow_le_mono_r; lia).
    change (2 ^ 1) with 2 in *. lia. }
  nia.
Qed.

Lemma normalized_leb_one : F32.leb (S754_finite s m e) F32.one = true.
Proof.
  unfold F32.leb, SFleb. change F32.one with (S754_finite false 8388608 (-23)).
  cbn [SFcompare]. destruct s; [reflexivity|].
  destruct normalized_exponent as [H|(-> & H & _)].
  - rewrite (proj2 (Z.compare_lt_iff e (-23)) H). reflexivity.
  - cbn [Z.compare Pos.compare]. rewrite Pos.compare_cont_spec. cbn [Pos.switch_Eq].
    change (2 ^ 23) with (Zpos 8388608) in H. injection H as ->. reflexivity.
Qed.

Lemma normalized_minus_one_leb : F32.leb F32.minus_one (S754_finite s m e) = true.
Proof.
  unfold F32.leb, SFleb. change F32.minus_one with (S754_finite true 8388608 (-23)).
  cbn [SFcompare]. destruct s; [|reflexivity].
  destruct normalized_exponent as [H|(-> & H & _)].
  - rewrite (proj2 (Z.compare_gt_iff (-23) e)); [reflexivity | lia].
  - cbn [Z.compare Pos.compare]. rewrite Pos.compare_cont_spec. cbn [Pos.switch_Eq].
    change (2 ^ 23) with (Zpos 8388608) in H. injection H as ->. reflexivity.
Qed.

Lemma normalized_ltb_one : s = true \/ R < 2 ^ (a - 23) ->
  F32.ltb (S754_finite s m e) F32.one = true.
Proof.
  intros H. unfold F32.ltb, SFltb. change F32.one with (S754_finite false 8388608 (-23)).
  cbn [SFcompare]. destruct s; [reflexivity|].
  destruct H as [H|H]; [discriminate|].
  destruct normalized_exponent as [H'|(_ & _ & H')]; [|lia].
  rewrite (proj2 (Z.compare_lt_iff e (-23)) H'). reflexivity.
Qed.

Lemma normalized_one : s = false -> R = 2 ^ (a - 23) -> S754_finite s m e = F32.one.
Proof.
  intros -> HR'. destruct normalized_exponent as [H|(-> & H & _)].
  - exfalso. subst R.
    assert (E : 2 ^ (a - 23) = 2 ^ (e + a) * 2 ^ (-23 - e)).
    { rewrite <- Z.pow_add_r by lia. f_equal. lia. }
    assert (2 ^ 1 <= 2 ^ (-23 - e)) by (apply Z.pow_le_mono_r; lia).
    change (2 ^ 1) with 2 in *.
    assert (0 < 2 ^ (e + a)) by (apply Z.pow_pos_nonneg; lia).
    rewrite E in HR. nia.
  - change (2 ^ 23) with (Zpos 8388608) in H. injection H as ->. reflexivity.
Qed.
End Order.

(** ** The rational value of a normalised sample *)

Lemma Qpower2_inject n : 0 <= n -> (2 ^ n == inject_Z (2 ^ n))%Q.
Proof. intros H. rewrite Zpower_Qpower by assumption. reflexivity. Qed.

Lemma cond_Zopp_mul s x y : cond_Zopp s x * y = cond_Zopp s (x * y).
Proof. destruct s; cbn [cond_Zopp]; lia. Qed.

Lemma normalized_to_Q s m e a R :
  0 <= e + a -> 23 <= a -> Zpos m * 2 ^ (e + a) = R * 2 ^ 23 ->
  (F32.to_Q (S754_finite s m e) == inject_Z (cond_Zopp s R) / inject_Z (2 ^ (a - 23)))%Q.
Proof.
  intros He Ha HR. cbn [F32.to_Q].
  assert (H2 : ~ (2 == 0)%Q) by discriminate.
  replace e with ((e + a) + - a) at 1 by lia.
  rewrite Qpower_plus by exact H2.
  rewrite (Qpower2_inject (e + a)) by lia.
  rewrite Qmult_assoc, <- inject_Z_mult, cond_Zopp_mul, HR, <- cond_Zopp_mul, inject_Z_mult.
  unfold Qdiv. rewrite <- (Qpower2_inject (a - 23)) by lia.
  rewrite <- Qpower_opp.
  replace (- (a - 23)) with (23 + - a) by lia.
  rewrite Qpower_plus by exact H2.
  rewrite (Qpower2_inject 23) by lia.
  ring.
Qed.

(** ** Fixed-width integers and the samples read from the byte stream *)

Lemma wrap_signed_unique bits z k :
  0 < bits -> - 2 ^ (bits - 1) <= z + k * 2 ^ bits < 2 ^ (bits - 1) ->
  wrap_signed bits z = z + k * 2 ^ bits.
Proof.
  intros Hb H. unfold wrap_signed.
  assert (E : 2 ^ bits = 2 * 2 ^ (bits - 1)).
  { replace bits with (Z.succ (bits - 1)) at 1 by lia. apply Z.pow_succ_r. lia. }
  assert (Hm : (z + 2 ^ (bits - 1)) mod 2 ^ bits = z + k * 2 ^ bits + 2 ^ (bits - 1)).
  { symmetry. apply (Z.mod_unique _ _ (- k)); [left; lia | lia]. }
  lia.
Qed.

Lemma wrap_signed_id bits z :
  0 < bits -> - 2 ^ (bits - 1) <= z < 2 ^ (bits - 1) -> wrap_signed bits z = z.
Proof.
  intros Hb H. rewrite (wrap_signed_unique bits z 0) by lia. lia.
Qed.

Lemma wrap_signed_range bits z :
  0 < bits -> - 2 ^ (bits - 1) <= wrap_signed bits z < 2 ^ (bits - 1).
Proof.
  intros Hb. unfold wrap_signed.
  assert (E : 2 ^ bits = 2 * 2 ^ (bits - 1)).
  { replace bits with (Z.succ (bits - 1)) at 1 by lia. apply Z.pow_succ_r. lia. }
  assert (0 < 2 ^ (bits - 1)) by (apply Z.pow_pos_nonneg; lia).
  pose proof (Z.mod_pos_bound (z + 2 ^ (bits - 1)) (2 ^ bits) ltac:(lia)). lia.
Qed.

Lemma testbit_above a n i : 0 <= a < 2 ^ n -> n <= i -> Z.testbit a i = false.
Proof.
  intros Ha Hi. destruct (Z.le_gt_cases 0 n) as [Hn|Hn].
  - apply (proj1 (Z.bounded_iff_bits_nonneg n a Hn ltac:(lia))); lia.
  - rewrite Z.pow_neg_r in Ha by lia. lia.
Qed.

Lemma lor_disjoint a c n k :
  0 <= n -> k = 2 ^ n -> 0 <= a < k -> Z.lor a (c * k) = a + c * k.
Proof.
  intros Hn -> Ha. symmetry. apply Z.add_nocarry_lor.
  apply Z.bits_inj'. intros i Hi. rewrite Z.land_spec, Z.bits_0.
  destruct (Z.lt_ge_cases i n) as [H|H].
  - rewrite Z.mul_pow2_bits_low by lia. apply andb_false_r.
  - rewrite (testbit_above a n i) by lia. reflexivity.
Qed.

Lemma land_pow2 a n : 0 <= n -> Z.land a (2 ^ n) = if Z.testbit a n then 2 ^ n else 0.
Proof.
  intros Hn. apply Z.bits_inj'. intros i Hi. rewrite Z.land_spec, Z.pow2_bits_eqb by lia.
  destruct (Z.eqb_spec n i) as [->|Hne].
  - destruct (Z.testbit a i) eqn:E; cbn.
    + now rewrite Z.pow2_bits_true.
    + now rewrite Z.bits_0.
  - rewrite andb_false_r. destruct (Z.testbit a n).
    + now rewrite Z.pow2_bits_false.
    + now rewrite Z.bits_0.
Qed.

Lemma testbit_top a n : 0 <= n -> 0 <= a < 2 ^ (n + 1) -> Z.testbit a n = (2 ^ n <=? a).
Proof.
  intros Hn Ha. rewrite Z.pow_add_r, Z.pow_1_r in Ha by lia.
  assert (H2 : 0 < 2 ^ n) by (apply Z.pow_pos_nonneg; lia).
  rewrite Z.testbit_odd, Z.shiftr_div_pow2 by lia.
  destruct (Z.leb_spec (2 ^ n) a) as [H|H].
  - replace (a / 2 ^ n) with 1; [reflexivity|].
    apply (Z.div_unique a (2 ^ n) 1 (a - 2 ^ n)); lia.
  - rewrite Z.div_small by lia. reflexivity.
Qed.

Ltac pow2 :=
  change (2 ^ 8) with 256 in *; change (2 ^ 16) with 65536 in *;
  change (2 ^ 24) with 16777216 in *; change (2 ^ 32) with 4294967296 in *;
  change (2 ^ (16 - 1)) with 32768 in *; change (2 ^ (24 - 1)) with 8388608 in *;
  change (2 ^ (32 - 1)) with 2147483648 in *.

Lemma sample16_spec b0 b1 :
  sample16 b0 b1 = wrap_signed 16 (byte.unsigned b0 + 2 ^ 8 * byte.unsigned b1).
Proof.
  unfold sample16, int16.
  pose proof (byte.unsigned_range b0) as H0. pose proof (byte.unsigned_range b1) as H1.
  set (u0 := byte.unsigned b0) in *. set (u1 := byte.unsigned b1) in *.
  rewrite (wrap_signed_id 16 u0), (wrap_signed_id 16 u1) by (pow2; lia).
  rewrite Z.shiftl_mul_pow2 by lia. pow2.
  destruct (Z.lt_ge_cases u1 128) as [H|H].
  - rewrite (wrap_signed_id 16 (u1 * 256)) by (pow2; lia).
    rewrite (wrap_signed_id 16 (u0 + 256 * u1)) by (pow2; lia).
    rewrite (lor_disjoint u0 u1 8 256) by (reflexivity || lia). lia.
  - rewrite (wrap_signed_unique 16 (u1 * 256) (-1)) by (pow2; lia).
    rewrite (wrap_signed_unique 16 (u0 + 256 * u1) (-1)) by (pow2; lia).
    pow2.
    replace (u1 * 256 + -1 * 65536) with ((u1 - 256) * 256) by lia.
    rewrite (lor_disjoint u0 (u1 - 256) 8 256) by (reflexivity || lia). lia.
Qed.

Lemma sample16_range b0 b1 : - 2 ^ 15 <= sample16 b0 b1 < 2 ^ 15.
Proof. rewrite sample16_spec. apply (wrap_signed_range 16). lia. Qed.

Lemma sample32_spec b0 b1 b2 b3 :
  sample32 b0 b1 b2 b3 =
  wrap_signed 32 (byte.unsigned b0 + 2 ^ 8 * byte.unsigned b1 +
                  2 ^ 16 * byte.unsigned b2 + 2 ^ 24 * byte.unsigned b3).
Proof.
  unfold sample32, int32.
  pose proof (byte.unsigned_range b0) as H0. pose proof (byte.unsigned_range b1) as H1.
  pose proof (byte.unsigned_range b2) as H2. pose proof (byte.unsigned_range b3) as H3.
  set (u0 := byte.unsigned b0) in *. set (u1 := byte.unsigned b1) in *.
  set (u2 := byte.unsigned b2) in *. set (u3 := byte.unsigned b3) in *.
  rewrite (wrap_signed_id 32 u0), (wrap_signed_id 32 u1), (wrap_signed_id 32 u2),
    (wrap_signed_id 32 u3) by (pow2; lia).
  rewrite !Z.shiftl_mul_pow2 by lia. pow2.
  rewrite (wrap_signed_id 32 (u1 * 256)), (wrap_signed_id 32 (u2 * 65536)) by (pow2; lia).
  rewrite (lor_disjoint u0 u1 8 256) by (reflexivity || lia).
  rewrite (lor_disjoint (u0 + u1 * 256) u2 16 65536) by (reflexivity || lia).
  destruct (Z.lt_ge_cases u3 128) as [H|H].
  - rewrite (wrap_signed_id 32 (u3 * 16777216)) by (pow2; lia).
    rewrite (wrap_signed_id 32 (u0 + 256 * u1 + 65536 * u2 + 16777216 * u3)) by (pow2; lia).
    rewrite (lor_disjoint _ u3 24 16777216) by (reflexivity || lia). lia.
  - rewrite (wrap_signed_unique 32 (u3 * 16777216) (-1)) by (pow2; lia).
    rewrite (wrap_signed_unique 32 (u0 + 256 * u1 + 65536 * u2 + 16777216 * u3) (-1)) by (pow2; lia).
    pow2.
    replace (u3 * 16777216 + -1 * 4294967296) with ((u3 - 256) * 16777216) by lia.
    rewrite (lor_disjoint _ (u3 - 256) 24 16777216) by (reflexivity || lia). lia.
Qed.

Lemma sample32_range b0 b1 b2 b3 : - 2 ^ 31 <= sample32 b0 b1 b2 b3 < 2 ^ 31.
Proof. rewrite sample32_spec. apply (wrap_signed_range 32). lia. Qed.

(** The 24-bit sample before sign extension is the raw little-endian value;
    the sign extension subtracts [2 ^ 24] exactly when bit 23 is set. *)
Lemma sample24_sign_extension b0 b1 b2 :
  let raw := byte.unsigned b0 + 2 ^ 8 * byte.unsigned b1 + 2 ^ 16 * byte.unsigned b2 in
  sample24 b0 b1 b2 = if Z.testbit raw 23 then raw - 2 ^ 24 else raw.
Proof.
  intros raw. unfold sample24, int32.
  pose proof (byte.unsigned_range b0) as H0. pose proof (byte.unsigned_range b1) as H1.
  pose proof (byte.unsigned_range b2) as H2. subst raw.
  set (u0 := byte.unsigned b0) in *. set (u1 := byte.unsigned b1) in *.
  set (u2 := byte.unsigned b2) in *.
  rewrite (wrap_signed_id 32 u0), (wrap_signed_id 32 u1), (wrap_signed_id 32 u2) by (pow2; lia).
  rewrite !Z.shiftl_mul_pow2 by lia. pow2.
  rewrite (wrap_signed_id 32 (u1 * 256)), (wrap_signed_id 32 (u2 * 65536)) by (pow2; lia).
  rewrite (lor_disjoint u0 u1 8 256) by (reflexivity || lia).
  rewrite (lor_disjoint (u0 + u1 * 256) u2 16 65536) by (reflexivity || lia).
  replace (u0 + 256 * u1 + 65536 * u2) with (u0 + u1 * 256 + u2 * 65536) by lia.
  set (raw := u0 + u1 * 256 + u2 * 65536).
  assert (Hraw : 0 <= raw < 16777216) by (unfold raw; lia).
  change 0x00800000 with (2 ^ 23). rewrite land_pow2 by lia.
  change (Z.lnot 0x00FFFFFF) with (-1 * 16777216).
  destruct (Z.testbit raw 23).
  - change (0 <? 2 ^ 23) with true. cbv iota.
    rewrite (lor_disjoint raw (-1) 24 16777216) by (reflexivity || lia). lia.
  - reflexivity.
Qed.

Lemma sample24_spec b0 b1 b2 :
  sample24 b0 b1 b2 =
  wrap_signed 24 (byte.unsigned b0 + 2 ^ 8 * byte.unsigned b1 + 2 ^ 16 * byte.unsigned b2).
Proof.
  rewrite sample24_sign_extension. cbv zeta.
  pose proof (byte.unsigned_range b0) as H0. pose proof (byte.unsigned_range b1) as H1.
  pose proof (byte.unsigned_range b2) as H2.
  set (raw := byte.unsigned b0 + 2 ^ 8 * byte.unsigned b1 + 2 ^ 16 * byte.unsigned b2).
  assert (Hraw : 0 <= raw < 2 ^ (23 + 1)) by (unfold raw; pow2; change (2 ^ (23 + 1)) with 16777216; lia).
  rewrite (testbit_top raw 23) by lia.
  change (2 ^ (23 + 1)) with 16777216 in Hraw.
  destruct (Z.leb_spec (2 ^ 23) raw) as [H|H]; change (2 ^ 23) with 8388608 in H.
  - rewrite (wrap_signed_unique 24 raw (-1)) by (pow2; lia). pow2. lia.
  - rewrite (wrap_signed_id 24 raw) by (pow2; lia). reflexivity.
Qed.

Lemma sample24_range b0 b1 b2 : - 2 ^ 23 <= sample24 b0 b1 b2 < 2 ^ 23.
Proof. rewrite sample24_spec. apply (wrap_signed_range 24). lia. Qed.

(** ** Rounded integers and normalised samples *)

Lemma round24_pos n : 0 < n -> 0 < round24 n.
Proof.
  intros Hn. pose proof (round24_error n Hn) as H.
  destruct (Z.le_gt_cases (round24 n) 0) as [Hle|]; [|assumption].
  change (2 ^ 24) with 16777216 in H. lia.
Qed.

Lemma round_int_error v : 2 ^ 24 * Z.abs (round_int v - v) <= Z.abs v.
Proof.
  unfold round_int. destruct (Z.lt_trichotomy v 0) as [H|[->|H]].
  - pose proof (round24_error (Z.abs v) ltac:(lia)).
    rewrite Z.sgn_neg by assumption.
    replace (Z.abs (-1 * round24 (Z.abs v) - v)) with (Z.abs (round24 (Z.abs v) - Z.abs v)) by lia.
    assumption.
  - cbn. lia.
  - pose proof (round24_error (Z.abs v) ltac:(lia)).
    rewrite Z.sgn_pos by assumption.
    replace (Z.abs (1 * round24 (Z.abs v) - v)) with (Z.abs (round24 (Z.abs v) - Z.abs v)) by lia.
    assumption.
Qed.

Lemma round_int_small v : Z.abs v < 2 ^ 24 -> round_int v = v.
Proof.
  intros H. unfold round_int. destruct (Z.eq_dec v 0) as [->|Hv]; [reflexivity|].
  rewrite round24_small by lia. lia.
Qed.

Lemma normalized_sample v j :
  Z.abs v <= 2 ^ (j + 23) -> -23 <= j <= 17 ->
  let f := F32.div (F32.of_int v) (S754_finite false 8388608 j) in
  F32.is_finite f = true /\
  (F32.to_Q f == inject_Z (round_int v) / inject_Z (2 ^ (j + 23)))%Q /\
  F32.leb F32.minus_one f = true /\
  F32.leb f F32.one = true /\
  (round_int v < 2 ^ (j + 23) -> F32.ltb f F32.one = true) /\
  (round_int v = 2 ^ (j + 23) -> f = F32.one).
Proof.
  intros Hv Hj f. subst f.
  assert (HK : 0 < 2 ^ (j + 23)) by (apply Z.pow_pos_nonneg; lia).
  destruct (Z.eq_dec v 0) as [->|Hv0].
  { rewrite div_zero_pow2. change (round_int 0) with 0.
    repeat split; try reflexivity; lia. }
  assert (Hb : Z.abs v <= 2 ^ 40).
  { etransitivity; [exact Hv|]. apply Z.pow_le_mono_r; lia. }
  destruct (div_of_int_pow2 v j Hv0 Hb ltac:(lia)) as (m & e & -> & Hm & Hea & HR).
  replace (e + j + 46) with (e + (j + 46)) in Hea, HR by lia.
  pose proof (round24_le_pow2 (Z.abs v) (j + 23) ltac:(lia) ltac:(lia)) as Hle.
  pose proof (round24_pos (Z.abs v) ltac:(lia)) as Hpos.
  replace (j + 23) with (j + 46 - 23) in Hle |- * by lia.
  assert (Hri : round_int v = cond_Zopp (v <? 0) (round24 (Z.abs v))).
  { unfold round_int. destruct (Z.ltb_spec v 0); cbn [cond_Zopp].
    - rewrite Z.sgn_neg by lia. lia.
    - rewrite Z.sgn_pos by lia. lia. }
  repeat split.
  - rewrite Hri. apply normalized_to_Q; [lia | lia | exact HR].
  - apply (normalized_minus_one_leb _ m e (j + 46) (round24 (Z.abs v))); auto; lia.
  - apply (normalized_leb_one _ m e (j + 46) (round24 (Z.abs v))); auto; lia.
  - intros Hlt. apply (normalized_ltb_one _ m e (j + 46) (round24 (Z.abs v))); auto; try lia.
    rewrite Hri in Hlt. destruct (v <? 0); [left; reflexivity | right; exact Hlt].
  - intros Heq. apply (normalized_one _ m e (j + 46) (round24 (Z.abs v))); auto; try lia.
    + rewrite Hri in Heq. destruct (v <? 0); [cbn [cond_Zopp] in Heq; lia | reflexivity].
    + rewrite Hri in Heq. destruct (v <? 0); cbn [cond_Zopp] in Heq; lia.
Qed.

Lemma Q_tolerance (r v M : Z) :
  0 < M -> 2 ^ 24 * Z.abs (r - v) <= Z.abs v ->
  (Qabs (inject_Z r / inject_Z M - inject_Z v / inject_Z M)
   <= (1 # 16777216) * Qabs (inject_Z v / inject_Z M))%Q.
Proof.
  intros HM H.
  assert (E : (inject_Z r / inject_Z M - inject_Z v / inject_Z M
               == inject_Z (r - v) * / inject_Z M)%Q).
  { unfold Z.sub. rewrite inject_Z_plus, inject_Z_opp. unfold Qdiv, Qminus. ring. }
  rewrite E. unfold Qdiv. rewrite !Qabs_Qmult.
  rewrite Qmult_assoc. apply Qmult_le_compat_r; [|apply Qabs_nonneg].
  change (2 ^ 24) with 16777216 in H.
  unfold Qle, Qabs, Qmult, inject_Z. cbn [Qnum Qden]. lia.
Qed.

(** ** The conversion loops *)

Section ForLoop.
Context {A : Type}.
Variables (f : nat -> A) (body : nat -> list A -> option (list A)) (n : nat).
Hypothesis body_stores :
  forall i b, (i < n)%nat -> length b = n -> body i b = store b i (f i).

Lemma for_loop_store_from count i buf :
  (i + count = n)%nat -> length buf = n ->
  for_loop count i body buf = Some (take i buf ++ map f (seq i count)).
Proof.
  revert i buf. induction count as [|count IH]; intros i buf Hi Hlen.
  - cbn. rewrite take_ge by lia. now rewrite app_nil_r.
  - cbn [for_loop]. rewrite body_stores by lia. unfold store.
    destruct (decide (i < length buf)%nat) as [Hlt|]; [|lia].
    cbn [mbind option_bind].
    rewrite IH by (rewrite ?length_insert; lia).
    f_equal. cbn [seq map].
    rewrite (take_S_r _ i (f i)) by (apply list_lookup_insert_eq; lia).
    rewrite take_insert_ge by lia. now rewrite <- app_assoc.
Qed.

Lemma for_loop_store buf :
  length buf = n -> for_loop n 0 body buf = Some (map f (seq 0 n)).
Proof. intros H. now rewrite (for_loop_store_from n 0 buf). Qed.
End ForLoop.

Lemma startup_pool bs bd init pool :
  float32Pool (startup bs bd init) = Some pool -> Z.of_nat (pool_size pool) = bs ÷ 2.
Proof.
  unfold startup. destruct init as [stale|]; cbn; [|discriminate].
  unfold NewFloat32Pool. destruct (Z.ltb_spec 0 (bs ÷ 2)); [|discriminate].
  intros [= <-]. cbn. lia.
Qed.

Lemma startup_BufferSize bs bd init : BufferSize (startup bs bd init) = bs.
Proof. now destruct init. Qed.

Lemma startup_BitDepth bs bd init : BitDepth (startup bs bd init) = bd.
Proof. now destruct init. Qed.

Lemma frame_in_range (len k i j : nat) :
  (i < len / k)%nat -> (j < k)%nat -> (i * k + j < len)%nat.
Proof.
  intros Hi Hj. pose proof (Nat.Div0.mul_div_le len k). nia.
Qed.

Ltac lookup_some sample k i j :=
  let b := fresh "b" in let E := fresh "E" in
  destruct (lookup_lt_is_Some_2 sample (i * k + j)%nat) as [b E];
  [apply frame_in_range; [assumption | lia] | rewrite ?Nat.add_0_r in E; rewrite E].

Lemma convert16_frames bs bd init sample :
  convert16BitToFloat32 (startup bs bd init) sample =
  Some (map (frame16 sample) (seq 0 (length sample / 2))).
Proof.
  unfold convert16BitToFloat32. cbv zeta.
  apply for_loop_store.
  - intros i b Hi _. unfold frame16.
    lookup_some sample 2%nat i 0%nat. lookup_some sample 2%nat i 1%nat. reflexivity.
  - destruct (float32Pool (startup bs bd init)) as [pool|] eqn:E.
    + rewrite startup_BufferSize. apply startup_pool in E.
      destruct (Z.eqb_spec (Z.of_nat (length sample / 2)) (bs ÷ 2)) as [H|H].
      * unfold Float32Pool_Get. rewrite length_map, length_seq. lia.
      * apply length_replicate.
    + apply length_replicate.
Qed.

Lemma convert24_frames sample :
  convert24BitToFloat32 sample = Some (map (frame24 sample) (seq 0 (length sample / 3))).
Proof.
  unfold convert24BitToFloat32. cbv zeta.
  apply for_loop_store; [|apply length_replicate].
  intros i b Hi _. unfold frame24.
  lookup_some sample 3%nat i 0%nat. lookup_some sample 3%nat i 1%nat.
  lookup_some sample 3%nat i 2%nat. reflexivity.
Qed.

Lemma convert32_frames sample :
  convert32BitToFloat32 sample = Some (map (frame32 sample) (seq 0 (length sample / 4))).
Proof.
  unfold convert32BitToFloat32. cbv zeta.
  apply for_loop_store; [|apply length_replicate].
  intros i b Hi _. unfold frame32.
  lookup_some sample 4%nat i 0%nat. lookup_some sample 4%nat i 1%nat.
  lookup_some sample 4%nat i 2%nat. lookup_some sample 4%nat i 3%nat. reflexivity.
Qed.

(** ** One frame of each bit depth *)

Lemma round24_top n : 2 ^ 31 - 64 <= n < 2 ^ 31 -> round24 n = 2 ^ 31.
Proof.
  intros H. change (2 ^ 31) with 2147483648 in *.
  assert (Hl : Z.log2 n = 30).
  { apply Z.log2_unique; [lia|]. change (2 ^ 30) with 1073741824.
    change (2 ^ Z.succ 30) with 2147483648. lia. }
  unfold round24. rewrite Hl. cbn [Z.add Z.sub Z.ltb Z.compare Z.opp Z.pos_sub Pos.add
    Pos.succ Pos.pred_double Z.succ_double Z.pred_double Z.double].
  change (0 <? 30 + 1 - 24) with true. change (30 + 1 - 24) with 7. cbv iota.
  unfold rne_shift. change (2 ^ 7) with 128.
  assert (Hq : n / 128 = 16777215) by (symmetry; apply (Z.div_unique n 128 16777215 (n - 16777215 * 128)); lia).
  assert (Hr : n mod 128 = n - 16777215 * 128) by (symmetry; apply (Z.mod_unique n 128 16777215); lia).
  rewrite Hq, Hr. change (Z.even 16777215) with false.
  destruct (Z.compare_spec (2 * (n - 16777215 * 128)) 128); lia.
Qed.

Lemma round24_below_top n : 0 < n < 2 ^ 31 - 64 -> round24 n < 2 ^ 31.
Proof.
  intros H. change (2 ^ 31) with 2147483648 in *.
  destruct (Z.lt_ge_cases n (2 ^ 30)) as [Hlt|Hge].
  - pose proof (round24_le_pow2 n 30 ltac:(lia) ltac:(lia)) as Hle.
    change (2 ^ 30) with 1073741824 in *. lia.
  - change (2 ^ 30) with 1073741824 in *.
    assert (Hl : Z.log2 n = 30).
    { apply Z.log2_unique; [lia|]. change (2 ^ 30) with 1073741824.
      change (2 ^ Z.succ 30) with 2147483648. lia. }
    unfold round24. rewrite Hl.
    change (0 <? 30 + 1 - 24) with true. change (30 + 1 - 24) with 7. cbv iota.
    unfold rne_shift. change (2 ^ 7) with 128.
    pose proof (Z.div_mod n 128 ltac:(lia)) as Hdm.
    pose proof (Z.mod_pos_bound n 128 ltac:(lia)) as Hmb.
    destruct (Z.compare_spec (2 * (n mod 128)) 128); [destruct (Z.even (n / 128))| |]; lia.
Qed.

Lemma pow2_float_16 : F32.of_int 32768 = S754_finite false 8388608 (-8).
Proof. reflexivity. Qed.
Lemma pow2_float_24 : F32.of_int 8388608 = S754_finite false 8388608 0.
Proof. reflexivity. Qed.
Lemma pow2_float_32 : F32.of_int 2147483648 = S754_finite false 8388608 8.
Proof. reflexivity. Qed.

Lemma normalize16_props b0 b1 :
  F32.is_finite (normalize16 b0 b1) = true /\
  (F32.to_Q (normalize16 b0 b1) == ideal 16 (sample16 b0 b1))%Q /\
  F32.leb F32.minus_one (normalize16 b0 b1) = true /\
  F32.ltb (normalize16 b0 b1) F32.one = true.
Proof.
  unfold normalize16. rewrite pow2_float_16.
  pose proof (sample16_range b0 b1) as Hr.
  change (2 ^ 15) with 32768 in Hr.
  destruct (normalized_sample (sample16 b0 b1) (-8)) as (Hf & Hq & Hlo & _ & Hlt & _);
    [change (2 ^ (-8 + 23)) with 32768; lia | lia |].
  rewrite round_int_small in Hq, Hlt by (change (2 ^ 24) with 16777216; lia).
  repeat split; try assumption. apply Hlt. change (2 ^ (-8 + 23)) with 32768. lia.
Qed.

Lemma normalize24_props b0 b1 b2 :
  F32.is_finite (normalize24 b0 b1 b2) = true /\
  (F32.to_Q (normalize24 b0 b1 b2) == ideal 24 (sample24 b0 b1 b2))%Q /\
  F32.leb F32.minus_one (normalize24 b0 b1 b2) = true /\
  F32.ltb (normalize24 b0 b1 b2) F32.one = true.
Proof.
  unfold normalize24. rewrite pow2_float_24.
  pose proof (sample24_range b0 b1 b2) as Hr.
  change (2 ^ 23) with 8388608 in Hr.
  destruct (normalized_sample (sample24 b0 b1 b2) 0) as (Hf & Hq & Hlo & _ & Hlt & _);
    [change (2 ^ (0 + 23)) with 8388608; lia | lia |].
  rewrite round_int_small in Hq, Hlt by (change (2 ^ 24) with 16777216; lia).
  repeat split; try assumption. apply Hlt. change (2 ^ (0 + 23)) with 8388608. lia.
Qed.

Lemma normalize32_props b0 b1 b2 b3 :
  F32.is_finite (normalize32 b0 b1 b2 b3) = true /\
  (F32.to_Q (normalize32 b0 b1 b2 b3) ==
   inject_Z (round_int (sample32 b0 b1 b2 b3)) / inject_Z (maxMagnitude 32))%Q /\
  F32.leb F32.minus_one (normalize32 b0 b1 b2 b3) = true /\
  F32.leb (normalize32 b0 b1 b2 b3) F32.one = true /\
  F32.ltb (normalize32 b0 b1 b2 b3) F32.one = (sample32 b0 b1 b2 b3 <? 2 ^ 31 - 64).
Proof.
  unfold normalize32. rewrite pow2_float_32.
  pose proof (sample32_range b0 b1 b2 b3) as Hr.
  set (v := sample32 b0 b1 b2 b3) in *.
  change (2 ^ 31) with 2147483648 in *.
  destruct (normalized_sample v 8) as (Hf & Hq & Hlo & Hhi & Hlt & Hone);
    [change (2 ^ (8 + 23)) with 2147483648; lia | lia |].
  change (2 ^ (8 + 23)) with 2147483648 in *.
  repeat split; try assumption.
  destruct (Z.ltb_spec v (2147483648 - 64)) as [H|H].
  - apply Hlt. unfold round_int. destruct (Z.lt_trichotomy v 0) as [Hn|[->|Hp]].
    + rewrite Z.sgn_neg by lia. pose proof (round24_pos (Z.abs v) ltac:(lia)). lia.
    + cbn. lia.
    + rewrite Z.sgn_pos, Z.abs_eq by lia.
      pose proof (round24_below_top v). change (2 ^ 31) with 2147483648 in *. lia.
  - rewrite Hone; [reflexivity|].
    unfold round_int. rewrite Z.sgn_pos, Z.abs_eq by lia.
    rewrite round24_top by (change (2 ^ 31) with 2147483648; lia). reflexivity.
Qed.

(** ** [ConvertToFloat32] as a whole *)

Lemma supported_cases d : supported d = true -> d = 16 \/ d = 24 \/ d = 32.
Proof. unfold supported. lia. Qed.

Lemma ConvertToFloat32_supported bs bd init sample d :
  supported d = true ->
  ConvertToFloat32 (startup bs bd init) sample d = Some (Some [converted d sample], None).
Proof.
  intros H. destruct (supported_cases d H) as [-> | [-> | ->]];
    unfold ConvertToFloat32, converted; cbn [Z.eqb Pos.eqb].
  - now rewrite convert16_frames.
  - now rewrite convert24_frames.
  - now rewrite convert32_frames.
Qed.

Lemma ConvertToFloat32_unsupported g sample d :
  supported d = false ->
  ConvertToFloat32 g sample d = Some (None, Some (unsupportedBitDepth d)).
Proof.
  unfold supported, ConvertToFloat32. intros H.
  destruct (d =? 16), (d =? 24), (d =? 32); try discriminate. reflexivity.
Qed.

Lemma length_converted d sample :
  length (converted d sample) = (length sample / bytesPerSample d)%nat.
Proof. unfold converted. now rewrite length_map, length_seq. Qed.

Lemma bytesPerSample_pos d : supported d = true -> (0 < bytesPerSample d)%nat.
Proof. intros H. destruct (supported_cases d H) as [-> | [-> | ->]]; vm_compute; lia. Qed.

Lemma frame_take d sample n i :
  supported d = true -> (i * bytesPerSample d + bytesPerSample d <= n)%nat ->
  frame d (take n sample) i = frame d sample i.
Proof.
  intros H Hi. destruct (supported_cases d H) as [-> | [-> | ->]];
    [change (bytesPerSample 16) with 2%nat in Hi
    |change (bytesPerSample 24) with 3%nat in Hi
    |change (bytesPerSample 32) with 4%nat in Hi];
    unfold frame; cbn [Z.eqb Pos.eqb];
    unfold frame16, frame24, frame32; rewrite !lookup_take_lt by lia; reflexivity.
Qed.

Lemma converted_take d sample :
  supported d = true ->
  converted d (take (bytesPerSample d * (length sample / bytesPerSample d)) sample) =
  converted d sample.
Proof.
  intros H. pose proof (bytesPerSample_pos d H) as Hp. unfold converted.
  set (k := bytesPerSample d) in *. set (n := (length sample / k)%nat).
  assert (Hle : (k * n <= length sample)%nat) by apply Nat.Div0.mul_div_le.
  rewrite length_take, Nat.min_l by exact Hle.
  rewrite (Nat.mul_comm k n), Nat.div_mul by lia.
  apply List.map_ext_in. intros i Hi. apply in_seq in Hi.
  apply frame_take; [exact H | fold k; nia].
Qed.

(** ** Encoding a sample and converting it back *)

Lemma wrap_signed_mod bits v :
  0 < bits -> - 2 ^ (bits - 1) <= v < 2 ^ (bits - 1) ->
  wrap_signed bits (v mod 2 ^ bits) = v.
Proof.
  intros Hb Hv. assert (H2 : 0 < 2 ^ bits) by (apply Z.pow_pos_nonneg; lia).
  rewrite (wrap_signed_unique bits _ (v / 2 ^ bits)) by
    (try assumption; pose proof (Z.div_mod v (2 ^ bits)); lia).
  pose proof (Z.div_mod v (2 ^ bits)). lia.
Qed.

Lemma unsigned_of_shiftr v n :
  0 <= n -> byte.unsigned (byte.of_Z (Z.shiftr v n)) = (v / 2 ^ n) mod 2 ^ 8.
Proof.
  intros Hn. rewrite byte.unsigned_of_Z. unfold byte.wrap.
  now rewrite Z.shiftr_div_pow2.
Qed.

Lemma le_bytes_2 v :
  v mod 2 ^ 8 + 2 ^ 8 * ((v / 2 ^ 8) mod 2 ^ 8) = v mod 2 ^ 16.
Proof. change (2 ^ 16) with (2 ^ 8 * 2 ^ 8). rewrite Z.rem_mul_r by lia. reflexivity. Qed.

Lemma le_bytes_3 v :
  v mod 2 ^ 8 + 2 ^ 8 * ((v / 2 ^ 8) mod 2 ^ 8) + 2 ^ 16 * ((v / 2 ^ 16) mod 2 ^ 8)
  = v mod 2 ^ 24.
Proof.
  rewrite le_bytes_2. change (2 ^ 24) with (2 ^ 16 * 2 ^ 8).
  rewrite (Z.rem_mul_r v (2 ^ 16) (2 ^ 8)) by lia. reflexivity.
Qed.

Lemma le_bytes_4 v :
  v mod 2 ^ 8 + 2 ^ 8 * ((v / 2 ^ 8) mod 2 ^ 8) + 2 ^ 16 * ((v / 2 ^ 16) mod 2 ^ 8)
  + 2 ^ 24 * ((v / 2 ^ 24) mod 2 ^ 8) = v mod 2 ^ 32.
Proof.
  rewrite le_bytes_3. change (2 ^ 32) with (2 ^ 24 * 2 ^ 8).
  rewrite (Z.rem_mul_r v (2 ^ 24) (2 ^ 8)) by lia. reflexivity.
Qed.

Lemma byte0 v : byte.unsigned (byte.of_Z (Z.shiftr v (8 * Z.of_nat 0))) = v mod 2 ^ 8.
Proof. rewrite unsigned_of_shiftr by lia. cbn [Z.of_nat Z.mul]. now rewrite Z.pow_0_r, Z.div_1_r. Qed.

Lemma sample16_encode v :
  - 2 ^ 15 <= v < 2 ^ 15 ->
  encode 16 v = [byte.of_Z (Z.shiftr v (8 * Z.of_nat 0)); byte.of_Z (Z.shiftr v (8 * Z.of_nat 1))] /\
  sample16 (byte.of_Z (Z.shiftr v (8 * Z.of_nat 0))) (byte.of_Z (Z.shiftr v (8 * Z.of_nat 1))) = v.
Proof.
  intros Hv. split; [reflexivity|].
  rewrite sample16_spec, byte0, unsigned_of_shiftr by lia.
  change (8 * Z.of_nat 1) with 8. rewrite le_bytes_2.
  apply wrap_signed_mod; [lia | exact Hv].
Qed.

Lemma sample24_encode v :
  - 2 ^ 23 <= v < 2 ^ 23 ->
  encode 24 v = [byte.of_Z (Z.shiftr v (8 * Z.of_nat 0)); byte.of_Z (Z.shiftr v (8 * Z.of_nat 1));
                 byte.of_Z (Z.shiftr v (8 * Z.of_nat 2))] /\
  sample24 (byte.of_Z (Z.shiftr v (8 * Z.of_nat 0))) (byte.of_Z (Z.shiftr v (8 * Z.of_nat 1)))
           (byte.of_Z (Z.shiftr v (8 * Z.of_nat 2))) = v.
Proof.
  intros Hv. split; [reflexivity|].
  rewrite sample24_spec, byte0, !unsigned_of_shiftr by lia.
  change (8 * Z.of_nat 1) with 8. change (8 * Z.of_nat 2) with 16. rewrite le_bytes_3.
  apply wrap_signed_mod; [lia | exact Hv].
Qed.

Lemma sample32_encode v :
  - 2 ^ 31 <= v < 2 ^ 31 ->
  encode 32 v = [byte.of_Z (Z.shiftr v (8 * Z.of_nat 0)); byte.of_Z (Z.shiftr v (8 * Z.of_nat 1));
                 byte.of_Z (Z.shiftr v (8 * Z.of_nat 2)); byte.of_Z (Z.shiftr v (8 * Z.of_nat 3))] /\
  sample32 (byte.of_Z (Z.shiftr v (8 * Z.of_nat 0))) (byte.of_Z (Z.shiftr v (8 * Z.of_nat 1)))
           (byte.of_Z (Z.shiftr v (8 * Z.of_nat 2))) (byte.of_Z (Z.shiftr v (8 * Z.of_nat 3))) = v.
Proof.
  intros Hv. split; [reflexivity|].
  rewrite sample32_spec, byte0, !unsigned_of_shiftr by lia.
  change (8 * Z.of_nat 1) with 8. change (8 * Z.of_nat 2) with 16.
  change (8 * Z.of_nat 3) with 24. rewrite le_bytes_4.
  apply wrap_signed_mod; [lia | exact Hv].
Qed.

(** The single frame of an encoded sample. *)
Lemma converted_encode d v :
  supported d = true -> - maxMagnitude d <= v < maxMagnitude d ->
  exists f, converted d (encode d v) = [f] /\
    F32.is_finite f = true /\
    (F32.to_Q f == inject_Z (round_int v) / inject_Z (maxMagnitude d))%Q /\
    (d <> 32 -> round_int v = v).
Proof.
  intros H Hv. destruct (supported_cases d H) as [-> | [-> | ->]].
  - change (maxMagnitude 16) with (2 ^ 15) in *.
    destruct (sample16_encode v Hv) as [He Hs].
    exists (normalize16 (byte.of_Z (Z.shiftr v (8 * Z.of_nat 0))) (byte.of_Z (Z.shiftr v (8 * Z.of_nat 1)))).
    destruct (normalize16_props (byte.of_Z (Z.shiftr v (8 * Z.of_nat 0))) (byte.of_Z (Z.shiftr v (8 * Z.of_nat 1))))
      as (Hf & Hq & _).
    assert (Hr : round_int v = v) by (apply round_int_small; change (2 ^ 15) with 32768 in Hv; change (2 ^ 24) with 16777216; lia).
    split; [|split; [|split]]; try assumption.
    + unfold converted. rewrite He. reflexivity.
    + rewrite Hq, Hs, Hr. reflexivity.
    + intros _. exact Hr.
  - change (maxMagnitude 24) with (2 ^ 23) in *.
    destruct (sample24_encode v Hv) as [He Hs].
    exists (normalize24 (byte.of_Z (Z.shiftr v (8 * Z.of_nat 0))) (byte.of_Z (Z.shiftr v (8 * Z.of_nat 1)))
                        (byte.of_Z (Z.shiftr v (8 * Z.of_nat 2)))).
    destruct (normalize24_props (byte.of_Z (Z.shiftr v (8 * Z.of_nat 0))) (byte.of_Z (Z.shiftr v (8 * Z.of_nat 1)))
                                (byte.of_Z (Z.shiftr v (8 * Z.of_nat 2))))
      as (Hf & Hq & _).
    assert (Hr : round_int v = v) by (apply round_int_small; change (2 ^ 23) with 8388608 in Hv; change (2 ^ 24) with 16777216; lia).
    split; [|split; [|split]]; try assumption.
    + unfold converted. rewrite He. reflexivity.
    + rewrite Hq, Hs, Hr. reflexivity.
    + intros _. exact Hr.
  - change (maxMagnitude 32) with (2 ^ 31) in *.
    destruct (sample32_encode v Hv) as [He Hs].
    exists (normalize32 (byte.of_Z (Z.shiftr v (8 * Z.of_nat 0))) (byte.of_Z (Z.shiftr v (8 * Z.of_nat 1)))
                        (byte.of_Z (Z.shiftr v (8 * Z.of_nat 2))) (byte.of_Z (Z.shiftr v (8 * Z.of_nat 3)))).
    destruct (normalize32_props (byte.of_Z (Z.shiftr v (8 * Z.of_nat 0))) (byte.of_Z (Z.shiftr v (8 * Z.of_nat 1)))
                                (byte.of_Z (Z.shiftr v (8 * Z.of_nat 2))) (byte.of_Z (Z.shiftr v (8 * Z.of_nat 3))))
      as (Hf & Hq & _).
    split; [|split; [|split]]; try assumption.
    + unfold converted. rewrite He. reflexivity.
    + rewrite Hq, Hs. reflexivity.
    + congruence.
Qed.

Lemma frame_in_bounds d sample i :
  supported d = true -> (i < length sample / bytesPerSample d)%nat ->
  (d = 16 /\ exists b0 b1, frame d sample i = normalize16 b0 b1) \/
  (d = 24 /\ exists b0 b1 b2, frame d sample i = normalize24 b0 b1 b2) \/
  (d = 32 /\ exists b0 b1 b2 b3, frame d sample i = normalize32 b0 b1 b2 b3).
Proof.
  intros H Hi. destruct (supported_cases d H) as [-> | [-> | ->]].
  - left. split; [reflexivity|]. change (bytesPerSample 16) with 2%nat in Hi.
    unfold frame; cbn [Z.eqb Pos.eqb]; unfold frame16.
    lookup_some sample 2%nat i 0%nat. lookup_some sample 2%nat i 1%nat. eauto.
  - right; left. split; [reflexivity|]. change (bytesPerSample 24) with 3%nat in Hi.
    unfold frame; cbn [Z.eqb Pos.eqb]; unfold frame24.
    lookup_some sample 3%nat i 0%nat. lookup_some sample 3%nat i 1%nat.
    lookup_some sample 3%nat i 2%nat. eauto.
  - right; right. split; [reflexivity|]. change (bytesPerSample 32) with 4%nat in Hi.
    unfold frame; cbn [Z.eqb Pos.eqb]; unfold frame32.
    lookup_some sample 4%nat i 0%nat. lookup_some sample 4%nat i 1%nat.
    lookup_some sample 4%nat i 2%nat. lookup_some sample 4%nat i 3%nat. eauto.
Qed.

Lemma elem_of_converted d sample f :
  f ∈ converted d sample ->
  exists i, (i < length sample / bytesPerSample d)%nat /\ f = frame d sample i.
Proof.
  unfold converted. intros H. apply list_elem_of_In, in_map_iff in H.
  destruct H as (i & <- & Hi). apply in_seq in Hi. exists i. split; [lia | reflexivity].
Qed.


(** ** The dispatch queue *)

Lemma sendResults_spec queue log msg :
  sendResults queue log msg =
  if decide (length (chan_buf queue) < chan_cap queue)%nat
  then Returns ({| chan_cap := chan_cap queue; chan_buf := chan_buf queue ++ [msg] |}, log)
  else Returns (queue, log ++ [LogQueueFull]).
Proof.
  unfold sendResults, select_send_default, chan_try_send.
  destruct (decide (length (chan_buf queue) < chan_cap queue)%nat); reflexivity.
Qed.

Lemma drops_app l1 l2 : drops (l1 ++ l2) = (drops l1 + drops l2)%nat.
Proof. unfold drops. now rewrite filter_app, length_app. Qed.

Lemma drops_replicate n : drops (replicate n LogQueueFull) = n.
Proof.
  unfold drops. induction n as [|n IH]; [reflexivity|].
  cbn [replicate]. rewrite filter_cons_True by reflexivity. cbn [length]. now rewrite IH.
Qed.

Lemma ProcessData_never_blocks predict settings elapsedTime w data startTime source :
  ProcessData predict settings elapsedTime w data startTime source <> Blocks.
Proof.
  unfold ProcessData. cbv zeta.
  destruct (ConvertToFloat32 _ _ _) as [[sampleData [err|]]|]; try discriminate.
  destruct (predict _) as [results [err|]]; try discriminate.
  rewrite sendResults_spec. destruct (decide _); discriminate.
Qed.


Lemma ltb_leb x y : F32.ltb x y = true -> F32.leb x y = true.
Proof.
  unfold F32.ltb, F32.leb, SFltb, SFleb.
  destruct (SFcompare x y) as [[]|]; congruence.
Qed.


(** ** The process monitor *)

Lemma known_pid_never_blocks value : known_pid value <> Blocks.
Proof. destruct value as [|c [[pid|]|]|c|c [| |[|pid|]|]|c|c]; discriminate. Qed.

Lemma tracked_nil : tracked [] no_known_processes.
Proof.
  split; cbn.
  - intros pid. rewrite lookup_empty. split; [set_solver | intros []; discriminate].
  - intros pid url. rewrite lookup_empty. discriminate.
  - intros url value pid H. inversion H.
Qed.

Lemma tracked_snoc l k k' entry :
  tracked l k -> track_pid k entry = Returns k' -> tracked (l ++ [entry]) k'.
Proof.
  intros [Hk He Ha] Ht. destruct entry as [url value]. unfold track_pid in Ht.
  destruct (known_pid value) as [[pid|]| |] eqn:Epid; try discriminate; injection Ht as <-.
  - split; cbn [knownPIDs pidToURL pidToProcess].
    + intros pid'. rewrite elem_of_union, elem_of_singleton, Hk.
      destruct (decide (pid' = pid)) as [->|Hne].
      * rewrite lookup_insert_eq. split; eauto.
      * rewrite lookup_insert_ne by congruence. tauto.
    + intros pid' url'. destruct (decide (pid' = pid)) as [->|Hne].
      * rewrite !lookup_insert_eq. intros [= <-]. exists value.
        split; [reflexivity|]. split; [|exact Epid].
        apply elem_of_app. right. apply list_elem_of_here.
      * rewrite !lookup_insert_ne by congruence. intros H.
        destruct (He _ _ H) as (v & Hv & Hin & Hp). exists v.
        split; [exact Hv|]. split; [|exact Hp]. apply elem_of_app. now left.
    + intros url' value' pid' Hin Hp. destruct (decide (pid' = pid)) as [->|Hne].
      * rewrite lookup_insert_eq. eauto.
      * rewrite lookup_insert_ne by congruence.
        apply elem_of_app in Hin as [Hin|Hin]; [eapply Ha; eauto|].
        apply list_elem_of_singleton in Hin. injection Hin as -> ->. congruence.
  - split.
    + exact Hk.
    + intros pid url' H. destruct (He _ _ H) as (v & Hv & Hin & Hp). exists v.
      split; [exact Hv|]. split; [|exact Hp]. apply elem_of_app. now left.
    + intros url' value' pid Hin Hp.
      apply elem_of_app in Hin as [Hin|Hin]; [eapply Ha; eauto|].
      apply list_elem_of_singleton in Hin. injection Hin as -> ->. congruence.
Qed.

Lemma tracked_ForEach l : forall l0 k k',
  tracked l0 k -> ForEach track_pid k l = Returns k' -> tracked (l0 ++ l) k'.
Proof.
  induction l as [|entry l IH]; intros l0 k k' Ht H; cbn [ForEach] in H.
  - injection H as <-. now rewrite app_nil_r.
  - destruct (track_pid k entry) as [k1| |] eqn:E; try discriminate.
    replace (l0 ++ entry :: l) with ((l0 ++ [entry]) ++ l) by now rewrite <- app_assoc.
    eapply IH; [|exact H]. eapply tracked_snoc; eauto.
Qed.

(** A traversal with [track_pid] either visits every entry, none of which
    makes the callback panic, or it panics on one of them. *)
Lemma ForEach_track_pid l : forall k,
  (Forall (fun entry => known_pid entry.2 <> Panics) l /\
   exists k', ForEach track_pid k l = Returns k') \/
  (Exists (fun entry => known_pid entry.2 = Panics) l /\
   ForEach track_pid k l = Panics).
Proof.
  induction l as [|[url value] l IH]; intros k.
  - left. split; [constructor|]. now exists k.
  - cbn [ForEach]. destruct (track_pid k (url, value)) as [k1| |] eqn:Et.
    + assert (Hv : known_pid value <> Panics).
      { intros E. unfold track_pid in Et. rewrite E in Et. discriminate. }
      destruct (IH k1) as [[Hall Hk]|[Hex Hp]].
      * left. split; [constructor; assumption | exact Hk].
      * right. split; [now apply Exists_cons_tl | exact Hp].
    + right. split; [|reflexivity]. apply Exists_cons_hd. cbn.
      unfold track_pid in Et. destruct (known_pid value) as [[pid|]| |]; congruence.
    + exfalso. unfold track_pid in Et.
      destruct (known_pid value) as [[pid|]| |] eqn:E; try discriminate.
      now apply known_pid_never_blocks in E.
Qed.

Lemma elem_of_flat_map {A B} (f : A -> list B) (l : list A) (y : B) :
  y ∈ flat_map f l <-> exists x, x ∈ l /\ y ∈ f x.
Proof.
  rewrite list_elem_of_In, in_flat_map. split; intros (x & Hx & Hy); exists x.
  - now rewrite !list_elem_of_In.
  - now rewrite <- !list_elem_of_In.
Qed.

Lemma elem_of_first_range it repo url value :
  (url, value) ∈ first_range it repo <-> repo !! url = Some value.
Proof. rewrite (first_range_perm it repo). apply elem_of_map_to_list. Qed.

Lemma elem_of_second_range it repo url value :
  (url, value) ∈ second_range it repo <-> repo !! url = Some value.
Proof. rewrite (second_range_perm it repo). apply elem_of_map_to_list. Qed.

Lemma elem_of_pid_range it (m : gmap Z string) pid url :
  (pid, url) ∈ pid_range it m <-> m !! pid = Some url.
Proof. rewrite (pid_range_perm it m). apply elem_of_map_to_list. Qed.

(** The second [ForEach] over the registry: it completes when no
    registered value makes the callback panic, and panics otherwise,
    whatever the order of the traversal. *)
Lemma second_ForEach it repo :
  ((forall url value, repo !! url = Some value -> known_pid value <> Panics) /\
   exists known,
     ForEach track_pid no_known_processes (second_range it repo) = Returns known /\
     tracked (second_range it repo) known) \/
  ((exists url value, repo !! url = Some value /\ known_pid value = Panics) /\
   ForEach track_pid no_known_processes (second_range it repo) = Panics).
Proof.
  destruct (ForEach_track_pid (second_range it repo) no_known_processes)
    as [[Hall [known Hk]]|[Hex Hp]].
  - left. split.
    + intros url value Hr. rewrite Forall_forall in Hall.
      apply (Hall (url, value)). now apply elem_of_second_range.
    + exists known. split; [exact Hk|]. exact (tracked_ForEach _ [] _ _ tracked_nil Hk).
  - right. split; [|exact Hp]. apply Exists_exists in Hex as ([url value] & Hin & Hp').
    exists url, value. split; [now apply elem_of_second_range in Hin | exact Hp'].
Qed.

Lemma checkProcesses_events it config pm repo :
  (checkProcesses it config pm repo).1 =
  flat_map
    (fun '(url, value) =>
       if implementsCleaner value then
         if bool_decide (url ∈ (list_to_set (GetConfiguredURLs config) : gset string)) then []
         else [EvLogOrphanedURL url; EvTelemetry "ffmpeg-orphaned-cleanup" url;
               EvCleanup value url]
       else [EvLogNotCleaner url; EvTelemetry "ffmpeg-interface-error" url])
    (first_range it repo) ++ (cleanupOrphanedProcesses it pm repo).1.
Proof.
  unfold checkProcesses. cbv zeta.
  destruct (cleanupOrphanedProcesses it pm repo) as [events [[err|]| |]]; reflexivity.
Qed.

(** How a pass ends: with the enumeration error wrapped twice, with a panic
    of the second [ForEach], or with nil. *)
Lemma checkProcesses_result it config pm repo :
  (checkProcesses it config pm repo).2 =
  match FindProcesses pm with
  | inr err =>
      Returns (Some (Wrapped "error cleaning up orphaned FFmpeg processes: %w" []
                       (Wrapped "error finding FFmpeg processes: %w" [] err)))
  | inl _ =>
      match ForEach track_pid no_known_processes (second_range it repo) with
      | Returns _ => Returns None
      | Panics => Panics
      | Blocks => Blocks
      end
  end.
Proof.
  unfold checkProcesses, cleanupOrphanedProcesses. cbv zeta.
  destruct (FindProcesses pm) as [processes|err]; [|reflexivity].
  destruct (ForEach track_pid _ _); reflexivity.
Qed.

(** A pass that panics has cleaned up the entries that are no longer
    configured and done nothing else. *)
Lemma cleanupOrphanedProcesses_panics it pm repo processes url value :
  FindProcesses pm = inl processes ->
  repo !! url = Some value -> known_pid value = Panics ->
  cleanupOrphanedProcesses it pm repo = ([], Panics).
Proof.
  intros Hf Hr Hp. unfold cleanupOrphanedProcesses. rewrite Hf. cbv zeta.
  destruct (second_ForEach it repo) as [[Hsafe _]|[_ ->]]; [|reflexivity].
  now apply Hsafe in Hr.
Qed.

(** Configuration drift: a registered cleaner whose URL is not configured
    is cleaned up. *)
Lemma drift_cleanup it config pm repo url value :
  repo !! url = Some value -> implementsCleaner value = true ->
  url ∉ GetConfiguredURLs config ->
  EvCleanup value url ∈ (checkProcesses it config pm repo).1.
Proof.
  intros Hr Hc Hn. rewrite checkProcesses_events. apply elem_of_app. left.
  apply elem_of_flat_map. exists (url, value). split.
  - now apply elem_of_first_range.
  - rewrite Hc. rewrite bool_decide_eq_false_2 by (rewrite elem_of_list_to_set; exact Hn).
    repeat constructor.
Qed.


(** Leaked processes. *)
Lemma orphan_terminated it pm repo processes proc :
  FindProcesses pm = inl processes ->
  (forall url value, repo !! url = Some value -> known_pid value <> Panics) ->
  proc ∈ processes ->
  (forall url value,
      repo !! url = Some value -> known_pid value <> Returns (Some (PID proc))) ->
  EvTerminate (PID proc) ∈ (cleanupOrphanedProcesses it pm repo).1.
Proof.
  intros Hf Hsafe Hin Hunknown. unfold cleanupOrphanedProcesses. rewrite Hf. cbv zeta.
  destruct (second_ForEach it repo) as [[_ (known & -> & [Hk He Ha])]|[(u & v & Hr' & Hp') _]];
    [|now apply Hsafe in Hr'].
  cbn [fst]. apply elem_of_app. right.
  apply elem_of_flat_map. exists proc. split; [exact Hin|].
  rewrite bool_decide_eq_false_2.
  - destruct (TerminateProcess pm (PID proc)); repeat constructor.
  - rewrite Hk. intros [url Hu]. destruct (He _ _ Hu) as (value & _ & Hin' & Hp).
    apply elem_of_second_range in Hin'.
    exact (Hunknown url value Hin' Hp).
Qed.

(** Every [Cleanup] of a pass has one of two causes: the receiver is a
    registered cleaner whose URL is not configured, or it is the registered
    cleaner recorded for a pid that the OS lists and that fails the probe. *)
Lemma cleanup_cause it config pm repo value url :
  EvCleanup value url ∈ (checkProcesses it config pm repo).1 ->
  repo !! url = Some value /\ implementsCleaner value = true /\
  ((url ∉ GetConfiguredURLs config) \/
   exists pid known,
     known_pid value = Returns (Some pid) /\ IsProcessRunning pm pid = false /\
     ForEach track_pid no_known_processes (second_range it repo) = Returns known /\
     pidToURL known !! pid = Some url).
Proof.
  rewrite checkProcesses_events. intros [H|H]%elem_of_app.
  - apply elem_of_flat_map in H as ([url' value'] & Hin & H).
    apply elem_of_first_range in Hin.
    destruct (implementsCleaner value') eqn:Hc.
    + destruct (bool_decide_reflect
                  (url' ∈ (list_to_set (GetConfiguredURLs config) : gset string))) as [Hcfg|Hcfg].
      * inversion H.
      * rewrite elem_of_list_to_set in Hcfg.
        apply list_elem_of_In in H. cbn in H.
        destruct H as [H|[H|[H|[]]]]; try discriminate. injection H as -> ->. auto.
    + apply list_elem_of_In in H. cbn in H. destruct H as [H|[H|[]]]; discriminate.
  - unfold cleanupOrphanedProcesses in H.
    destruct (FindProcesses pm) as [processes|err]; [|inversion H]. cbv zeta in H.
    destruct (second_ForEach it repo) as [[_ (known & Hknown & [Hk He Ha])]|[_ Hpanic]];
      [rewrite Hknown in H | rewrite Hpanic in H; inversion H].
    cbn [fst] in H.
    apply elem_of_app in H as [H|H].
    + apply elem_of_flat_map in H as ([pid url'] & Hin & H).
      apply elem_of_pid_range in Hin.
      destruct (He pid url' Hin) as (value' & Hv & Hin' & Hp).
      apply elem_of_second_range in Hin'.
      destruct (bool_decide _ && negb (IsProcessRunning pm pid)) eqn:Hcond; [|inversion H].
      apply andb_true_iff in Hcond as [_ Hdead]. apply negb_true_iff in Hdead.
      rewrite Hv in H. destruct (implementsCleaner value') eqn:Hc.
      * apply list_elem_of_In in H. cbn in H.
        destruct H as [H|[H|[]]]; try discriminate. injection H as -> ->.
        split; [exact Hin'|]. split; [exact Hc|]. right. exists pid, known. auto.
      * apply list_elem_of_In in H. cbn in H. destruct H as [H|[]]. discriminate.
    + apply elem_of_flat_map in H as (proc & _ & H).
      destruct (bool_decide _); [inversion H|].
      apply list_elem_of_In in H. cbn in H.
      destruct H as [H|[H|H]]; try discriminate.
      destruct (TerminateProcess pm (PID proc)); cbn in H; intuition discriminate.
Qed.

(** Two configured sources registered with one pid are never both cleaned
    up in one pass, whatever the order of the traversals. *)
Lemma one_cleanup_per_pid it config pm repo url1 value1 url2 value2 pid :
  url1 <> url2 ->
  url1 ∈ GetConfiguredURLs config -> url2 ∈ GetConfiguredURLs config ->
  known_pid value1 = Returns (Some pid) -> known_pid value2 = Returns (Some pid) ->
  ~ (EvCleanup value1 url1 ∈ (checkProcesses it config pm repo).1 /\
     EvCleanup value2 url2 ∈ (checkProcesses it config pm repo).1).
Proof.
  intros Hne Hc1 Hc2 Hp1 Hp2 [H1 H2].
  apply cleanup_cause in H1 as (_ & _ & [H1|(pid1 & k1 & Hq1 & _ & Hk1 & Hu1)]);
    [contradiction|].
  apply cleanup_cause in H2 as (_ & _ & [H2|(pid2 & k2 & Hq2 & _ & Hk2 & Hu2)]);
    [contradiction|].
  congruence.
Qed.

(** ** The process manager *)

Section ManagerProperties.
Import ffmpeg.

(** *** The registry *)

Lemma CreateProcess_config valid m cfg :
  managerConfig (CreateProcess valid m cfg).1 = managerConfig m.
Proof.
  unfold CreateProcess. destruct (processes m !! ID cfg); [reflexivity|].
  destruct (decide _); [|reflexivity]. destruct (valid cfg); reflexivity.
Qed.

Lemma CreateProcess_size valid m cfg :
  (size (processes m) <= MaxProcesses (managerConfig m))%nat ->
  (size (processes (CreateProcess valid m cfg).1) <= MaxProcesses (managerConfig m))%nat.
Proof.
  intros H. unfold CreateProcess. destruct (processes m !! ID cfg) eqn:E; [exact H|].
  destruct (decide _) as [Hlt|]; [|exact H]. destruct (valid cfg); [|exact H].
  cbn [fst processes]. rewrite map_size_insert_None by exact E. lia.
Qed.

Lemma RemoveProcess_config m id : managerConfig (RemoveProcess m id).1 = managerConfig m.
Proof. unfold RemoveProcess. destruct (processes m !! id); reflexivity. Qed.

Lemma RemoveProcess_size m id :
  (size (processes (RemoveProcess m id).1) <= size (processes m))%nat.
Proof.
  unfold RemoveProcess. destruct (processes m !! id) eqn:E; [|reflexivity].
  cbn [fst processes]. rewrite map_size_delete, E. lia.
Qed.

Lemma run_bounded valid ops : forall m,
  (size (processes m) <= MaxProcesses (managerConfig m))%nat ->
  managerConfig (run valid m ops) = managerConfig m /\
  (size (processes (run valid m ops)) <= MaxProcesses (managerConfig m))%nat.
Proof.
  induction ops as [|op ops IH]; intros m Hm; [split; [reflexivity | exact Hm]|].
  unfold run in *. cbn [foldl].
  assert (Hs : managerConfig (step valid m op) = managerConfig m /\
               (size (processes (step valid m op)) <= MaxProcesses (managerConfig m))%nat).
  { destruct op as [cfg|id]; cbn [step].
    - split; [apply CreateProcess_config | now apply CreateProcess_size].
    - split; [apply RemoveProcess_config|].
      pose proof (RemoveProcess_size m id). lia. }
  destruct Hs as [Hc Hs]. destruct (IH (step valid m op)) as [Hc' Hs'].
  - now rewrite Hc.
  - rewrite Hc in Hc', Hs'. split; assumption.
Qed.

Lemma CreateProcess_at_limit valid m cfg :
  (MaxProcesses (managerConfig m) <= size (processes m))%nat ->
  CreateProcess valid m cfg =
  (m, inr (match processes m !! ID cfg with
           | Some _ => DuplicateID
           | None => LimitExceeded
           end)).
Proof.
  intros H. unfold CreateProcess. destruct (processes m !! ID cfg); [reflexivity|].
  destruct (decide _); [lia | reflexivity].
Qed.

End ManagerProperties.

(** ** The restart policy *)

Lemma expected_delay_capped i : (5 <= i)%nat -> expected_delay i = 30 * second.
Proof.
  intros H. unfold expected_delay, second.
  assert (2 ^ 5 <= 2 ^ Z.of_nat i) by (apply Z.pow_le_mono_r; lia).
  change (2 ^ 5) with 32 in *. lia.
Qed.

Lemma backoff_expected maxRetries i :
  ffmpeg.backoff (backoff_policy maxRetries) (expected_delay i) = expected_delay (S i).
Proof.
  destruct (Nat.lt_ge_cases i 5) as [H|H].
  - do 5 (destruct i as [|i]; [vm_compute; reflexivity|]). lia.
  - rewrite !expected_delay_capped by lia. vm_compute. reflexivity.
Qed.

Lemma failures_schedule maxRetries n : forall i p,
  ffmpeg.restartPolicy p = backoff_policy maxRetries ->
  (Z.of_nat i < maxRetries ->
   ffmpeg.restartCount p = Z.of_nat i /\ ffmpeg.nextDelay p = expected_delay i) ->
  (maxRetries <= Z.of_nat i -> maxRetries <= ffmpeg.restartCount p) ->
  (ffmpeg.failures n p).2 = expected_schedule maxRetries i n.
Proof.
  induction n as [|n IH]; intros i p Hpol Hlt Hge; [reflexivity|].
  cbn [ffmpeg.failures]. unfold expected_schedule. cbn [seq map].
  unfold ffmpeg.onUnexpectedExit. rewrite Hpol. cbn [ffmpeg.Enabled ffmpeg.MaxRetries backoff_policy andb].
  destruct (Z.ltb_spec (Z.of_nat i) maxRetries) as [Hi|Hi].
  - destruct (Hlt Hi) as [Hc Hd]. rewrite Hc.
    destruct (Z.ltb_spec (Z.of_nat i) maxRetries); [|lia].
    destruct (ffmpeg.failures n _) as [p'' rest] eqn:E. cbn [snd]. f_equal; [now rewrite Hd|].
    change rest with (p'', rest).2. rewrite <- E.
    apply IH; cbn [ffmpeg.restartPolicy ffmpeg.restartCount ffmpeg.nextDelay].
    + reflexivity.
    + intros _. split; [lia|]. rewrite Hd. apply backoff_expected.
    + lia.
  - specialize (Hge Hi).
    destruct (Z.ltb_spec (ffmpeg.restartCount p) maxRetries); [lia|].
    destruct (ffmpeg.failures n _) as [p'' rest] eqn:E. cbn [snd]. f_equal.
    change rest with (p'', rest).2. rewrite <- E.
    apply IH; cbn [ffmpeg.restartPolicy ffmpeg.restartCount ffmpeg.nextDelay].
    + reflexivity.
    + lia.
    + intros _. exact Hge.
Qed.


(** ** [ProcessData] hands every finished window to [sendResults] *)

Lemma ProcessData_sends predict settings elapsedTime w data startTime source
    sampleData results :
  ConvertToFloat32 (globals w) data (BitDepth (globals w)) = Some (Some sampleData, None) ->
  predict sampleData = (results, None) ->
  exists w' l,
    ProcessData predict settings elapsedTime w data startTime source = Returns (w', None) /\
    sendResults (ResultsQueue w) l
      {| birdnet.StartTime := startTime; birdnet.ElapsedTime := elapsedTime;
         birdnet.PCMdata := data; birdnet.Results' := results;
         birdnet.Source := source |} = Returns (ResultsQueue w', log w').
Proof.
  intros Hc Hp. unfold ProcessData. cbv zeta. rewrite Hc.
  change (default [] (Some sampleData)) with sampleData. rewrite Hp.
  match goal with |- context [sendResults ?q ?l ?m] => destruct (sendResults q l m) as [[q' l']| |] eqn:E end.
  - eexists _, _. split; [reflexivity|]. exact E.
  - rewrite sendResults_spec in E. destruct (decide _); discriminate.
  - rewrite sendResults_spec in E. destruct (decide _); discriminate.
Qed.

Lemma lookup_converted d sample i :
  (i < length sample / bytesPerSample d)%nat ->
  converted d sample !! i = Some (frame d sample i).
Proof.
  intros Hi. unfold converted. rewrite list_lookup_fmap.
  rewrite lookup_seq_lt by exact Hi. reflexivity.
Qed.

(** The frame at index [i] is read from the bytes
    [i * bytesPerSample .. (i + 1) * bytesPerSample - 1] alone. *)
Lemma frame_window d sample i :
  supported d = true ->
  frame d (take (bytesPerSample d) (drop (i * bytesPerSample d) sample)) 0 =
  frame d sample i.
Proof.
  intros H.
  assert (Hl : forall k j, (j < k)%nat ->
             take k (drop (i * k) sample) !! j = sample !! (i * k + j)%nat).
  { intros k j Hj. rewrite lookup_take_lt by exact Hj. apply lookup_drop. }
  destruct (supported_cases d H) as [-> | [-> | ->]].
  - change (bytesPerSample 16) with 2%nat. unfold frame. cbn [Z.eqb Pos.eqb].
    unfold frame16. change (0 * 2)%nat with 0%nat. change (0 + 1)%nat with 1%nat.
    rewrite (Hl 2 0)%nat, (Hl 2 1)%nat by lia. now rewrite Nat.add_0_r.
  - change (bytesPerSample 24) with 3%nat. unfold frame. cbn [Z.eqb Pos.eqb].
    unfold frame24. change (0 * 3)%nat with 0%nat. change (0 + 1)%nat with 1%nat.
    change (0 + 2)%nat with 2%nat.
    rewrite (Hl 3 0)%nat, (Hl 3 1)%nat, (Hl 3 2)%nat by lia. now rewrite Nat.add_0_r.
  - change (bytesPerSample 32) with 4%nat. unfold frame. cbn [Z.eqb Pos.eqb].
    unfold frame32. change (0 * 4)%nat with 0%nat. change (0 + 1)%nat with 1%nat.
    change (0 + 2)%nat with 2%nat. change (0 + 3)%nat with 3%nat.
    rewrite (Hl 4 0)%nat, (Hl 4 1)%nat, (Hl 4 2)%nat, (Hl 4 3)%nat by lia.
    now rewrite Nat.add_0_r.
Qed.

Lemma drops_quiet l : Forall (fun e => is_queue_full e = false) l -> drops l = 0%nat.
Proof.
  unfold drops. induction 1 as [|e l He _ IH]; [reflexivity|].
  rewrite filter_cons_False by congruence. exact IH.
Qed.

Lemma drops_debug_log results : drops (debug_log results) = 0%nat.
Proof.
  apply drops_quiet. unfold debug_log. cbv zeta. destruct (existsb _ _); [|constructor].
  constructor; [reflexivity|]. apply Forall_forall. intros e He.
  apply list_elem_of_In, in_map_iff in He as (r & <- & _). reflexivity.
Qed.

(** What [ProcessData] adds to the log before the [select] statement
    records no drop. *)
Lemma drops_before_select (settings : Settings) results elapsedTime duration source log0 :
  drops (log0 ++ (if Debug settings then debug_log results else []) ++
         (if elapsedTime >? duration
          then [LogProcessingTime elapsedTime duration source] else [])) = drops log0.
Proof.
  rewrite !drops_app.
  replace (drops (if Debug settings then debug_log results else [])) with 0%nat
    by (destruct (Debug settings); [now rewrite drops_debug_log | reflexivity]).
  replace (drops (if elapsedTime >? duration
                  then [LogProcessingTime elapsedTime duration source] else [])) with 0%nat
    by (destruct (elapsedTime >? duration); reflexivity).
  lia.
Qed.

(** Returning a buffer leaves the globals in a state [InitFloat32Pool]
    could have produced. *)
Lemma ReturnFloat32Buffer_startup bs bd init buffer :
  exists init', ReturnFloat32Buffer (startup bs bd init) buffer = startup bs bd init'.
Proof.
  destruct init as [stale|]; [|now exists None].
  unfold startup, InitFloat32Pool, NewFloat32Pool, ReturnFloat32Buffer.
  cbn [BufferSize BitDepth float32Pool].
  destruct (Z.ltb_spec 0 (bs ÷ 2)) as [Hpos|Hpos].
  - cbn [float32Pool BufferSize BitDepth].
    destruct (Z.of_nat (length buffer) =? bs ÷ 2).
    + exists (Some (fun i => default (stale i) (buffer !! i))).
      destruct (Z.ltb_spec 0 (bs ÷ 2)); [reflexivity | lia].
    + exists (Some stale). destruct (Z.ltb_spec 0 (bs ÷ 2)); [reflexivity | lia].
  - exists (Some stale). cbn. destruct (Z.ltb_spec 0 (bs ÷ 2)); [lia | reflexivity].
Qed.

(** One enqueue attempt: when the conversion and the prediction succeed,
    [ProcessData] returns nil, and its [select] statement has appended the
    message at the tail of the queue if there was room, and otherwise has
    left the queue alone and logged one drop. *)
Lemma ProcessData_enqueue predict settings elapsedTime w data startTime source
    sampleData results :
  ConvertToFloat32 (globals w) data (BitDepth (globals w)) = Some (Some sampleData, None) ->
  predict sampleData = (results, None) ->
  exists w',
    ProcessData predict settings elapsedTime w data startTime source = Returns (w', None) /\
    chan_cap (ResultsQueue w') = chan_cap (ResultsQueue w) /\
    if decide (length (chan_buf (ResultsQueue w)) < chan_cap (ResultsQueue w))%nat
    then chan_buf (ResultsQueue w') =
           chan_buf (ResultsQueue w) ++
           [ {| birdnet.StartTime := startTime; birdnet.ElapsedTime := elapsedTime;
                birdnet.PCMdata := data; birdnet.Results' := results;
                birdnet.Source := source |} ] /\
         drops (log w') = drops (log w)
    else chan_buf (ResultsQueue w') = chan_buf (ResultsQueue w) /\
         drops (log w') = S (drops (log w)) /\
         last (log w') = Some LogQueueFull.
Proof.
  intros Hc Hp. unfold ProcessData. cbv zeta. rewrite Hc.
  change (default [] (Some sampleData)) with sampleData. rewrite Hp.
  rewrite sendResults_spec.
  destruct (decide (length (chan_buf (ResultsQueue w)) < chan_cap (ResultsQueue w))%nat).
  - eexists. split; [reflexivity|]. cbn [ResultsQueue log chan_cap chan_buf].
    split; [reflexivity|]. split; [reflexivity|]. apply drops_before_select.
  - eexists. split; [reflexivity|]. cbn [ResultsQueue log].
    split; [reflexivity|]. split; [reflexivity|]. split; [|apply last_snoc].
    rewrite drops_app, drops_before_select.
    change (drops [LogQueueFull]) with 1%nat. lia.
Qed.

(** The same for a window at a supported bit depth, with the globals in a
    state the program can be in: the state after the call is such a state
    again. *)
Lemma ProcessData_window predict settings bs bd init w window :
  supported bd = true ->
  (predict [converted bd (window_data window)]).2 = None ->
  globals w = startup bs bd init ->
  exists w' init',
    ProcessData predict settings (window_elapsedTime window) w (window_data window)
      (window_startTime window) (window_source window) = Returns (w', None) /\
    globals w' = startup bs bd init' /\
    chan_cap (ResultsQueue w') = chan_cap (ResultsQueue w) /\
    if decide (length (chan_buf (ResultsQueue w)) < chan_cap (ResultsQueue w))%nat
    then chan_buf (ResultsQueue w') =
           chan_buf (ResultsQueue w) ++ [window_message predict bd window] /\
         drops (log w') = drops (log w)
    else chan_buf (ResultsQueue w') = chan_buf (ResultsQueue w) /\
         drops (log w') = S (drops (log w)).
Proof.
  intros Hd Hpred Hg.
  assert (Hc : ConvertToFloat32 (globals w) (window_data window) (BitDepth (globals w)) =
               Some (Some [converted bd (window_data window)], None)).
  { rewrite Hg, startup_BitDepth. now apply ConvertToFloat32_supported. }
  destruct (predict [converted bd (window_data window)]) as [results err] eqn:Ep.
  cbn in Hpred. subst err.
  destruct (ProcessData_enqueue predict settings (window_elapsedTime window) w
              (window_data window) (window_startTime window) (window_source window)
              _ results Hc Ep) as (w' & Hrun & Hcap & Hq).
  assert (Hglobals : exists init', globals w' = startup bs bd init').
  { clear Hcap Hq. revert Hrun. unfold ProcessData. cbv zeta. rewrite Hc.
    change (default [] (Some [converted bd (window_data window)]))
      with [converted bd (window_data window)]. rewrite Ep. rewrite sendResults_spec.
    destruct (decide _); intros [= <-]; cbn [globals];
      (destruct ((BitDepth (globals w) =? 16) && _);
       [rewrite Hg; apply ReturnFloat32Buffer_startup | rewrite Hg; eauto]). }
  destruct Hglobals as [init' Hg']. exists w', init'.
  split; [exact Hrun|]. split; [exact Hg'|]. split; [exact Hcap|].
  unfold window_message. rewrite Ep. cbn [fst].
  destruct (decide _); [exact Hq | split; apply Hq].
Qed.

(** Processing windows fills the free capacity of the queue in arrival
    order and drops (and logs) the result of every later window. *)
Lemma ProcessWindows_spec predict settings bs bd windows : forall w init,
  supported bd = true ->
  (forall sampleData, (predict sampleData).2 = None) ->
  globals w = startup bs bd init ->
  (length (chan_buf (ResultsQueue w)) <= chan_cap (ResultsQueue w))%nat ->
  exists w',
    ProcessWindows predict settings w windows =
      Returns (w', replicate (length windows) None) /\
    chan_cap (ResultsQueue w') = chan_cap (ResultsQueue w) /\
    chan_buf (ResultsQueue w') =
      chan_buf (ResultsQueue w) ++
      map (window_message predict bd)
          (take (chan_cap (ResultsQueue w) - length (chan_buf (ResultsQueue w))) windows) /\
    drops (log w') =
      (drops (log w) +
       (length windows - (chan_cap (ResultsQueue w) - length (chan_buf (ResultsQueue w)))))%nat.
Proof.
  induction windows as [|window rest IH]; intros w init Hd Hpred Hg Hle.
  - exists w. cbn. rewrite take_nil. cbn. rewrite app_nil_r. repeat split; lia.
  - destruct (ProcessData_window predict settings bs bd init w window Hd (Hpred _) Hg)
      as (w1 & init1 & Hrun & Hg1 & Hcap & Hq).
    cbn [ProcessWindows]. rewrite Hrun.
    destruct (decide (length (chan_buf (ResultsQueue w)) < chan_cap (ResultsQueue w))%nat)
      as [Hlt|Hge].
    + destruct Hq as [Hbuf Hdrops].
      destruct (IH w1 init1 Hd Hpred Hg1) as (w' & Hrest & Hcap' & Hbuf' & Hdrops').
      { rewrite Hcap, Hbuf, length_app. cbn. lia. }
      exists w'. rewrite Hrest. split; [reflexivity|]. split; [congruence|].
      rewrite Hbuf', Hdrops', Hcap, Hbuf, Hdrops, length_app. cbn [length].
      replace (chan_cap (ResultsQueue w) - length (chan_buf (ResultsQueue w)))%nat
        with (S (chan_cap (ResultsQueue w) - (length (chan_buf (ResultsQueue w)) + 1)))%nat
        by lia.
      cbn [take map]. rewrite <- app_assoc. cbn [app]. split; [reflexivity|]. lia.
    + destruct Hq as [Hbuf Hdrops].
      destruct (IH w1 init1 Hd Hpred Hg1) as (w' & Hrest & Hcap' & Hbuf' & Hdrops').
      { rewrite Hcap, Hbuf. lia. }
      exists w'. rewrite Hrest. split; [reflexivity|]. split; [congruence|].
      rewrite Hbuf', Hdrops', Hcap, Hbuf, Hdrops.
      replace (chan_cap (ResultsQueue w) - length (chan_buf (ResultsQueue w)))%nat
        with 0%nat by lia.
      rewrite !take_0. cbn [length]. split; [reflexivity|]. lia.
Qed.

(* ===================================================================== *)
(** * Part III: the specification's claims                                *)
(* ===================================================================== *)

(** ** Dispatch queue *)

(** C1: enqueueing a finished result never blocks.  [ProcessData] never
    blocks.  At every enqueue attempt, that is whenever the conversion and
    the prediction of a call succeed, the [select] statement of
    [ProcessData] appends the message built from the call's start time,
    bytes, source and results at the tail of the queue when there is free
    capacity, and otherwise leaves the queue as it is, drops the new message
    and logs the drop; the call returns nil either way.  And 150 windows
    processed by [ProcessData] with an empty queue of capacity 100, while
    nothing receives from it, leave exactly the messages of the first 100
    windows in the queue, in order, with 50 drops logged. *)
Theorem enqueue_never_blocks_drops_newest :
  (forall predict settings elapsedTime w data startTime source,
      ProcessData predict settings elapsedTime w data startTime source <> Blocks) /\
  (forall predict settings elapsedTime w data startTime source sampleData results,
      ConvertToFloat32 (globals w) data (BitDepth (globals w)) =
        Some (Some sampleData, None) ->
      predict sampleData = (results, None) ->
      exists w',
        ProcessData predict settings elapsedTime w data startTime source =
          Returns (w', None) /\
        chan_cap (ResultsQueue w') = chan_cap (ResultsQueue w) /\
        if decide (length (chan_buf (ResultsQueue w)) < chan_cap (ResultsQueue w))%nat
        then chan_buf (ResultsQueue w') =
               chan_buf (ResultsQueue w) ++
               [ {| birdnet.StartTime := startTime; birdnet.ElapsedTime := elapsedTime;
                    birdnet.PCMdata := data; birdnet.Results' := results;
                    birdnet.Source := source |} ] /\
             drops (log w') = drops (log w)
        else chan_buf (ResultsQueue w') = chan_buf (ResultsQueue w) /\
             drops (log w') = S (drops (log w)) /\
             last (log w') = Some LogQueueFull) /\
  (forall predict settings bs bd init w windows,
      supported bd = true ->
      (forall sampleData, (predict sampleData).2 = None) ->
      globals w = startup bs bd init ->
      ResultsQueue w = make_chan 100 ->
      length windows = 150%nat ->
      exists w',
        ProcessWindows predict settings w windows = Returns (w', replicate 150 None) /\
        chan_buf (ResultsQueue w') = map (window_message predict bd) (take 100 windows) /\
        length (chan_buf (ResultsQueue w')) = 100%nat /\
        drops (log w') = (drops (log w) + 50)%nat).
Proof.
  split; [exact ProcessData_never_blocks|]. split; [exact ProcessData_enqueue|].
  intros predict settings bs bd init w windows Hd Hpred Hg Hq Hlen.
  destruct (ProcessWindows_spec predict settings bs bd windows w init Hd Hpred Hg)
    as (w' & Hrun & _ & Hbuf & Hdrops).
  { rewrite Hq. cbn. lia. }
  rewrite Hq, Hlen in *. cbn [make_chan chan_cap chan_buf length app] in *.
  change (100 - 0)%nat with 100%nat in *. change (150 - 100)%nat with 50%nat in *.
  exists w'. split; [exact Hrun|]. split; [exact Hbuf|]. split; [|exact Hdrops].
  rewrite Hbuf, length_map, length_take. lia.
Qed.

(** ** Conversion to float32 *)

(** C2: for each supported bit depth and each sample value [v] of that
    depth, converting the little-endian two's-complement encoding of [v]
    yields one finite float whose value is within the float32 rounding
    tolerance (relative error at most 2^-24) of [v / maxMagnitude], and is
    exactly that quotient for 16 and 24 bits; and the 24-bit path sign-extends:
    three bytes whose raw value has bit 23 set convert to
    [(raw - 2^24) / 2^23]. *)
Theorem ConvertToFloat32_encode_roundtrip bs bd init d v :
  supported d = true ->
  - maxMagnitude d <= v < maxMagnitude d ->
  (exists f,
      ConvertToFloat32 (startup bs bd init) (encode d v) d = Some (Some [[f]], None) /\
      F32.is_finite f = true /\
      (Qabs (F32.to_Q f - ideal d v) <= (1 # 16777216) * Qabs (ideal d v))%Q /\
      (d <> 32 -> (F32.to_Q f == ideal d v)%Q)) /\
  (forall b0 b1 b2,
      let raw := byte.unsigned b0 + 2 ^ 8 * byte.unsigned b1 + 2 ^ 16 * byte.unsigned b2 in
      Z.testbit raw 23 = true ->
      exists f,
        ConvertToFloat32 (startup bs bd init) [b0; b1; b2] 24 = Some (Some [[f]], None) /\
        (F32.to_Q f == ideal 24 (raw - 2 ^ 24))%Q).
Proof.
  intros H Hv. split.
  - destruct (converted_encode d v H Hv) as (f & Hc & Hf & Hq & Hr).
    exists f. rewrite ConvertToFloat32_supported, Hc by exact H.
    split; [reflexivity|]. split; [exact Hf|]. split.
    + unfold ideal. rewrite Hq. apply Q_tolerance.
      * apply Z.pow_pos_nonneg; destruct (supported_cases d H) as [-> | [-> | ->]]; lia.
      * apply round_int_error.
    + intros Hd. rewrite Hq, (Hr Hd). reflexivity.
  - intros b0 b1 b2 raw Hbit. exists (normalize24 b0 b1 b2).
    rewrite ConvertToFloat32_supported by reflexivity. split; [reflexivity|].
    destruct (normalize24_props b0 b1 b2) as (_ & Hq & _).
    rewrite Hq. pose proof (sample24_sign_extension b0 b1 b2) as Hs. cbv zeta in Hs.
    fold raw in Hs. rewrite Hbit in Hs. rewrite Hs. reflexivity.
Qed.

(** The 24-bit sample -5, encoded as [fb ff ff]. *)
Lemma ConvertToFloat32_encode_roundtrip_witness :
  supported 24 = true /\
  - maxMagnitude 24 <= -5 < maxMagnitude 24 /\
  exists f,
    ConvertToFloat32 (startup 6 24 None) (encode 24 (-5)) 24 = Some (Some [[f]], None) /\
    F32.is_finite f = true /\
    (Qabs (F32.to_Q f - ideal 24 (-5)) <= (1 # 16777216) * Qabs (ideal 24 (-5)))%Q /\
    (24 <> 32 -> (F32.to_Q f == ideal 24 (-5))%Q).
Proof.
  assert (Hs : supported 24 = true) by reflexivity.
  assert (Hr : - maxMagnitude 24 <= -5 < maxMagnitude 24) by (vm_compute; split; congruence).
  split; [exact Hs|]. split; [exact Hr|].
  exact (proj1 (ConvertToFloat32_encode_roundtrip 6 24 None 24 (-5) Hs Hr)).
Defined.

(** C3: [ConvertToFloat32] succeeds exactly for the bit depths 16, 24 and
    32; for any other depth it returns the nil slice together with a
    validation error, and [ProcessData] then returns that error for this
    window while the queue, the log and the globals stay as they were, so the
    failure touches no other window. *)
Theorem ConvertToFloat32_supports_exactly bs bd init sample d :
  (supported d = true <->
   exists out, ConvertToFloat32 (startup bs bd init) sample d = Some (Some [out], None)) /\
  (supported d = false ->
   ConvertToFloat32 (startup bs bd init) sample d = Some (None, Some (unsupportedBitDepth d)) /\
   category_of (unsupportedBitDepth d) = Some CategoryValidation) /\
  (forall predict settings elapsedTime (w : World) data startTime source,
      supported (BitDepth (globals w)) = false ->
      ProcessData predict settings elapsedTime w data startTime source =
        Returns (w, Some (Wrapped "error converting %v bit PCM data to float32: %w"
                            [BitDepth (globals w)]
                            (unsupportedBitDepth (BitDepth (globals w)))))).
Proof.
  split; [split|split].
  - intros H. eexists. apply ConvertToFloat32_supported. exact H.
  - intros [out Ho]. destruct (supported d) eqn:E; [reflexivity|].
    rewrite ConvertToFloat32_unsupported in Ho by exact E. discriminate.
  - intros H. split; [now apply ConvertToFloat32_unsupported | reflexivity].
  - intros predict settings elapsedTime w data startTime source H.
    unfold ProcessData. cbv zeta. rewrite ConvertToFloat32_unsupported by exact H.
    reflexivity.
Qed.

(** An 8-bit depth is rejected. *)
Lemma ConvertToFloat32_supports_exactly_witness :
  supported 8 = false /\
  ConvertToFloat32 (startup 6 8 None) [Byte.x01; Byte.x02] 8 =
    Some (None, Some (unsupportedBitDepth 8)) /\
  category_of (unsupportedBitDepth 8) = Some CategoryValidation.
Proof.
  assert (H : supported 8 = false) by reflexivity.
  split; [exact H|].
  exact (proj1 (proj2 (ConvertToFloat32_supports_exactly 6 8 None [Byte.x01; Byte.x02] 8)) H).
Defined.

(** C5 does not hold as stated: the 32-bit sample [ff ff ff 7f], that is
    2147483647, is rounded to 2147483648 by the conversion to float32, so
    the path produces exactly 1.0, which is not below 1.0. *)
Lemma convert32_largest_sample_is_one :
  ConvertToFloat32 (startup 0 32 None) [Byte.xff; Byte.xff; Byte.xff; Byte.x7f] 32 =
    Some (Some [[F32.one]], None) /\
  sample32 Byte.xff Byte.xff Byte.xff Byte.x7f = 2147483647 /\
  F32.ltb F32.one F32.one = false.
Proof. vm_compute. repeat split. Qed.

(** C5, amended: for every input and every supported bit depth, every
    float the conversion produces lies in the closed interval [-1.0, 1.0];
    for the depths 16 and 24 it lies in the half-open interval [-1.0, 1.0). *)
Theorem ConvertToFloat32_range bs bd init sample d out f :
  supported d = true ->
  ConvertToFloat32 (startup bs bd init) sample d = Some (Some [out], None) ->
  f ∈ out ->
  F32.leb F32.minus_one f = true /\
  F32.leb f F32.one = true /\
  (d <> 32 -> F32.ltb f F32.one = true).
Proof.
  intros H Hc Hf. rewrite ConvertToFloat32_supported in Hc by exact H.
  injection Hc as <-.
  destruct (elem_of_converted d sample f Hf) as (i & Hi & ->).
  destruct (frame_in_bounds d sample i H Hi)
    as [(-> & b0 & b1 & ->) | [(-> & b0 & b1 & b2 & ->) | (-> & b0 & b1 & b2 & b3 & ->)]].
  - destruct (normalize16_props b0 b1) as (_ & _ & Hlo & Hlt).
    split; [exact Hlo|]. split; [apply ltb_leb; exact Hlt | intros _; exact Hlt].
  - destruct (normalize24_props b0 b1 b2) as (_ & _ & Hlo & Hlt).
    split; [exact Hlo|]. split; [apply ltb_leb; exact Hlt | intros _; exact Hlt].
  - destruct (normalize32_props b0 b1 b2 b3) as (_ & _ & Hlo & Hhi & _).
    split; [exact Hlo|]. split; [exact Hhi | congruence].
Qed.

(** The largest 32-bit sample lands on the upper end of the interval. *)
Lemma ConvertToFloat32_range_witness :
  supported 32 = true /\
  ConvertToFloat32 (startup 0 32 None) [Byte.xff; Byte.xff; Byte.xff; Byte.x7f] 32 =
    Some (Some [[F32.one]], None) /\
  F32.one ∈ [F32.one] /\
  F32.leb F32.minus_one F32.one = true /\
  F32.leb F32.one F32.one = true /\
  (32 <> 32 -> F32.ltb F32.one F32.one = true).
Proof.
  assert (H1 : supported 32 = true) by reflexivity.
  assert (H2 : ConvertToFloat32 (startup 0 32 None) [Byte.xff; Byte.xff; Byte.xff; Byte.x7f] 32 =
               Some (Some [[F32.one]], None)) by (vm_compute; reflexivity).
  assert (H3 : F32.one ∈ [F32.one]) by (apply list_elem_of_here).
  split; [exact H1|]. split; [exact H2|]. split; [exact H3|].
  exact (ConvertToFloat32_range 0 32 None _ 32 _ _ H1 H2 H3).
Defined.

(** C9: when the length of the input is not a multiple of the sample
    size, [ConvertToFloat32] still returns without a panic (every index it
    reads is in bounds) and converts exactly [len / bytesPerSample] samples:
    the sample at index [i] of the result is the conversion of the bytes
    [i * bytesPerSample .. (i + 1) * bytesPerSample - 1] of the input, for
    every [i] below [len / bytesPerSample]; the trailing remainder is not
    read, so the result is the same as on the input without it. *)
Theorem ConvertToFloat32_ignores_remainder bs bd init sample d :
  supported d = true ->
  (length sample mod bytesPerSample d <> 0)%nat ->
  exists out,
    ConvertToFloat32 (startup bs bd init) sample d = Some (Some [out], None) /\
    length out = (length sample / bytesPerSample d)%nat /\
    (forall i,
        (i < length sample / bytesPerSample d)%nat ->
        out !! i =
          Some (frame d (take (bytesPerSample d) (drop (i * bytesPerSample d) sample)) 0)) /\
    ConvertToFloat32 (startup bs bd init)
      (take (bytesPerSample d * (length sample / bytesPerSample d)) sample) d =
      Some (Some [out], None).
Proof.
  intros H _. exists (converted d sample).
  rewrite !ConvertToFloat32_supported by exact H.
  rewrite converted_take by exact H.
  split; [reflexivity|]. split; [apply length_converted|]. split; [|reflexivity].
  intros i Hi. rewrite lookup_converted by exact Hi. f_equal.
  symmetry. apply frame_window; assumption.
Qed.

(** Five bytes of 16-bit audio: two samples, the fifth byte is ignored. *)
Lemma ConvertToFloat32_ignores_remainder_witness :
  supported 16 = true /\
  (length [Byte.x01; Byte.x02; Byte.x03; Byte.x04; Byte.x05] mod bytesPerSample 16 <> 0)%nat /\
  exists out,
    ConvertToFloat32 (startup 6 16 None) [Byte.x01; Byte.x02; Byte.x03; Byte.x04; Byte.x05] 16 =
      Some (Some [out], None) /\
    length out =
      (length [Byte.x01; Byte.x02; Byte.x03; Byte.x04; Byte.x05] / bytesPerSample 16)%nat /\
    (forall i,
        (i < length [Byte.x01; Byte.x02; Byte.x03; Byte.x04; Byte.x05] / bytesPerSample 16)%nat ->
        out !! i =
          Some (frame 16
                  (take (bytesPerSample 16)
                     (drop (i * bytesPerSample 16)
                        [Byte.x01; Byte.x02; Byte.x03; Byte.x04; Byte.x05])) 0)) /\
    ConvertToFloat32 (startup 6 16 None)
      (take (bytesPerSample 16 *
             (length [Byte.x01; Byte.x02; Byte.x03; Byte.x04; Byte.x05] / bytesPerSample 16))
            [Byte.x01; Byte.x02; Byte.x03; Byte.x04; Byte.x05]) 16 =
      Some (Some [out], None).
Proof.
  assert (H1 : supported 16 = true) by reflexivity.
  assert (H2 : (length [Byte.x01; Byte.x02; Byte.x03; Byte.x04; Byte.x05]
                mod bytesPerSample 16 <> 0)%nat) by (vm_compute; congruence).
  split; [exact H1|]. split; [exact H2|].
  exact (ConvertToFloat32_ignores_remainder 6 16 None _ 16 H1 H2).
Defined.

(** C10: for every input and every supported bit depth the result is a
    slice of slices of outer length exactly 1: one channel, whatever the
    channel count of the source (which the function never sees). *)
Theorem ConvertToFloat32_single_channel bs bd init sample d :
  supported d = true ->
  exists samples,
    ConvertToFloat32 (startup bs bd init) sample d = Some (Some samples, None) /\
    length samples = 1%nat.
Proof.
  intros H. exists [converted d sample]. split; [|reflexivity].
  apply ConvertToFloat32_supported. exact H.
Qed.

(** Two stereo frames of 16-bit audio still give one channel. *)
Lemma ConvertToFloat32_single_channel_witness :
  supported 16 = true /\
  exists samples,
    ConvertToFloat32 (startup 6 16 None) [Byte.x01; Byte.x02; Byte.x03; Byte.x04] 16 =
      Some (Some samples, None) /\
    length samples = 1%nat.
Proof.
  assert (H : supported 16 = true) by reflexivity.
  split; [exact H|].
  exact (ConvertToFloat32_single_channel 6 16 None _ 16 H).
Defined.

(** ** Process monitor *)

(** Outside the invariant of the registry a pass does less.  In
    [shared_repo], "C" is registered and not configured, but its value has
    no [Cleanup] method, so none is invoked for it; and "A" and "B" are both
    registered with pid 42, which the OS lists and which fails the liveness
    probe, but the pass records one entry per pid and cleans up only one of
    the two. *)
Lemma checkProcesses_skips_cleanups :
  (shared_repo !! "C" = Some plain_C /\
   ("C" ∉ GetConfiguredURLs shared_config) /\
   (EvCleanup plain_C "C" ∉
      (checkProcesses canonical_iteration shared_config shared_pm shared_repo).1)) /\
  (shared_repo !! "A" = Some shared_A /\
   shared_repo !! "B" = Some shared_B /\
   known_pid shared_A = Returns (Some 42) /\
   known_pid shared_B = Returns (Some 42) /\
   FindProcesses shared_pm = inl [ {| PID := 42; Name := "ffmpeg" |} ] /\
   IsProcessRunning shared_pm 42 = false /\
   ~ (EvCleanup shared_A "A" ∈
        (checkProcesses canonical_iteration shared_config shared_pm shared_repo).1 /\
      EvCleanup shared_B "B" ∈
        (checkProcesses canonical_iteration shared_config shared_pm shared_repo).1)).
Proof.
  split; [split; [|split]
         | split; [reflexivity|]; split; [reflexivity|]; split; [reflexivity|];
           split; [reflexivity|]; split; [reflexivity|]; split; [reflexivity|]].
  - reflexivity.
  - rewrite list_elem_of_In. cbn. intros [H|[H|[]]]; discriminate.
  - intros H. apply cleanup_cause in H as (_ & H & _). discriminate.
  - apply (one_cleanup_per_pid _ _ _ _ "A" shared_A "B" shared_B 42);
      [discriminate | | | reflexivity | reflexivity];
      rewrite list_elem_of_In; cbn; auto.
Qed.




(** ** Process manager *)

(** The two checks of [CreateProcess] can both fail: with
    [MaxProcesses = 1] and "process-1" registered, a further [CreateProcess]
    for "process-1" meets a full registry and a registered id.  The design
    document does not say which error is returned then, and the test-suite
    only checks that there is one; on this model, which checks the id first,
    it is DuplicateID. *)
Lemma CreateProcess_duplicate_at_limit :
  size (ffmpeg.processes full_manager) = 1%nat /\
  ffmpeg.MaxProcesses (ffmpeg.managerConfig full_manager) = 1%nat /\
  ffmpeg.CreateProcess accept_all full_manager (test_config "process-1" "test1.wav") =
    (full_manager, inr ffmpeg.DuplicateID).
Proof. vm_compute. repeat split. Qed.

(** The limit of the registry, on the model of the manager: the registry
    never holds more than [MaxProcesses] entries, whatever is created and
    removed; and every [CreateProcess] call made while the registry is full
    fails and leaves it unchanged, with LimitExceeded when the id is not
    registered yet and with DuplicateID when it is. *)
Lemma CreateProcess_respects_limit valid :
  (forall cfg ops,
      (size (ffmpeg.processes (ffmpeg.run valid (ffmpeg.NewManager cfg) ops))
       <= ffmpeg.MaxProcesses cfg)%nat) /\
  (forall m cfg,
      (ffmpeg.MaxProcesses (ffmpeg.managerConfig m) <= size (ffmpeg.processes m))%nat ->
      ffmpeg.processes m !! ffmpeg.ID cfg = None ->
      ffmpeg.CreateProcess valid m cfg = (m, inr ffmpeg.LimitExceeded)) /\
  (forall m cfg,
      (ffmpeg.MaxProcesses (ffmpeg.managerConfig m) <= size (ffmpeg.processes m))%nat ->
      is_Some (ffmpeg.processes m !! ffmpeg.ID cfg) ->
      ffmpeg.CreateProcess valid m cfg = (m, inr ffmpeg.DuplicateID)).
Proof.
  split; [|split].
  - intros cfg ops.
    destruct (run_bounded valid ops (ffmpeg.NewManager cfg)) as [_ H]; [|exact H].
    cbn. rewrite map_size_empty. lia.
  - intros m cfg Hfull Hfresh. rewrite CreateProcess_at_limit by exact Hfull.
    now rewrite Hfresh.
  - intros m cfg Hfull [p Hp]. rewrite CreateProcess_at_limit by exact Hfull.
    now rewrite Hp.
Qed.

(** [TestManagerMaxProcessesLimit]: the second process is refused. *)
Lemma CreateProcess_respects_limit_witness :
  (ffmpeg.MaxProcesses (ffmpeg.managerConfig full_manager)
   <= size (ffmpeg.processes full_manager))%nat /\
  ffmpeg.processes full_manager !! ffmpeg.ID (test_config "process-2" "test2.wav") = None /\
  ffmpeg.CreateProcess accept_all full_manager (test_config "process-2" "test2.wav") =
    (full_manager, inr ffmpeg.LimitExceeded).
Proof.
  assert (H1 : (ffmpeg.MaxProcesses (ffmpeg.managerConfig full_manager)
                <= size (ffmpeg.processes full_manager))%nat) by (vm_compute; lia).
  assert (H2 : ffmpeg.processes full_manager !! ffmpeg.ID (test_config "process-2" "test2.wav")
               = None) by (vm_compute; reflexivity).
  split; [exact H1|]. split; [exact H2|].
  exact (proj1 (proj2 (CreateProcess_respects_limit accept_all)) full_manager _ H1 H2).
Defined.



(** ** Restart policy *)

(** C8: under the policy InitialDelay = 1s, BackoffMultiplier = 2.0,
    MaxDelay = 30s, the [i]-th consecutive failure (counted from 0) of a
    freshly registered decoder is answered by a restart after
    [min (2^i s) 30s], that is 1s, 2s, 4s, 8s, 16s, 30s, 30s, ..., each delay
    being the minimum of twice the previous one and MaxDelay, as long as
    [i < MaxRetries]; from the failure number MaxRetries on no restart is
    scheduled. *)
Theorem restart_delays_back_off maxRetries cfg :
  (forall n,
      (ffmpeg.failures n (ffmpeg.newProcess (backoff_policy maxRetries) cfg)).2 =
      map (fun i => if Z.of_nat i <? maxRetries then Some (expected_delay i) else None)
          (seq 0 n)) /\
  map expected_delay (seq 0 7) =
    [1 * second; 2 * second; 4 * second; 8 * second; 16 * second; 30 * second; 30 * second] /\
  (forall i, expected_delay (5 + i) = 30 * second) /\
  (forall i,
      ffmpeg.backoff (backoff_policy maxRetries) (expected_delay i) = expected_delay (S i) /\
      expected_delay (S i) = Z.min (expected_delay i * 2) (30 * second)).
Proof.
  split; [|split; [|split]].
  - intros n. apply (failures_schedule maxRetries n 0).
    + reflexivity.
    + intros _. split; reflexivity.
    + cbn. lia.
  - reflexivity.
  - intros i. apply expected_delay_capped. lia.
  - intros i. split; [apply backoff_expected|].
    unfold expected_delay, second. rewrite Nat2Z.inj_succ, Z.pow_succ_r by lia. lia.
Qed.

(* ===================================================================== *)
(** * Part IV: further properties of the code                            *)
(* ===================================================================== *)

Lemma rne_shift_mono M N k : 0 < k -> 0 <= M <= N -> rne_shift M k <= rne_shift N k.
Proof.
  intros Hk HMN.
  assert (Hp : 0 < 2 ^ k) by (apply Z.pow_pos_nonneg; lia).
  assert (Hq : M / 2 ^ k <= N / 2 ^ k) by (apply Z.div_le_mono; lia).
  destruct (Z.eq_dec (M / 2 ^ k) (N / 2 ^ k)) as [E|E].
  - unfold rne_shift. cbv zeta. rewrite <- E.
    pose proof (Z.div_mod M (2 ^ k) ltac:(lia)) as HM.
    pose proof (Z.div_mod N (2 ^ k) ltac:(lia)) as HN.
    rewrite <- E in HN.
    assert (Hm : M mod 2 ^ k <= N mod 2 ^ k) by lia.
    destruct (Z.compare_spec (2 * (M mod 2 ^ k)) (2 ^ k)),
             (Z.compare_spec (2 * (N mod 2 ^ k)) (2 ^ k));
      destruct (Z.even (M / 2 ^ k)); lia.
  - destruct (rne_shift_bounds M k Hk ltac:(lia)) as [[_ H1] _].
    destruct (rne_shift_bounds N k Hk ltac:(lia)) as [[H2 _] _]. lia.
Qed.

Lemma round24_ge_pow2 n : 0 < n -> 2 ^ Z.log2 n <= round24 n.
Proof.
  intros Hn. destruct (Z.lt_ge_cases n (2 ^ 24)) as [H|H].
  - rewrite round24_small by lia. apply Z.log2_spec. lia.
  - destruct (round24_shift n H) as (Hk & -> & Hb).
    set (k := Z.log2 n + 1 - 24) in *.
    destruct (rne_shift_bounds n k Hk ltac:(lia)) as [[Hr _] _].
    assert (Hp : 0 < 2 ^ k) by (apply Z.pow_pos_nonneg; lia).
    assert (Hq : 2 ^ 23 <= n / 2 ^ k) by (apply Z.div_le_lower_bound; lia).
    replace (Z.log2 n) with (23 + k) by (unfold k; lia).
    rewrite Z.pow_add_r by lia. nia.
Qed.

Lemma round24_mono n m : 0 < n <= m -> round24 n <= round24 m.
Proof.
  intros H.
  assert (Hl : Z.log2 n <= Z.log2 m) by (apply Z.log2_le_mono; lia).
  destruct (Z.eq_dec (Z.log2 n) (Z.log2 m)) as [E|E].
  - unfold round24. rewrite <- E. set (k := Z.log2 n + 1 - 24).
    destruct (Z.ltb_spec 0 k) as [Hk|Hk]; [|lia].
    assert (Hp : 0 < 2 ^ k) by (apply Z.pow_pos_nonneg; lia).
    pose proof (rne_shift_mono n m k Hk ltac:(lia)). nia.
  - transitivity (2 ^ (Z.log2 n + 1)).
    + apply round24_le_pow2; [pose proof (Z.log2_nonneg n); lia|].
      pose proof (Z.log2_spec n ltac:(lia)). replace (Z.log2 n + 1) with (Z.succ (Z.log2 n)) by lia. lia.
    + transitivity (2 ^ Z.log2 m); [apply Z.pow_le_mono_r; lia | apply round24_ge_pow2; lia].
Qed.

Lemma round_int_mono v w : v <= w -> round_int v <= round_int w.
Proof.
  intros H. unfold round_int.
  destruct (Z.lt_trichotomy v 0) as [Hv|[->|Hv]], (Z.lt_trichotomy w 0) as [Hw|[->|Hw]];
    try lia.
  all: repeat match goal with
       | H : ?x < 0 |- context [Z.sgn ?x] => rewrite (Z.sgn_neg x H)
       | H : 0 < ?x |- context [Z.sgn ?x] => rewrite (Z.sgn_pos x H)
       end; cbn [Z.sgn Z.mul Z.abs].
  - pose proof (round24_mono (Z.abs w) (Z.abs v) ltac:(lia)). lia.
  - pose proof (round24_pos (Z.abs v) ltac:(lia)). lia.
  - pose proof (round24_pos (Z.abs v) ltac:(lia)).
    pose proof (round24_pos (Z.abs w) ltac:(lia)). lia.
  - pose proof (round24_pos (Z.abs w) ltac:(lia)). lia.
  - pose proof (round24_mono (Z.abs v) (Z.abs w) ltac:(lia)). lia.
Qed.

(** ** Frames of a concatenation *)

Lemma frame_app_l d a b i :
  supported d = true -> (i * bytesPerSample d + bytesPerSample d <= length a)%nat ->
  frame d (a ++ b) i = frame d a i.
Proof.
  intros H Hi. destruct (supported_cases d H) as [-> | [-> | ->]];
    [change (bytesPerSample 16) with 2%nat in Hi
    |change (bytesPerSample 24) with 3%nat in Hi
    |change (bytesPerSample 32) with 4%nat in Hi];
    unfold frame; cbn [Z.eqb Pos.eqb];
    unfold frame16, frame24, frame32; rewrite !lookup_app_l by lia; reflexivity.
Qed.

Lemma frame_app_r d a b n j :
  supported d = true -> length a = (n * bytesPerSample d)%nat ->
  frame d (a ++ b) (n + j) = frame d b j.
Proof.
  intros H Hn. destruct (supported_cases d H) as [-> | [-> | ->]];
    [change (bytesPerSample 16) with 2%nat in Hn
    |change (bytesPerSample 24) with 3%nat in Hn
    |change (bytesPerSample 32) with 4%nat in Hn];
    unfold frame; cbn [Z.eqb Pos.eqb];
    unfold frame16, frame24, frame32; rewrite !lookup_app_r by lia;
    repeat match goal with
    | |- context [b !! ?x] =>
        lazymatch x with
        | (_ - _)%nat =>
            let y := fresh "y" in
            let E := fresh "E" in
            remember x as y eqn:E;
            first [ replace y with (j * 2)%nat by lia
                  | replace y with (j * 2 + 1)%nat by lia
                  | replace y with (j * 3)%nat by lia
                  | replace y with (j * 3 + 1)%nat by lia
                  | replace y with (j * 3 + 2)%nat by lia
                  | replace y with (j * 4)%nat by lia
                  | replace y with (j * 4 + 1)%nat by lia
                  | replace y with (j * 4 + 2)%nat by lia
                  | replace y with (j * 4 + 3)%nat by lia ]; clear E
        end
    end; reflexivity.
Qed.

Lemma converted_app d a b n :
  supported d = true -> length a = (n * bytesPerSample d)%nat ->
  converted d (a ++ b) = converted d a ++ converted d b.
Proof.
  intros H Hn. pose proof (bytesPerSample_pos d H) as Hp. unfold converted.
  set (k := bytesPerSample d) in *.
  rewrite length_app, Hn.
  rewrite Nat.div_add_l, Nat.div_mul by lia.
  rewrite seq_app, map_app. f_equal.
  - apply List.map_ext_in. intros i Hi. apply in_seq in Hi.
    apply frame_app_l; [exact H|]. fold k. nia.
  - rewrite Nat.add_0_l. replace n with (n + 0)%nat at 1 by lia.
    rewrite <- (fmap_add_seq n 0).
    change (map ?f (?g <$> ?l)) with (map f (map g l)).
    rewrite List.map_map. apply List.map_ext. intros j.
    apply frame_app_r; assumption.
Qed.

(** X1: conversion distributes over concatenation.  When the first of two
    byte slices holds a whole number of samples of a supported bit depth,
    converting their concatenation gives the samples of the first followed
    by the samples of the second. *)
Theorem ConvertToFloat32_app bs bd init d a b n :
  supported d = true -> length a = (n * bytesPerSample d)%nat ->
  exists xa xb,
    ConvertToFloat32 (startup bs bd init) a d = Some (Some [xa], None) /\
    ConvertToFloat32 (startup bs bd init) b d = Some (Some [xb], None) /\
    ConvertToFloat32 (startup bs bd init) (a ++ b) d = Some (Some [xa ++ xb], None).
Proof.
  intros H Hn. exists (converted d a), (converted d b).
  rewrite !ConvertToFloat32_supported by exact H.
  rewrite (converted_app d a b n H Hn). auto.
Qed.

Lemma ConvertToFloat32_app_witness :
  exists xa xb,
    ConvertToFloat32 (startup 4 16 (Some (fun _ => F32.one)))
      [byte.of_Z 1; byte.of_Z 0; byte.of_Z 255; byte.of_Z 255] 16 = Some (Some [xa], None) /\
    ConvertToFloat32 (startup 4 16 (Some (fun _ => F32.one)))
      [byte.of_Z 0; byte.of_Z 128; byte.of_Z 7] 16 = Some (Some [xb], None) /\
    ConvertToFloat32 (startup 4 16 (Some (fun _ => F32.one)))
      ([byte.of_Z 1; byte.of_Z 0; byte.of_Z 255; byte.of_Z 255] ++
       [byte.of_Z 0; byte.of_Z 128; byte.of_Z 7]) 16 = Some (Some [xa ++ xb], None).
Proof.
  apply (ConvertToFloat32_app 4 16 (Some (fun _ => F32.one)) 16 _ _ 2); reflexivity.
Defined.

(** X2: conversion preserves the order of samples.  For a supported bit
    depth and two sample values [v1 <= v2] of that depth, the float converted
    from the encoding of [v1] is at most the float converted from the
    encoding of [v2]; for 16 and 24 bits a smaller sample gives a strictly
    smaller float, so no two samples of these depths convert to the same
    float. *)
Theorem ConvertToFloat32_preserves_order bs bd init d v1 v2 :
  supported d = true ->
  - maxMagnitude d <= v1 -> v1 <= v2 -> v2 < maxMagnitude d ->
  exists f1 f2,
    ConvertToFloat32 (startup bs bd init) (encode d v1) d = Some (Some [[f1]], None) /\
    ConvertToFloat32 (startup bs bd init) (encode d v2) d = Some (Some [[f2]], None) /\
    (F32.to_Q f1 <= F32.to_Q f2)%Q /\
    (d <> 32 -> v1 < v2 -> (F32.to_Q f1 < F32.to_Q f2)%Q).
Proof.
  intros H Hlo Hle Hhi.
  destruct (converted_encode d v1 H ltac:(lia)) as (f1 & Hc1 & _ & Hq1 & Hr1).
  destruct (converted_encode d v2 H ltac:(lia)) as (f2 & Hc2 & _ & Hq2 & Hr2).
  exists f1, f2. rewrite !ConvertToFloat32_supported, Hc1, Hc2 by exact H.
  split; [reflexivity|]. split; [reflexivity|].
  assert (HM : 0 < maxMagnitude d).
  { apply Z.pow_pos_nonneg; destruct (supported_cases d H) as [-> | [-> | ->]]; lia. }
  assert (Hdiv : forall x y, x <= y ->
            (inject_Z x / inject_Z (maxMagnitude d) <= inject_Z y / inject_Z (maxMagnitude d))%Q).
  { intros x y Hxy. unfold Qdiv. apply Qmult_le_compat_r.
    - rewrite <- Zle_Qle. exact Hxy.
    - apply Qlt_le_weak, Qinv_lt_0_compat. rewrite <- (Zlt_Qlt 0). exact HM. }
  split.
  - rewrite Hq1, Hq2. apply Hdiv, round_int_mono, Hle.
  - intros Hd Hlt. rewrite Hq1, Hq2, (Hr1 Hd), (Hr2 Hd).
    unfold Qdiv. apply Qmult_lt_compat_r.
    + apply Qinv_lt_0_compat. rewrite <- (Zlt_Qlt 0). exact HM.
    + rewrite <- Zlt_Qlt. exact Hlt.
Qed.

Lemma ConvertToFloat32_preserves_order_witness :
  exists f1 f2,
    ConvertToFloat32 (startup 4 32 None) (encode 32 (-7)) 32 = Some (Some [[f1]], None) /\
    ConvertToFloat32 (startup 4 32 None) (encode 32 2147483000) 32 = Some (Some [[f2]], None) /\
    (F32.to_Q f1 <= F32.to_Q f2)%Q /\
    (32 <> 32 -> -7 < 2147483000 -> (F32.to_Q f1 < F32.to_Q f2)%Q).
Proof.
  apply (ConvertToFloat32_preserves_order 4 32 None 32 (-7) 2147483000);
    [reflexivity | vm_compute; congruence | lia | reflexivity].
Defined.

(** X3: when the conversion succeeds and the predictor returns an error,
    [ProcessData] returns that error wrapped in "error predicting species",
    and neither the results queue nor the log has changed: nothing is
    enqueued for the window. *)
Theorem ProcessData_predict_failure predict settings elapsedTime w data startTime source
    sampleData results err :
  ConvertToFloat32 (globals w) data (BitDepth (globals w)) = Some (Some sampleData, None) ->
  predict sampleData = (results, Some err) ->
  exists w',
    ProcessData predict settings elapsedTime w data startTime source =
      Returns (w', Some (Wrapped "error predicting species: %w" [] err)) /\
    ResultsQueue w' = ResultsQueue w /\ log w' = log w.
Proof.
  intros Hc Hp. unfold ProcessData. cbv zeta. rewrite Hc.
  change (default [] (Some sampleData)) with sampleData. rewrite Hp.
  eexists. split; [reflexivity|]. split; reflexivity.
Qed.

Lemma ProcessData_predict_failure_witness :
  exists w',
    ProcessData failing_predict {| Debug := true; Overlap := F64.of_int 0 |} 5
      (idle_world 1) [byte.of_Z 1; byte.of_Z 2; byte.of_Z 3; byte.of_Z 4] 0 "mic" =
      Returns (w', Some (Wrapped "error predicting species: %w" []
                           (CollaboratorError "interpreter invoke failed"))) /\
    ResultsQueue w' = ResultsQueue (idle_world 1) /\ log w' = log (idle_world 1).
Proof.
  eapply (ProcessData_predict_failure failing_predict _ 5 (idle_world 1)); reflexivity.
Defined.

(** X4: when the conversion and the prediction succeed, [ProcessData]
    returns a nil error whether or not the result could be enqueued.  If the
    queue has room, the message appended carries the caller's start time,
    source and PCM bytes, the elapsed time and the predictor's results; if
    the queue is full, the queue is unchanged and the last line of the log
    is "Results queue is full!": the caller cannot tell the drop from the
    returned value. *)
Theorem ProcessData_reports_no_drop predict settings elapsedTime w data startTime source
    sampleData results :
  ConvertToFloat32 (globals w) data (BitDepth (globals w)) = Some (Some sampleData, None) ->
  predict sampleData = (results, None) ->
  exists w',
    ProcessData predict settings elapsedTime w data startTime source = Returns (w', None) /\
    if decide (length (chan_buf (ResultsQueue w)) < chan_cap (ResultsQueue w))%nat
    then chan_buf (ResultsQueue w') =
           chan_buf (ResultsQueue w) ++
           [ {| birdnet.StartTime := startTime; birdnet.ElapsedTime := elapsedTime;
                birdnet.PCMdata := data; birdnet.Results' := results;
                birdnet.Source := source |} ]
    else ResultsQueue w' = ResultsQueue w /\ last (log w') = Some LogQueueFull.
Proof.
  intros Hc Hp. unfold ProcessData. cbv zeta. rewrite Hc.
  change (default [] (Some sampleData)) with sampleData. rewrite Hp.
  rewrite sendResults_spec.
  destruct (decide (length (chan_buf (ResultsQueue w)) < chan_cap (ResultsQueue w))%nat).
  - eexists. split; [reflexivity|]. reflexivity.
  - eexists. split; [reflexivity|]. cbn [ResultsQueue log]. split; [reflexivity|].
    apply last_snoc.
Qed.

Lemma ProcessData_reports_no_drop_witness :
  exists w',
    ProcessData silent_predict {| Debug := true; Overlap := F64.of_int 0 |} 5
      (idle_world 0) [byte.of_Z 1; byte.of_Z 2; byte.of_Z 3; byte.of_Z 4] 0 "mic" =
      Returns (w', None) /\
    ResultsQueue w' = ResultsQueue (idle_world 0) /\ last (log w') = Some LogQueueFull.
Proof.
  exact (ProcessData_reports_no_drop silent_predict {| Debug := true; Overlap := F64.of_int 0 |}
           5 (idle_world 0) [byte.of_Z 1; byte.of_Z 2; byte.of_Z 3; byte.of_Z 4] 0 "mic"
           _ [] eq_refl eq_refl).
Defined.

(** ** Process monitor: what a pass never does *)

Lemma terminate_cause it config pm repo pid :
  EvTerminate pid ∈ (checkProcesses it config pm repo).1 ->
  (exists processes proc,
      FindProcesses pm = inl processes /\ proc ∈ processes /\ PID proc = pid) /\
  (forall url value, repo !! url = Some value -> known_pid value <> Returns (Some pid)) /\
  (forall url value, repo !! url = Some value -> known_pid value <> Panics).
Proof.
  rewrite checkProcesses_events. intros [H|H]%elem_of_app.
  - apply elem_of_flat_map in H as ([url' value'] & _ & H).
    destruct (implementsCleaner value'); [destruct (bool_decide _)|];
      apply list_elem_of_In in H; cbn in H; intuition discriminate.
  - unfold cleanupOrphanedProcesses in H.
    destruct (FindProcesses pm) as [processes|err]; [|inversion H]. cbv zeta in H.
    destruct (second_ForEach it repo)
      as [[Hsafe (known & Hknown & [Hk He Ha])]|[_ Hpanic]];
      [rewrite Hknown in H | rewrite Hpanic in H; inversion H].
    cbn [fst] in H.
    apply elem_of_app in H as [H|H].
    + apply elem_of_flat_map in H as ([pid' url'] & _ & H).
      destruct (bool_decide _ && negb (IsProcessRunning pm pid')); [|inversion H].
      destruct (pidToProcess known !! pid') as [process|];
        [destruct (implementsCleaner process)|];
        apply list_elem_of_In in H; cbn in H; intuition discriminate.
    + apply elem_of_flat_map in H as (proc & Hin & H).
      destruct (bool_decide_reflect (PID proc ∈ knownPIDs known)) as [Hkn|Hkn];
        [inversion H|].
      assert (Hpid : PID proc = pid).
      { apply list_elem_of_In in H. cbn in H.
        destruct H as [H|[H|H]]; try discriminate.
        - now injection H.
        - destruct (TerminateProcess pm (PID proc)); cbn in H; intuition discriminate. }
      subst pid. split; [eauto|]. split; [|exact Hsafe].
      intros url value Hr Hp. apply Hkn, Hk.
      apply (Ha url value (PID proc)); [|exact Hp].
      apply elem_of_second_range. exact Hr.
Qed.

Lemma cleanup_sound it config pm repo value url :
  EvCleanup value url ∈ (checkProcesses it config pm repo).1 ->
  repo !! url = Some value /\ implementsCleaner value = true /\
  ((url ∉ GetConfiguredURLs config) \/
   exists processes pid,
     FindProcesses pm = inl processes /\ pid ∈ map PID processes /\
     known_pid value = Returns (Some pid) /\ IsProcessRunning pm pid = false).
Proof.
  rewrite checkProcesses_events. intros [H|H]%elem_of_app.
  - apply elem_of_flat_map in H as ([url' value'] & Hin & H).
    apply elem_of_first_range in Hin.
    destruct (implementsCleaner value') eqn:Hc.
    + destruct (bool_decide_reflect
                  (url' ∈ (list_to_set (GetConfiguredURLs config) : gset string))) as [Hcfg|Hcfg].
      * inversion H.
      * rewrite elem_of_list_to_set in Hcfg.
        apply list_elem_of_In in H. cbn in H.
        destruct H as [H|[H|[H|[]]]]; try discriminate. injection H as -> ->. auto.
    + apply list_elem_of_In in H. cbn in H. destruct H as [H|[H|[]]]; discriminate.
  - unfold cleanupOrphanedProcesses in H.
    destruct (FindProcesses pm) as [processes|err]; [|inversion H]. cbv zeta in H.
    destruct (second_ForEach it repo) as [[_ (known & Hknown & [Hk He Ha])]|[_ Hpanic]];
      [rewrite Hknown in H | rewrite Hpanic in H; inversion H].
    cbn [fst] in H.
    apply elem_of_app in H as [H|H].
    + apply elem_of_flat_map in H as ([pid url'] & Hin & H).
      apply elem_of_pid_range in Hin.
      destruct (He pid url' Hin) as (value' & Hv & Hin' & Hp).
      apply elem_of_second_range in Hin'.
      destruct (bool_decide_reflect (pid ∈ (list_to_set (map PID processes) : gset Z)))
        as [Hsys|Hsys]; [|inversion H].
      rewrite elem_of_list_to_set in Hsys. cbn [andb] in H.
      destruct (IsProcessRunning pm pid) eqn:Hdead; [inversion H|]. cbn [negb] in H.
      rewrite Hv in H. destruct (implementsCleaner value') eqn:Hc.
      * apply list_elem_of_In in H. cbn in H.
        destruct H as [H|[H|[]]]; try discriminate. injection H as -> ->.
        split; [exact Hin'|]. split; [exact Hc|]. right. exists processes, pid. auto.
      * apply list_elem_of_In in H. cbn in H. destruct H as [H|[]]. discriminate.
    + apply elem_of_flat_map in H as (proc & _ & H).
      destruct (bool_decide _); [inversion H|].
      apply list_elem_of_In in H. cbn in H.
      destruct H as [H|[H|H]]; try discriminate.
      destruct (TerminateProcess pm (PID proc)); cbn in H; intuition discriminate.
Qed.

(** What a pass that panics has done: the clean-ups of the first
    traversal, and neither a further clean-up nor a termination. *)
Lemma panicking_pass it config pm repo processes url value :
  FindProcesses pm = inl processes ->
  repo !! url = Some value -> known_pid value = Panics ->
  (checkProcesses it config pm repo).2 = Panics /\
  (forall value' url',
      EvCleanup value' url' ∈ (checkProcesses it config pm repo).1 <->
      repo !! url' = Some value' /\ implementsCleaner value' = true /\
      (url' ∉ GetConfiguredURLs config)) /\
  (forall pid, EvTerminate pid ∈ (checkProcesses it config pm repo).1 -> False).
Proof.
  intros Hf Hr Hp. split; [|split].
  - rewrite checkProcesses_result, Hf.
    destruct (second_ForEach it repo) as [[Hsafe _]|[_ ->]]; [|reflexivity].
    now apply Hsafe in Hr.
  - intros value' url'. split.
    + intros H. pose proof H as H'. apply cleanup_sound in H' as (Hr' & Hc & _).
      split; [exact Hr'|]. split; [exact Hc|].
      rewrite checkProcesses_events in H.
      rewrite (cleanupOrphanedProcesses_panics it pm repo processes url value Hf Hr Hp) in H.
      cbn [fst] in H. rewrite app_nil_r in H.
      apply elem_of_flat_map in H as ([u v] & _ & H).
      destruct (implementsCleaner v).
      * destruct (bool_decide_reflect
                    (u ∈ (list_to_set (GetConfiguredURLs config) : gset string)))
          as [Hcfg|Hcfg]; [inversion H|].
        rewrite elem_of_list_to_set in Hcfg.
        apply list_elem_of_In in H. cbn in H.
        destruct H as [H|[H|[H|[]]]]; try discriminate. now injection H as _ <-.
      * apply list_elem_of_In in H. cbn in H. destruct H as [H|[H|[]]]; discriminate.
    + intros (Hr' & Hc & Hn). apply drift_cleanup; assumption.
  - intros pid H. apply terminate_cause in H as (_ & _ & Hsafe). now apply Hsafe in Hr.
Qed.

(** X5: a monitoring pass force-terminates only processes that the
    enumeration of the operating system returned and whose process id no
    entry of the registry has: a process that belongs to a registered entry
    is never terminated, whatever the traversal order. *)
Theorem checkProcesses_spares_registered it config pm repo pid :
  EvTerminate pid ∈ (checkProcesses it config pm repo).1 ->
  (exists processes proc,
      FindProcesses pm = inl processes /\ proc ∈ processes /\ PID proc = pid) /\
  (forall url value, repo !! url = Some value -> known_pid value <> Returns (Some pid)).
Proof.
  intros H. apply terminate_cause in H as (Hos & Hunknown & _). split; assumption.
Qed.

(** X6: a monitoring pass invokes [Cleanup] only on a registered entry
    that implements [ProcessCleaner] and whose URL is not configured, or
    whose process id the operating system lists while the liveness probe
    fails: an entry that is configured and whose process is alive is never
    cleaned up. *)
Theorem checkProcesses_spares_healthy it config pm repo value url :
  EvCleanup value url ∈ (checkProcesses it config pm repo).1 ->
  repo !! url = Some value /\ implementsCleaner value = true /\
  ((url ∉ GetConfiguredURLs config) \/
   exists processes pid,
     FindProcesses pm = inl processes /\ pid ∈ map PID processes /\
     known_pid value = Returns (Some pid) /\ IsProcessRunning pm pid = false).
Proof. apply cleanup_sound. Qed.

(** X7: a monitoring pass returns an error exactly when the enumeration
    of the processes fails.  When the enumeration fails, the pass returns
    the enumeration error wrapped twice, it still cleans up exactly the
    registered cleaners whose URL is not configured, and it terminates
    nothing.  When the enumeration succeeds, the pass returns nil, even if a
    termination fails (that is only logged), unless a registered value makes
    the look-up of its process id panic: then the pass panics, having
    cleaned up exactly the registered cleaners whose URL is not configured
    and terminated nothing. *)
Theorem checkProcesses_error_iff_enumeration_fails it config pm repo :
  (forall err,
      (checkProcesses it config pm repo).2 = Returns (Some err) ->
      exists cause, FindProcesses pm = inr cause) /\
  (forall err,
      FindProcesses pm = inr err ->
      (checkProcesses it config pm repo).2 =
        Returns (Some (Wrapped "error cleaning up orphaned FFmpeg processes: %w" []
                         (Wrapped "error finding FFmpeg processes: %w" [] err))) /\
      (forall value url,
          EvCleanup value url ∈ (checkProcesses it config pm repo).1 <->
          repo !! url = Some value /\ implementsCleaner value = true /\
          (url ∉ GetConfiguredURLs config)) /\
      (forall pid, (EvTerminate pid ∈ (checkProcesses it config pm repo).1) -> False)) /\
  (forall processes,
      FindProcesses pm = inl processes ->
      ((forall url value, repo !! url = Some value -> known_pid value <> Panics) ->
       (checkProcesses it config pm repo).2 = Returns None) /\
      (forall url value,
          repo !! url = Some value -> known_pid value = Panics ->
          (checkProcesses it config pm repo).2 = Panics /\
          (forall value' url',
              EvCleanup value' url' ∈ (checkProcesses it config pm repo).1 <->
              repo !! url' = Some value' /\ implementsCleaner value' = true /\
              (url' ∉ GetConfiguredURLs config)) /\
          (forall pid, EvTerminate pid ∈ (checkProcesses it config pm repo).1 -> False))).
Proof.
  split; [|split].
  - intros err H. rewrite checkProcesses_result in H.
    destruct (FindProcesses pm) as [processes|cause]; [|eauto].
    destruct (ForEach track_pid _ _); discriminate.
  - intros err Hf. split; [|split].
    + now rewrite checkProcesses_result, Hf.
    + intros value url. split.
      * intros H. apply cleanup_sound in H as (Hr & Hc & [Hn|(ps & pid & Hf' & _)]); [auto|].
        congruence.
      * intros (Hr & Hc & Hn). apply drift_cleanup; assumption.
    + intros pid H. apply terminate_cause in H as [(ps & proc & Hf' & _) _]. congruence.
  - intros processes Hf. split.
    + intros Hsafe. rewrite checkProcesses_result, Hf.
      destruct (second_ForEach it repo) as [[_ (known & -> & _)]|[(u & v & Hr & Hp) _]];
        [reflexivity | now apply Hsafe in Hr].
    + intros url value Hr Hp. exact (panicking_pass it config pm repo processes url value Hf Hr Hp).
Qed.


(** ** Decimal text *)

Section DecimalText.
Import gostrings gofmt.

Lemma chars_app s t : chars (s +:+ t) = chars s ++ chars t.
Proof.
  induction s as [|c s IH]; [reflexivity|].
  change (String c s +:+ t) with (String c (s +:+ t)). cbn [chars app]. now rewrite IH.
Qed.

Lemma digit_pretty_N_char x : (x < 10)%N -> digit (pretty_N_char x) = Some (Z.of_N x).
Proof.
  intros H.
  assert (x = 0 \/ x = 1 \/ x = 2 \/ x = 3 \/ x = 4 \/ x = 5 \/ x = 6 \/ x = 7 \/ x = 8 \/ x = 9)%N
    as E by lia.
  repeat (destruct E as [->|E]; [reflexivity|]). now subst.
Qed.

Lemma digits_pretty_N_go x : forall s, digits s -> digits (pretty_N_go x s).
Proof.
  induction (N.lt_wf_0 x) as [x _ IH]. intros s Hs.
  destruct (N.eq_dec x 0%N) as [->|Hx]; [exact Hs|].
  rewrite pretty_N_go_step by lia. apply IH; [apply N.div_lt; lia|].
  constructor; [|exact Hs].
  rewrite digit_pretty_N_char by (apply N.mod_lt; lia). eauto.
Qed.

Lemma digits_pretty_N (x : N) : digits (pretty x).
Proof.
  unfold pretty, pretty_N. destruct (decide (x = 0%N)).
  - repeat constructor. now exists 0.
  - apply digits_pretty_N_go. constructor.
Qed.

(** A digit is neither white space nor the first byte of a white-space
    rune. *)
Lemma pieces_digit c d s : digit c = Some d -> pieces (String c s) = Other c :: pieces s.
Proof.
  intros H. destruct c as [[] [] [] [] [] [] [] []]; try discriminate H; reflexivity.
Qed.

Lemma pieces_digits s t : digits s -> pieces (s +:+ t) = map Other (chars s) ++ pieces t.
Proof.
  induction s as [|c s IH]; intros H; [reflexivity|].
  inversion H as [|? ? [d Hd] Hs]; subst.
  change (String c s +:+ t) with (String c (s +:+ t)).
  rewrite (pieces_digit c d) by exact Hd. cbn. now rewrite IH.
Qed.

Lemma string_app_nil_r (s : string) : s +:+ "" = s.
Proof.
  induction s as [|c s IH]; [reflexivity|].
  change (String c s +:+ "") with (String c (s +:+ "")). now rewrite IH.
Qed.

Lemma string_app_snoc (s t : string) c : (s +:+ String c "") +:+ t = s +:+ String c t.
Proof.
  induction s as [|c' s IH]; [reflexivity|].
  change ((String c' s +:+ String c "") +:+ t) with (String c' ((s +:+ String c "") +:+ t)).
  now rewrite IH.
Qed.

Lemma scanNumber_stop input tok acc :
  no_digit_ahead input -> scanNumber input tok acc = (tok, acc, input).
Proof.
  destruct input as [|[|c] rest]; try reflexivity. cbn. now intros ->.
Qed.

Lemma scanNumber_digits s : forall input tok acc,
  digits s -> no_digit_ahead input ->
  scanNumber (map Other (chars s) ++ input) tok acc = (tok +:+ s, value (chars s) acc, input).
Proof.
  induction s as [|c s IH]; intros input tok acc H Hn.
  - rewrite string_app_nil_r. now apply scanNumber_stop.
  - inversion H as [|? ? [d Hd] Hs]; subst.
    cbn [chars map app scanNumber value]. rewrite Hd. cbn [default from_option]. unfold id.
    rewrite IH by assumption. now rewrite string_app_snoc.
Qed.

Lemma value_pretty_N_go x : forall s,
  value (chars (pretty_N_go x s)) 0 = value (chars s) (Z.of_N x).
Proof.
  induction (N.lt_wf_0 x) as [x _ IH]. intros s.
  destruct (N.eq_dec x 0%N) as [->|Hx]; [reflexivity|].
  rewrite pretty_N_go_step by lia. rewrite IH by (apply N.div_lt; lia).
  cbn [chars value]. rewrite digit_pretty_N_char by (apply N.mod_lt; lia).
  cbn [default]. f_equal.
  pose proof (N.div_mod x 10 ltac:(lia)) as E.
  apply (f_equal Z.of_N) in E. rewrite N2Z.inj_add, N2Z.inj_mul in E.
  change (Z.of_N 10) with 10 in E. unfold id. lia.
Qed.

Lemma value_pretty_N (x : N) : value (chars (pretty x)) 0 = Z.of_N x.
Proof.
  unfold pretty, pretty_N. destruct (decide (x = 0%N)) as [->|].
  - reflexivity.
  - apply value_pretty_N_go.
Qed.

Lemma pretty_N_nonempty (x : N) : exists c s, pretty x = String c s /\ is_Some (digit c).
Proof.
  pose proof (digits_pretty_N x) as H.
  assert (Hne : pretty x <> "").
  { unfold pretty, pretty_N. destruct (decide (x = 0%N)); [discriminate|].
    assert (forall y s, s <> "" -> pretty_N_go y s <> "") as Hgo.
    { intros y. induction (N.lt_wf_0 y) as [y _ IH]. intros s Hs.
      destruct (N.eq_dec y 0%N) as [->|Hy]; [exact Hs|].
      rewrite pretty_N_go_step by lia. apply IH; [apply N.div_lt; lia | discriminate]. }
    rewrite pretty_N_go_step by lia. apply Hgo. discriminate. }
  destruct (pretty x) as [|c s]; [congruence|].
  inversion H; subst. eauto.
Qed.

Lemma value_nonneg cs : forall acc, 0 <= acc -> 0 <= value cs acc.
Proof.
  induction cs as [|c cs IH]; intros acc H; [exact H|]. cbn [value]. apply IH.
  assert (0 <= default 0 (digit c)); [|lia].
  unfold digit. destruct (_ && _) eqn:E; cbn; lia.
Qed.

Lemma scanInt_digits c s t :
  digits (String c s) -> no_digit_ahead (pieces t) ->
  value (chars (String c s)) 0 < 2 ^ 63 ->
  scanInt (pieces (String c s +:+ t)) = inl (value (chars (String c s)) 0, pieces t).
Proof.
  intros Hds Ht Hv. rewrite pieces_digits by exact Hds.
  pose proof (scanNumber_digits (String c s) (pieces t) "" 0 Hds Ht) as Hs.
  pose proof (value_nonneg (chars (String c s)) 0 ltac:(lia)) as H0.
  set (v := value (chars (String c s)) 0) in *.
  inversion Hds as [|? ? [d Hd] _]; subst.
  cbn [chars map app] in Hs |- *. unfold scanInt. cbn [SkipSpace].
  replace (match Other c with
           | Other "+"%char => ("+"%string, false, map Other (chars s) ++ pieces t)
           | Other "-"%char => ("-"%string, true, map Other (chars s) ++ pieces t)
           | _ => (""%string, false, Other c :: map Other (chars s) ++ pieces t)
           end)
    with (""%string, false, Other c :: map Other (chars s) ++ pieces t)
    by (destruct c as [[] [] [] [] [] [] [] []]; try reflexivity; discriminate Hd).
  rewrite Hd, Hs.
  destruct (Z.leb_spec (- 2 ^ 63) v), (Z.ltb_spec v (2 ^ 63)); try lia. reflexivity.
Qed.

Lemma scanInt_minus_digits c s t :
  digits (String c s) -> no_digit_ahead (pieces t) ->
  value (chars (String c s)) 0 <= 2 ^ 63 ->
  scanInt (pieces (String "-" (String c s) +:+ t)) =
    inl (- value (chars (String c s)) 0, pieces t).
Proof.
  intros Hds Ht Hv.
  change (String "-" (String c s) +:+ t) with (String "-" (String c s +:+ t)).
  change (pieces (String "-" (String c s +:+ t)))
    with (Other "-" :: pieces (String c s +:+ t)).
  rewrite pieces_digits by exact Hds.
  pose proof (scanNumber_digits (String c s) (pieces t) "-" 0 Hds Ht) as Hs.
  pose proof (value_nonneg (chars (String c s)) 0 ltac:(lia)) as H0.
  set (v := value (chars (String c s)) 0) in *.
  inversion Hds as [|? ? [d Hd] _]; subst.
  cbn [chars map app] in Hs |- *. unfold scanInt. cbn [SkipSpace].
  cbv iota beta. rewrite Hd, Hs.
  destruct (Z.leb_spec (- 2 ^ 63) (- v)), (Z.ltb_spec (- v) (2 ^ 63)); try lia. reflexivity.
Qed.

(** Scanning the decimal text of a number gives the number back,
    whatever follows it, as long as no digit follows it. *)
Lemma scanInt_Sprint n t :
  - 2 ^ 63 <= n < 2 ^ 63 -> no_digit_ahead (pieces t) ->
  scanInt (pieces (Sprint n +:+ t)) = inl (n, pieces t).
Proof.
  intros Hn Ht. unfold Sprint, pretty, pretty_Z.
  destruct n as [|p|p].
  - apply (scanInt_digits "0" "" t); try assumption.
    + repeat constructor. now exists 0.
    + now vm_compute.
  - unfold pretty, pretty_positive.
    destruct (pretty_N_nonempty (N.pos p)) as (c & s & E & _).
    pose proof (digits_pretty_N (N.pos p)) as Hds.
    pose proof (value_pretty_N (N.pos p)) as Hv. rewrite E in *.
    rewrite scanInt_digits; try assumption.
    + now rewrite Hv.
    + rewrite Hv. cbn. lia.
  - unfold pretty, pretty_positive.
    destruct (pretty_N_nonempty (N.pos p)) as (c & s & E & _).
    pose proof (digits_pretty_N (N.pos p)) as Hds.
    pose proof (value_pretty_N (N.pos p)) as Hv. rewrite E in *.
    change ("-" +:+ String c s) with (String "-" (String c s)).
    rewrite scanInt_minus_digits; try assumption.
    + now rewrite Hv.
    + rewrite Hv. cbn. lia.
Qed.
End DecimalText.

Section ProcessManagers.
Import gostrings gofmt.

Lemma pieces_plain c s : plain c = true -> pieces (String c s) = Other c :: pieces s.
Proof.
  intros H. destruct c as [[] [] [] [] [] [] [] []]; try discriminate H; reflexivity.
Qed.

Lemma pieces_all_plain s :
  Forall (fun c => plain c = true) (chars s) -> pieces s = map Other (chars s).
Proof.
  induction s as [|c s IH]; intros H; [reflexivity|].
  inversion H; subst. rewrite pieces_plain by assumption. cbn. now rewrite IH.
Qed.

Lemma text_others s : text (map Other (chars s)) = s.
Proof. induction s as [|c s IH]; [reflexivity|]. cbn. now rewrite IH. Qed.

Lemma trimLeft_others cs : trimLeft (map Other cs) = map Other cs.
Proof. destruct cs; reflexivity. Qed.

Lemma TrimSpace_plain s :
  Forall (fun c => plain c = true) (chars s) -> TrimSpace s = s.
Proof.
  intros H. unfold TrimSpace. rewrite pieces_all_plain by exact H.
  rewrite trimLeft_others, <- map_rev, trimLeft_others, map_rev, rev_involutive.
  apply text_others.
Qed.

Lemma digit_plain c : is_Some (digit c) -> plain c = true.
Proof.
  intros [d H]. destruct c as [[] [] [] [] [] [] [] []]; try discriminate H; reflexivity.
Qed.

Lemma Sprint_chars n :
  Forall (fun c => plain c = true /\ c <> "010"%char) (chars (Sprint n)).
Proof.
  assert (Hd : forall s, digits s -> Forall (fun c => plain c = true /\ c <> "010"%char) (chars s)).
  { intros s H. eapply Forall_impl; [exact H|]. intros c Hc. split; [now apply digit_plain|].
    intros ->. destruct Hc as [d Hc]. discriminate Hc. }
  unfold Sprint, pretty, pretty_Z. destruct n as [|p|p].
  - repeat constructor. discriminate.
  - apply Hd, digits_pretty_N.
  - change ("-" +:+ pretty p) with (String "-" (pretty p)). constructor.
    + split; [reflexivity | discriminate].
    + apply Hd, digits_pretty_N.
Qed.

Lemma Sprint_nonempty n : Sprint n <> "".
Proof.
  unfold Sprint, pretty, pretty_Z. destruct n as [|p|p]; try discriminate.
  unfold pretty, pretty_positive.
  destruct (pretty_N_nonempty (N.pos p)) as (c & s & -> & _). discriminate.
Qed.

Lemma Sscanf_d_Sprint n : - 2 ^ 63 <= n < 2 ^ 63 -> Sscanf_d (Sprint n) = inl n.
Proof.
  intros H. unfold Sscanf_d. rewrite <- (string_app_nil_r (Sprint n)).
  rewrite scanInt_Sprint; [reflexivity | exact H | exact I].
Qed.

Lemma pgrep_line_Sprint n :
  - 2 ^ 63 <= n < 2 ^ 63 -> pgrep_line (Sprint n) = [ {| PID := n; Name := "ffmpeg" |} ].
Proof.
  intros H. unfold pgrep_line. rewrite TrimSpace_plain.
  - destruct (String.eqb_spec (Sprint n) "") as [E|_]; [now apply Sprint_nonempty in E|].
    now rewrite Sscanf_d_Sprint.
  - eapply Forall_impl; [apply Sprint_chars|]. now intros c [? _].
Qed.

Lemma Split_line s c rest :
  Forall (fun x => x <> c) (chars s) ->
  Split (s +:+ String c rest) c = s :: Split rest c.
Proof.
  induction s as [|x s IH]; intros H.
  - change ("" +:+ String c rest) with (String c rest). cbn [Split].
    now rewrite Ascii.eqb_refl.
  - inversion H; subst.
    change (String x s +:+ String c rest) with (String x (s +:+ String c rest)).
    cbn [Split]. destruct (Ascii.eqb_spec x c) as [->|_]; [congruence|].
    now rewrite IH.
Qed.

Lemma FindProcesses_pgrep_output pids :
  Forall (fun pid => - 2 ^ 63 <= pid < 2 ^ 63) pids ->
  flat_map pgrep_line (Split (pgrep_output pids) "010"%char) =
  map (fun pid => {| PID := pid; Name := "ffmpeg" |}) pids.
Proof.
  induction pids as [|pid pids IH]; intros H; [reflexivity|].
  inversion H; subst. cbn [pgrep_output foldr]. fold (pgrep_output pids).
  rewrite Split_line.
  - cbn [flat_map map]. rewrite pgrep_line_Sprint by assumption. now rewrite IH.
  - eapply Forall_impl; [apply Sprint_chars|]. now intros c [_ ?].
Qed.
End ProcessManagers.


Section Tasklist.
Import gostrings gofmt.

Lemma string_app_assoc (a b c : string) : (a +:+ b) +:+ c = a +:+ (b +:+ c).
Proof.
  induction a as [|x a IH]; [reflexivity|].
  change ((String x a +:+ b) +:+ c) with (String x ((a +:+ b) +:+ c)). now rewrite IH.
Qed.

Lemma Sprint_numeric n : Forall (fun c => numeric c = true) (chars (Sprint n)).
Proof.
  assert (Hd : forall s, digits s -> Forall (fun c => numeric c = true) (chars s)).
  { intros s H. eapply Forall_impl; [exact H|]. intros c [d Hc]. unfold numeric. now rewrite Hc. }
  unfold Sprint, pretty, pretty_Z. destruct n as [|p|p].
  - repeat constructor.
  - apply Hd, digits_pretty_N.
  - change ("-" +:+ pretty p) with (String "-" (pretty p)). constructor; [reflexivity|].
    apply Hd, digits_pretty_N.
Qed.

Lemma numeric_not_cut c : numeric c = true -> inCutset tasklist_cutset c = false.
Proof.
  intros H. destruct c as [[] [] [] [] [] [] [] []]; try discriminate H; reflexivity.
Qed.

Lemma numeric_not_comma c : numeric c = true -> c <> ","%char.
Proof. intros H ->. discriminate H. Qed.

Lemma TrimRight_keeps s cutset :
  s <> "" -> Forall (fun c => inCutset cutset c = false) (chars s) ->
  TrimRight s cutset = s.
Proof.
  induction s as [|c s IH]; intros Hne H; [congruence|].
  inversion H as [|? ? Hc Hs]; subst. cbn [TrimRight].
  destruct s as [|c' s'].
  - cbn [TrimRight]. now rewrite Hc.
  - rewrite IH by (try discriminate; exact Hs). reflexivity.
Qed.

Lemma TrimRight_cut s q cutset :
  s <> "" -> Forall (fun c => inCutset cutset c = false) (chars s) ->
  inCutset cutset q = true ->
  TrimRight (s +:+ String q "") cutset = s.
Proof.
  induction s as [|c s IH]; intros Hne H Hq; [congruence|].
  inversion H as [|? ? Hc Hs]; subst.
  change (String c s +:+ String q "") with (String c (s +:+ String q "")).
  cbn [TrimRight]. destruct s as [|c' s'].
  - change (TrimRight ("" +:+ String q "") cutset)
      with (if inCutset cutset q then "" else String q "").
    now rewrite Hq, Hc.
  - rewrite IH by (try discriminate; assumption). reflexivity.
Qed.

Lemma Trim_quoted_number n :
  Trim (String quote (Sprint n +:+ String quote "")) tasklist_cutset = Sprint n.
Proof.
  pose proof (Sprint_nonempty n) as Hne. pose proof (Sprint_numeric n) as Hnum.
  assert (Hcut : Forall (fun c => inCutset tasklist_cutset c = false) (chars (Sprint n))).
  { eapply Forall_impl; [exact Hnum|]. apply numeric_not_cut. }
  unfold Trim. cbn [TrimRight].
  rewrite TrimRight_cut by (try assumption; reflexivity).
  destruct (Sprint n) as [|c s] eqn:E; [congruence|].
  inversion Hcut as [|? ? Hc Hs]; subst. cbn [TrimLeft].
  change (inCutset tasklist_cutset quote) with true. cbv iota.
  cbn [TrimLeft]. now rewrite Hc.
Qed.

Lemma Split_quoted_number n T :
  Split (String quote (Sprint n +:+ String quote (String "," T))) "," =
  String quote (Sprint n +:+ String quote "") :: Split T ",".
Proof.
  replace (String quote (Sprint n +:+ String quote (String "," T)))
    with (String quote (Sprint n +:+ String quote "") +:+ String "," T).
  - apply Split_line. constructor; [discriminate|].
    rewrite chars_app. apply Forall_app. split.
    + eapply Forall_impl; [apply Sprint_numeric|]. apply numeric_not_comma.
    + repeat constructor. discriminate.
  - change (String quote (Sprint n +:+ String quote "") +:+ String "," T)
      with (String quote ((Sprint n +:+ String quote "") +:+ String "," T)).
    now rewrite string_app_assoc.
Qed.

Lemma tasklist_line_row n columns :
  - 2 ^ 63 <= n < 2 ^ 63 ->
  tasklist_line
    (String quote "ffmpeg.exe" +:+ String quote "," +:+
     String quote (Sprint n) +:+ String quote "," +:+ columns +:+ String "013" "") =
  [ {| PID := n; Name := "ffmpeg.exe" |} ].
Proof.
  intros Hn. unfold tasklist_line.
  set (T := columns +:+ String "013" "").
  change (String quote "ffmpeg.exe" +:+ String quote "," +:+
          String quote (Sprint n) +:+ String quote "," +:+ T)
    with (String quote "ffmpeg.exe" +:+
          String quote (String "," (String quote (Sprint n +:+ String quote (String "," T))))).
  set (R := String quote (Sprint n +:+ String quote (String "," T))).
  assert (Hc : Contains (String quote "ffmpeg.exe" +:+ String quote (String "," R))
                 "ffmpeg.exe" = true) by reflexivity.
  rewrite Hc.
  assert (Hs : Split (String quote "ffmpeg.exe" +:+ String quote (String "," R)) "," =
               (String quote "ffmpeg.exe" +:+ String quote "") :: Split R ",") by reflexivity.
  rewrite Hs. subst R. rewrite Split_quoted_number, Trim_quoted_number.
  now rewrite Sscanf_d_Sprint.
Qed.

Lemma tasklist_row_no_newline n columns :
  Forall (fun c => c <> "010"%char) (chars columns) ->
  Forall (fun c => c <> "010"%char)
    (chars (String quote "ffmpeg.exe" +:+ String quote "," +:+
            String quote (Sprint n) +:+ String quote "," +:+ columns +:+ String "013" "")).
Proof.
  intros H.
  change (String quote "ffmpeg.exe" +:+ String quote "," +:+
          String quote (Sprint n) +:+ String quote "," +:+ columns +:+ String "013" "")
    with (String quote "ffmpeg.exe" +:+
          String quote (String "," (String quote
            (Sprint n +:+ String quote (String "," (columns +:+ String "013" "")))))).
  rewrite chars_app. apply Forall_app. split; [repeat constructor; discriminate|].
  cbn [chars]. repeat (constructor; [discriminate|]).
  rewrite chars_app. apply Forall_app. split.
  - eapply Forall_impl; [apply Sprint_chars|]. now intros c [_ ?].
  - cbn [chars]. repeat (constructor; [discriminate|]).
    rewrite chars_app. apply Forall_app. split; [exact H|]. repeat constructor. discriminate.
Qed.

Lemma FindProcesses_tasklist_output rows :
  Forall (fun row : Z * string =>
            - 2 ^ 63 <= row.1 < 2 ^ 63 /\
            Forall (fun c => c <> "010"%char) (chars row.2)) rows ->
  flat_map tasklist_line (Split (tasklist_output rows) "010"%char) =
  map (fun row : Z * string => {| PID := row.1; Name := "ffmpeg.exe" |}) rows.
Proof.
  induction rows as [|[pid columns] rows IH]; intros H; [reflexivity|].
  inversion H as [|? ? [Hpid Hcols] Hrows]; subst. cbn [fst snd] in *.
  cbn [tasklist_output foldr fst snd]. fold (tasklist_output rows).
  unfold tasklist_row.
  replace ((String quote "ffmpeg.exe" +:+ String quote "," +:+
            String quote (Sprint pid) +:+ String quote "," +:+
            columns +:+ String "013" (String "010" "")) +:+ tasklist_output rows)
    with ((String quote "ffmpeg.exe" +:+ String quote "," +:+
           String quote (Sprint pid) +:+ String quote "," +:+ columns +:+ String "013" "")
          +:+ String "010" (tasklist_output rows)).
  - rewrite Split_line by (apply tasklist_row_no_newline; exact Hcols).
    cbn [flat_map map fst]. rewrite tasklist_line_row by exact Hpid. now rewrite IH.
  - rewrite !string_app_assoc. reflexivity.
Qed.
End Tasklist.


(** ** Retention of backups *)

Section Retention.
Import backup.

Lemma expendable_at_in_force retention now i backup :
  expendable_at retention (maxAgeInForce retention) now i backup =
  expendable retention now i backup.
Proof. reflexivity. Qed.

Lemma Contains_spec (bs : BackupSet) id : Contains bs id = true <-> is_Some (bs !! id).
Proof. unfold Contains. apply bool_decide_eq_true. Qed.

(** What one turn of the marking loop does to the set. *)
Lemma mark_set retention maxAge now bs events i backup :
  let bs' := (mark retention maxAge now (bs, events) i backup).1 in
  (expendable_at retention maxAge now i backup = true ->
   bs' = Add bs backup \/ (bs' = bs /\ is_Some (bs !! ID backup))) /\
  (expendable_at retention maxAge now i backup = false -> bs' = bs).
Proof.
  unfold mark, expendable_at. cbv zeta.
  destruct ((0 <? MinBackups retention) && (Z.of_nat i <? MinBackups retention)) eqn:Ekeep;
    cbn [negb andb].
  - destruct (Contains bs (ID backup)); split; intros; try discriminate; reflexivity.
  - destruct (0 <? maxAge) eqn:Eage.
    + destruct (Z.ltb_spec (now - maxAge) (Timestamp backup)) as [Hlt|Hge].
      * destruct (Z.leb_spec (Timestamp backup) (now - maxAge)); [lia|].
        split; intros; try discriminate; reflexivity.
      * destruct (Z.leb_spec (Timestamp backup) (now - maxAge)); [|lia].
        split; intros; try discriminate. left. reflexivity.
    + destruct (0 <? MaxBackups retention) eqn:Emax.
      * destruct (Z.ltb_spec (Z.of_nat i) (MaxBackups retention)) as [Hlt|Hge].
        -- destruct (Z.leb_spec (MaxBackups retention) (Z.of_nat i)); [lia|].
           split; intros; try discriminate; reflexivity.
        -- destruct (Z.leb_spec (MaxBackups retention) (Z.of_nat i)); [|lia].
           split; intros; try discriminate. left. reflexivity.
      * destruct (Contains bs (ID backup)) eqn:Ec; cbn [negb].
        -- split; intros; try discriminate. right. split; [reflexivity|].
           now apply Contains_spec.
        -- split; intros; try discriminate. left. reflexivity.
Qed.

(** The marking loop only writes to the log. *)
Lemma mark_events retention maxAge now bs events i backup :
  exists logged,
    (mark retention maxAge now (bs, events) i backup).2 = events ++ logged /\
    forall id, EvDelete id ∉ logged.
Proof.
  unfold mark. cbv zeta.
  repeat match goal with
         | |- context [if ?c then _ else _] => destruct c
         end; cbn [snd];
    first [ exists []; split; [now rewrite app_nil_r | intros id H; inversion H]
          | eexists [_]; split; [reflexivity|];
            intros id H; apply list_elem_of_singleton in H; discriminate ].
Qed.

Lemma keyed_Add bs b : keyed bs -> keyed (Add bs b).
Proof.
  intros H id b'. unfold Add. destruct (decide (id = ID b)) as [->|Hne].
  - rewrite lookup_insert_eq. now intros [= <-].
  - rewrite lookup_insert_ne by congruence. apply H.
Qed.

Lemma mark_all_spec retention maxAge now backups : forall bs events i,
  keyed bs ->
  let result := mark_all retention maxAge now (bs, events) i backups in
  keyed result.1 /\
  (forall id,
      is_Some (result.1 !! id) <->
      is_Some (bs !! id) \/
      exists j b, backups !! j = Some b /\ ID b = id /\
                  expendable_at retention maxAge now (i + j) b = true) /\
  (exists logged, result.2 = events ++ logged /\ forall id, EvDelete id ∉ logged).
Proof.
  induction backups as [|backup rest IH]; intros bs events i Hk.
  - cbn. split; [exact Hk|]. split.
    + intros id. split; [auto|]. intros [H|(j & b & H & _)]; [exact H|].
      rewrite lookup_nil in H. discriminate.
    + exists []. split; [now rewrite app_nil_r | intros id H; inversion H].
  - cbn [mark_all].
    destruct (mark retention maxAge now (bs, events) i backup) as [bs1 events1] eqn:E.
    pose proof (mark_set retention maxAge now bs events i backup) as [Hyes Hno].
    destruct (mark_events retention maxAge now bs events i backup) as (l1 & Hl1 & Hd1).
    rewrite E in Hyes, Hno, Hl1. cbn [fst snd] in Hyes, Hno, Hl1.
    assert (Hk1 : keyed bs1).
    { destruct (expendable_at retention maxAge now i backup).
      - destruct (Hyes eq_refl) as [->|[-> _]]; [now apply keyed_Add | exact Hk].
      - now rewrite (Hno eq_refl). }
    destruct (IH bs1 events1 (S i) Hk1) as (Hk' & Hdom & (l2 & Hl2 & Hd2)).
    split; [exact Hk'|]. split.
    + intros id. rewrite Hdom. split.
      * intros [H|(j & b & Hj & Hid & He)].
        -- destruct (expendable_at retention maxAge now i backup) eqn:Ee.
           ++ destruct (Hyes eq_refl) as [->|[-> _]]; [|now left].
              unfold Add in H. destruct (decide (id = ID backup)) as [->|Hne].
              ** right. exists 0%nat, backup. rewrite Nat.add_0_r. auto.
              ** rewrite lookup_insert_ne in H by congruence. now left.
           ++ rewrite (Hno eq_refl) in H. now left.
        -- right. exists (S j), b. replace (i + S j)%nat with (S i + j)%nat by lia. auto.
      * intros [H|(j & b & Hj & Hid & He)].
        -- left. destruct (expendable_at retention maxAge now i backup).
           ++ destruct (Hyes eq_refl) as [->|[-> _]]; [|exact H].
              unfold Add. destruct (decide (id = ID backup)) as [->|Hne].
              ** rewrite lookup_insert_eq. eauto.
              ** now rewrite lookup_insert_ne by congruence.
           ++ now rewrite (Hno eq_refl).
        -- destruct j as [|j].
           ++ cbn in Hj. injection Hj as <-. rewrite Nat.add_0_r in He. left.
              destruct (Hyes He) as [->|[-> Hs]].
              ** unfold Add. subst id. rewrite lookup_insert_eq. eauto.
              ** now subst id.
           ++ right. exists j, b. replace (S i + j)%nat with (i + S j)%nat by lia. auto.
    + exists (l1 ++ l2). split.
      * rewrite Hl2, Hl1. now rewrite app_assoc.
      * intros id H. apply elem_of_app in H as [H|H]; [now apply (Hd1 id) | now apply (Hd2 id)].
Qed.

Lemma deleted_ids_app l1 l2 : deleted_ids (l1 ++ l2) = deleted_ids l1 ++ deleted_ids l2.
Proof. unfold deleted_ids. apply flat_map_app. Qed.

Lemma elem_of_deleted_ids id events : id ∈ deleted_ids events <-> EvDelete id ∈ events.
Proof.
  unfold deleted_ids. rewrite elem_of_flat_map. split.
  - intros (e & He & H). destruct e; [|inversion H].
    apply list_elem_of_singleton in H. now subst.
  - intros H. exists (EvDelete id). split; [exact H | apply list_elem_of_here].
Qed.

Lemma delete_all_spec ctx target marked : forall k deleted deleteErrors events,
  (forall k, Done ctx k = false) ->
  let result := delete_all ctx target marked k deleted deleteErrors events in
  deleted_ids result.1 = deleted_ids events ++ map (fun e => ID (snd e)) marked /\
  ((forall done id, Delete target done id = None) -> result.2 = combineErrors deleteErrors).
Proof.
  induction marked as [|[id backup] rest IH]; intros k deleted deleteErrors events Hctx.
  - cbn. rewrite deleted_ids_app. cbn. rewrite !app_nil_r. auto.
  - cbn [delete_all]. rewrite Hctx. unfold deleteBackupWithTimeout.
    destruct (Delete target deleted (ID backup)) as [err|] eqn:Ed.
    + destruct (IH (S k) (deleted ++ [ID backup]) (deleteErrors ++ [err])
                  (events ++ [EvLog "INFO" "Deleting backup"; EvDelete (ID backup);
                              EvLog "ERROR" "Failed to delete backup"]) Hctx) as [H1 H2].
      split.
      * rewrite H1, deleted_ids_app. cbn. now rewrite <- app_assoc.
      * intros Hok. rewrite Hok in Ed. discriminate.
    + destruct (IH (S k) (deleted ++ [ID backup]) deleteErrors
                  (events ++ [EvLog "INFO" "Deleting backup"; EvDelete (ID backup);
                              EvLog "INFO" "Successfully deleted backup"]) Hctx) as [H1 H2].
      split.
      * rewrite H1, deleted_ids_app. cbn. now rewrite <- app_assoc.
      * exact H2.
Qed.

Lemma delete_all_sound ctx target marked : forall k deleted deleteErrors events id,
  id ∈ deleted_ids (delete_all ctx target marked k deleted deleteErrors events).1 ->
  id ∈ deleted_ids events \/ id ∈ map (fun e => ID (snd e)) marked.
Proof.
  induction marked as [|[key backup] rest IH]; intros k deleted deleteErrors events id.
  - cbn. rewrite deleted_ids_app. cbn. rewrite app_nil_r. auto.
  - cbn [delete_all]. destruct (Done ctx k).
    + cbn [fst]. rewrite deleted_ids_app. cbn. rewrite app_nil_r. auto.
    + unfold deleteBackupWithTimeout.
      destruct (Delete target deleted (ID backup)) as [err|]; intros H;
        apply IH in H as [H|H]; cbn [map snd];
        try (right; apply list_elem_of_further; exact H);
        rewrite deleted_ids_app in H; apply elem_of_app in H as [H|H]; auto;
        cbn in H; apply list_elem_of_singleton in H; subst; right; apply list_elem_of_here.
Qed.

Lemma mark_all_from_empty retention maxAge now backups events :
  let result := mark_all retention maxAge now (∅, events) 0 backups in
  keyed result.1 /\
  (forall id,
      is_Some (result.1 !! id) <->
      exists i b, backups !! i = Some b /\ ID b = id /\
                  expendable_at retention maxAge now i b = true) /\
  deleted_ids result.2 = deleted_ids events.
Proof.
  destruct (mark_all_spec retention maxAge now backups ∅ events 0) as (Hk & Hdom & l & Hl & Hd).
  { intros id b H. rewrite lookup_empty in H. discriminate. }
  cbv zeta. split; [exact Hk|]. split.
  - intros id. rewrite Hdom. split.
    + intros [H|H]; [|exact H]. rewrite lookup_empty in H. destruct H. discriminate.
    + auto.
  - rewrite Hl, deleted_ids_app.
    assert (deleted_ids l = []) as ->; [|apply app_nil_r].
    destruct (deleted_ids l) as [|id rest] eqn:E; [reflexivity|].
    exfalso. apply (Hd id). apply elem_of_deleted_ids. rewrite E. apply list_elem_of_here.
Qed.

(** The ids of the marked backups, in the order of the traversal. *)
Lemma range_ids (order : MapRange BackupInfo) (bs : gmap string BackupInfo) :
  keyed bs ->
  map (fun e => ID (snd e)) (range order bs) = map fst (range order bs).
Proof.
  intros Hk. apply List.map_ext_in. intros [id b] Hin. cbn.
  apply Hk. apply elem_of_map_to_list. rewrite <- (range_perm order bs).
  now apply list_elem_of_In.
Qed.

Lemma elem_of_range_ids (order : MapRange BackupInfo) (bs : gmap string BackupInfo) id :
  id ∈ map fst (range order bs) <-> is_Some (bs !! id).
Proof.
  rewrite (range_perm order bs). change (map fst ?l) with (fst <$> l).
  rewrite list_elem_of_fmap. split.
  - intros ([k b] & -> & H). apply elem_of_map_to_list in H. cbn. eauto.
  - intros [b H]. exists (id, b). split; [reflexivity|]. now apply elem_of_map_to_list.
Qed.

Lemma NoDup_range_ids (order : MapRange BackupInfo) (bs : gmap string BackupInfo) :
  NoDup (map fst (range order bs)).
Proof.
  rewrite (range_perm order bs). apply NoDup_fst_map_to_list.
Qed.

(** [enforceRetentionPolicy], in terms of its two loops. *)
Lemma enforceRetentionPolicy_unfold order now ctx target backups retention :
  backups <> [] ->
  exists events0,
    deleted_ids events0 = [] /\
    enforceRetentionPolicy order now ctx target backups retention =
    delete_all ctx target
      (range order (mark_all retention (maxAgeInForce retention) now
                      (∅, events0) 0 backups).1)
      0 [] []
      (mark_all retention (maxAgeInForce retention) now (∅, events0) 0 backups).2.
Proof.
  intros Hne. unfold enforceRetentionPolicy, maxAgeInForce.
  destruct backups as [|b rest]; [congruence|].
  destruct (parseRetentionAge (MaxAge retention)) as [d [err|]].
  - exists ([EvLog "INFO" "Enforcing retention policy"] ++
            [EvLog "WARN" "Invalid MaxAge format in retention policy, skipping age-based retention"]).
    split; [reflexivity|].
    destruct (mark_all _ _ _ _ _ _) as [bs ev]. reflexivity.
  - exists [EvLog "INFO" "Enforcing retention policy"].
    split; [reflexivity|].
    destruct (mark_all _ _ _ _ _ _) as [bs ev]. reflexivity.
Qed.
End Retention.


Section RetentionAge.
Import gostrings gofmt backup.

Lemma Sscanf_d_s_unit n (u : ascii) :
  - 2 ^ 63 <= n < 2 ^ 63 -> plain u = true -> digit u = None ->
  Sscanf_d_s (Sprint n +:+ String u "") = inl (n, String u "").
Proof.
  intros Hn Hu Hd. unfold Sscanf_d_s.
  assert (Hp : pieces (String u "") = [Other u]) by now rewrite pieces_plain.
  rewrite scanInt_Sprint; [|exact Hn|rewrite Hp; exact Hd].
  rewrite Hp. reflexivity.
Qed.

Lemma Sscanf_d_s_no_unit n :
  - 2 ^ 63 <= n < 2 ^ 63 -> Sscanf_d_s (Sprint n) = inr EOF.
Proof.
  intros Hn. unfold Sscanf_d_s. rewrite <- (string_app_nil_r (Sprint n)).
  rewrite scanInt_Sprint; [reflexivity | exact Hn | exact I].
Qed.

Lemma Sprint_unit_nonempty n (u : string) : String.eqb (Sprint n +:+ u) "" = false.
Proof.
  destruct (String.eqb_spec (Sprint n +:+ u) "") as [E|]; [|reflexivity].
  pose proof (Sprint_nonempty n) as H. destruct (Sprint n); [congruence | discriminate E].
Qed.

Lemma int64_id z : - 2 ^ 63 <= z < 2 ^ 63 -> int64 z = z.
Proof. intros H. unfold int64. apply wrap_signed_id; [lia | exact H]. Qed.

Lemma parseRetentionAge_days n :
  0 <= n <= 106751 -> parseRetentionAge (Sprint n +:+ "d") = (n * 24 * Hour, None).
Proof.
  intros H. unfold parseRetentionAge. rewrite Sprint_unit_nonempty.
  rewrite Sscanf_d_s_unit by (try reflexivity; lia). cbn [String.eqb Ascii.eqb Bool.eqb].
  change Hour with 3600000000000 in *.
  rewrite (int64_id (n * 24)) by lia. rewrite int64_id by lia. reflexivity.
Qed.

Lemma parseRetentionAge_months n :
  0 <= n <= 3558 -> parseRetentionAge (Sprint n +:+ "m") = (n * 30 * 24 * Hour, None).
Proof.
  intros H. unfold parseRetentionAge. rewrite Sprint_unit_nonempty.
  rewrite Sscanf_d_s_unit by (try reflexivity; lia). cbn [String.eqb Ascii.eqb Bool.eqb].
  change Hour with 3600000000000 in *.
  rewrite (int64_id (n * 30)) by lia. rewrite (int64_id (n * 30 * 24)) by lia.
  rewrite int64_id by lia. reflexivity.
Qed.

Lemma parseRetentionAge_years n :
  0 <= n <= 292 -> parseRetentionAge (Sprint n +:+ "y") = (n * 365 * 24 * Hour, None).
Proof.
  intros H. unfold parseRetentionAge. rewrite Sprint_unit_nonempty.
  rewrite Sscanf_d_s_unit by (try reflexivity; lia). cbn [String.eqb Ascii.eqb Bool.eqb].
  change Hour with 3600000000000 in *.
  rewrite (int64_id (n * 365)) by lia. rewrite (int64_id (n * 365 * 24)) by lia.
  rewrite int64_id by lia. reflexivity.
Qed.

Lemma parseRetentionAge_no_unit n :
  - 2 ^ 63 <= n < 2 ^ 63 ->
  parseRetentionAge (Sprint n) =
    (0, Some (NewError ErrValidation "invalid retention age format: %s" [Sprint n] []
                (Some (ScanFailed EOF)))).
Proof.
  intros H. unfold parseRetentionAge.
  destruct (String.eqb_spec (Sprint n) "") as [E|_]; [now apply Sprint_nonempty in E|].
  now rewrite Sscanf_d_s_no_unit.
Qed.

Lemma token_others s : token (map Other (chars s)) = s.
Proof. induction s as [|c s IH]; [reflexivity|]. cbn. now rewrite IH. Qed.

(** A number followed by a word: [%d] reads the number and [%s] the whole
    word. *)
Lemma Sscanf_d_s_word n (c : ascii) (rest : string) :
  - 2 ^ 63 <= n < 2 ^ 63 ->
  Forall (fun b => plain b = true) (chars (String c rest)) -> digit c = None ->
  Sscanf_d_s (Sprint n +:+ String c rest) = inl (n, String c rest).
Proof.
  intros Hn Hplain Hd. unfold Sscanf_d_s.
  pose proof (pieces_all_plain _ Hplain) as Hp.
  rewrite scanInt_Sprint; [|exact Hn|rewrite Hp; exact Hd].
  rewrite Hp. cbn [chars map SkipSpace token]. now rewrite token_others.
Qed.

Lemma parseRetentionAge_other_unit n (c : ascii) (rest : string) :
  - 2 ^ 63 <= n < 2 ^ 63 ->
  Forall (fun b => plain b = true) (chars (String c rest)) -> digit c = None ->
  String c rest <> "d"%string -> String c rest <> "m"%string ->
  String c rest <> "y"%string ->
  parseRetentionAge (Sprint n +:+ String c rest) =
    (0, Some (NewError ErrValidation "invalid retention age unit: %s"
                [String c rest] [] None)).
Proof.
  intros Hn Hplain Hd Hnd Hnm Hny. unfold parseRetentionAge.
  rewrite Sprint_unit_nonempty. rewrite Sscanf_d_s_word by assumption.
  apply String.eqb_neq in Hnd, Hnm, Hny. now rewrite Hnd, Hnm, Hny.
Qed.
End RetentionAge.

Section Stats.
Import backup.

Lemma counted_snoc first seen stats b :
  counted first seen stats -> counted first (seen ++ [b]) (count stats b).
Proof.
  intros [Ht Hd Hw Ho Hn Hoi Hni Hb]. split; cbn [count TotalBackups DailyBackups
    WeeklyBackups OldestBackup NewestBackup].
  - rewrite length_app. cbn. lia.
  - rewrite filter_app, length_app. destruct (IsDaily b) eqn:E.
    + rewrite (filter_cons_True _ b []) by exact E. cbn. lia.
    + rewrite (filter_cons_False _ b []) by congruence. cbn. lia.
  - rewrite filter_app, length_app. destruct (IsDaily b) eqn:E.
    + rewrite (filter_cons_False _ b []) by congruence. cbn. lia.
    + rewrite (filter_cons_True _ b []) by exact E. cbn. lia.
  - intros b' [H|H]%elem_of_app.
    + specialize (Ho b' H). destruct (Z.ltb_spec (Timestamp b) (OldestBackup stats)); lia.
    + apply list_elem_of_singleton in H. subst b'.
      destruct (Z.ltb_spec (Timestamp b) (OldestBackup stats)); lia.
  - intros b' [H|H]%elem_of_app.
    + specialize (Hn b' H). destruct (Z.ltb_spec (NewestBackup stats) (Timestamp b)); lia.
    + apply list_elem_of_singleton in H. subst b'.
      destruct (Z.ltb_spec (NewestBackup stats) (Timestamp b)); lia.
  - destruct (Z.ltb_spec (Timestamp b) (OldestBackup stats)).
    + right. exists b. split; [|reflexivity]. apply elem_of_app. right. apply list_elem_of_here.
    + destruct Hoi as [H'|(b' & Hin & H')]; [now left|].
      right. exists b'. split; [|exact H']. apply elem_of_app. now left.
  - destruct (Z.ltb_spec (NewestBackup stats) (Timestamp b)).
    + right. exists b. split; [|reflexivity]. apply elem_of_app. right. apply list_elem_of_here.
    + destruct Hni as [H'|(b' & Hin & H')]; [now left|].
      right. exists b'. split; [|exact H']. apply elem_of_app. now left.
  - destruct (Z.ltb_spec (Timestamp b) (OldestBackup stats)),
             (Z.ltb_spec (NewestBackup stats) (Timestamp b)); lia.
Qed.

Lemma counted_foldl first backups : forall seen stats,
  counted first seen stats -> counted first (seen ++ backups) (foldl count stats backups).
Proof.
  induction backups as [|b rest IH]; intros seen stats H.
  - now rewrite app_nil_r.
  - cbn [foldl]. replace (seen ++ b :: rest) with ((seen ++ [b]) ++ rest)
      by now rewrite <- app_assoc.
    apply IH, counted_snoc, H.
Qed.

Lemma targetStats_counted backups state :
  let first := match backups with b :: _ => Timestamp b | [] => zeroTime end in
  counted first backups (targetStats backups state).
Proof.
  intros first. unfold targetStats. fold first.
  match goal with
  | |- context [foldl count ?init backups] =>
      pose proof (counted_foldl first backups [] init) as H; set (c := foldl count init backups) in *
  end.
  destruct H as [Ht Hd Hw Ho Hn Hoi Hni Hb].
  { split; cbn; try reflexivity; try lia; try (now left);
      intros b Hin; inversion Hin. }
  cbn [app] in *. split; cbn [TotalBackups DailyBackups WeeklyBackups OldestBackup
    NewestBackup]; assumption.
Qed.
End Stats.


(** X15: [enforceRetentionPolicy] deletes only what the rules give up.
    Every id [Delete] is called with is the id of a backup of the list that
    is [expendable] at its index, and that index is not below [MinBackups]:
    when ids are unique, the newest [MinBackups] backups are never deleted,
    cancelled or not. *)
Theorem enforceRetentionPolicy_deletes_only_expendable
    order now ctx target backups retention id :
  id ∈ deleted_ids (backup.enforceRetentionPolicy order now ctx target backups retention).1 ->
  exists i b,
    backups !! i = Some b /\ backup.ID b = id /\
    backup.expendable retention now i b = true /\
    backup.MinBackups retention <= Z.of_nat i.
Proof.
  intros H. destruct backups as [|b0 rest]; [inversion H|].
  destruct (enforceRetentionPolicy_unfold order now ctx target (b0 :: rest) retention)
    as (events0 & H0 & E); [discriminate|].
  rewrite E in H. clear E.
  destruct (mark_all_from_empty retention (backup.maxAgeInForce retention) now (b0 :: rest) events0)
    as (Hk & Hdom & Hev).
  apply delete_all_sound in H as [H|H].
  - rewrite Hev, H0 in H. inversion H.
  - rewrite range_ids in H by exact Hk. apply elem_of_range_ids in H.
    apply Hdom in H as (i & b & Hi & Hid & He). exists i, b.
    split; [exact Hi|]. split; [exact Hid|]. split; [exact He|].
    unfold expendable_at in He. apply andb_true_iff in He as [He _].
    apply negb_true_iff, andb_false_iff in He as [He|He].
    + apply Z.ltb_ge in He. lia.
    + now apply Z.ltb_ge in He.
Qed.

Lemma enforceRetentionPolicy_deletes_only_expendable_witness :
  exists i b,
    three_backups !! i = Some b /\ backup.ID b = "a" /\
    backup.expendable no_limits (4 * 24 * backup.Hour) i b = true /\
    backup.MinBackups no_limits <= Z.of_nat i.
Proof.
  apply (enforceRetentionPolicy_deletes_only_expendable canonical_range
           (4 * 24 * backup.Hour) live_context obliging_target three_backups no_limits "a").
  vm_compute. apply list_elem_of_here.
Defined.

Lemma retention_deletions order now ctx target backups retention :
  (forall k, backup.Done ctx k = false) ->
  NoDup (deleted_ids (backup.enforceRetentionPolicy order now ctx target backups retention).1) /\
  (forall i b,
      backups !! i = Some b -> backup.expendable retention now i b = true ->
      backup.ID b ∈
        deleted_ids (backup.enforceRetentionPolicy order now ctx target backups retention).1) /\
  ((forall done id, backup.Delete target done id = None) ->
   (backup.enforceRetentionPolicy order now ctx target backups retention).2 = None).
Proof.
  intros Hctx. destruct backups as [|b0 rest].
  { cbn. split; [constructor|]. split; [|reflexivity].
    intros i b H. rewrite lookup_nil in H. discriminate. }
  destruct (enforceRetentionPolicy_unfold order now ctx target (b0 :: rest) retention)
    as (events0 & H0 & E); [discriminate|].
  rewrite E. clear E.
  destruct (mark_all_from_empty retention (backup.maxAgeInForce retention) now (b0 :: rest) events0)
    as (Hk & Hdom & Hev).
  match goal with
  | |- context [backup.delete_all ?c ?t ?m ?k ?d ?e ?ev] =>
      destruct (delete_all_spec c t m k d e ev Hctx) as [Hids Hres]
  end.
  rewrite Hids, Hev, H0, app_nil_l, range_ids by exact Hk.
  split; [apply NoDup_range_ids|]. split.
  - intros i b Hi He. apply elem_of_range_ids, Hdom. eauto.
  - exact Hres.
Qed.

(** X16: while the context is not done, [enforceRetentionPolicy] calls
    [Delete] exactly once for each id that is due: no id is deleted twice,
    every backup that is [expendable] at its index has its id deleted, and
    the result is nil when every deletion succeeds. *)
Theorem enforceRetentionPolicy_deletes_each_expendable_once
    order now ctx target backups retention :
  (forall k, backup.Done ctx k = false) ->
  NoDup (deleted_ids (backup.enforceRetentionPolicy order now ctx target backups retention).1) /\
  (forall i b,
      backups !! i = Some b -> backup.expendable retention now i b = true ->
      backup.ID b ∈
        deleted_ids (backup.enforceRetentionPolicy order now ctx target backups retention).1) /\
  ((forall done id, backup.Delete target done id = None) ->
   (backup.enforceRetentionPolicy order now ctx target backups retention).2 = None).
Proof. apply retention_deletions. Qed.

Lemma enforceRetentionPolicy_deletes_each_expendable_once_witness :
  NoDup (deleted_ids (backup.enforceRetentionPolicy canonical_range (4 * 24 * backup.Hour)
                        live_context obliging_target three_backups no_limits).1) /\
  (forall i b,
      three_backups !! i = Some b ->
      backup.expendable no_limits (4 * 24 * backup.Hour) i b = true ->
      backup.ID b ∈
        deleted_ids (backup.enforceRetentionPolicy canonical_range (4 * 24 * backup.Hour)
                       live_context obliging_target three_backups no_limits).1) /\
  ((forall done id, backup.Delete obliging_target done id = None) ->
   (backup.enforceRetentionPolicy canonical_range (4 * 24 * backup.Hour)
      live_context obliging_target three_backups no_limits).2 = None).
Proof.
  apply (enforceRetentionPolicy_deletes_each_expendable_once canonical_range
           (4 * 24 * backup.Hour) live_context obliging_target three_backups no_limits).
  reflexivity.
Defined.

(** X17: a retention policy without limits deletes everything but the
    minimum.  With an empty [MaxAge] and [MaxBackups] not positive, while
    the context is not done, every backup at an index not below
    [MinBackups] is deleted. *)
Theorem enforceRetentionPolicy_without_limits
    order now ctx target backups retention i b :
  (forall k, backup.Done ctx k = false) ->
  backup.MaxAge retention = "" -> backup.MaxBackups retention <= 0 ->
  backups !! i = Some b -> backup.MinBackups retention <= Z.of_nat i ->
  backup.ID b ∈
    deleted_ids (backup.enforceRetentionPolicy order now ctx target backups retention).1.
Proof.
  intros Hctx Hage Hmax Hi Hmin.
  destruct (retention_deletions order now ctx target backups retention Hctx) as (_ & H & _).
  apply (H i b Hi). unfold backup.expendable, backup.maxAgeInForce. rewrite Hage.
  cbn [backup.parseRetentionAge String.eqb]. cbn [Z.ltb Z.compare].
  destruct (Z.ltb_spec 0 (backup.MaxBackups retention)); [lia|].
  destruct (Z.ltb_spec (Z.of_nat i) (backup.MinBackups retention)); [lia|].
  now rewrite andb_false_r.
Qed.

Lemma enforceRetentionPolicy_without_limits_witness :
  backup.ID (stored "b" (2 * 24 * backup.Hour)) ∈
    deleted_ids (backup.enforceRetentionPolicy canonical_range (4 * 24 * backup.Hour)
                   live_context obliging_target three_backups no_limits).1.
Proof.
  apply (enforceRetentionPolicy_without_limits canonical_range (4 * 24 * backup.Hour)
           live_context obliging_target three_backups no_limits 1%nat);
    [reflexivity | reflexivity | vm_compute; congruence | reflexivity | vm_compute; congruence].
Defined.

(** X18: with a context that is done before the first deletion,
    [enforceRetentionPolicy] calls [Delete] for no backup.  It returns the
    error that combines [ctx.Err()] if some backup was due for deletion, and
    nil if none was. *)
Theorem enforceRetentionPolicy_cancelled order now ctx target backups retention :
  backup.Done ctx 0 = true ->
  deleted_ids (backup.enforceRetentionPolicy order now ctx target backups retention).1 = [] /\
  ((exists i b, backups !! i = Some b /\ backup.expendable retention now i b = true) ->
   (backup.enforceRetentionPolicy order now ctx target backups retention).2 =
     Some (backup.NewError backup.ErrUnknown "multiple errors occurred: %s" []
             [backup.CtxErr ctx] None)) /\
  ((forall i b, backups !! i = Some b -> backup.expendable retention now i b = false) ->
   (backup.enforceRetentionPolicy order now ctx target backups retention).2 = None).
Proof.
  intros Hctx. destruct backups as [|b0 rest].
  { cbn. split; [reflexivity|]. split; [|reflexivity].
    intros (i & b & H & _). rewrite lookup_nil in H. discriminate. }
  destruct (enforceRetentionPolicy_unfold order now ctx target (b0 :: rest) retention)
    as (events0 & H0 & E); [discriminate|].
  rewrite E. clear E.
  destruct (mark_all_from_empty retention (backup.maxAgeInForce retention) now (b0 :: rest) events0)
    as (Hk & Hdom & Hev).
  set (result := backup.mark_all retention (backup.maxAgeInForce retention) now (∅, events0) 0
                   (b0 :: rest)) in *.
  destruct (range order result.1) as [|[id b] marked] eqn:Er.
  - cbn [backup.delete_all fst snd backup.combineErrors].
    rewrite deleted_ids_app, Hev, H0. split; [reflexivity|]. split; [|reflexivity].
    intros (i & b & Hi & He). exfalso.
    assert (Hs : is_Some (result.1 !! backup.ID b)) by (apply Hdom; eauto).
    apply elem_of_range_ids with (order := order) in Hs. rewrite Er in Hs. inversion Hs.
  - cbn [backup.delete_all]. rewrite Hctx. cbn [fst snd app backup.combineErrors].
    rewrite deleted_ids_app, Hev, H0. split; [reflexivity|]. split; [reflexivity|].
    intros Hnone. exfalso.
    assert (Hs : is_Some (result.1 !! id)).
    { apply elem_of_range_ids with (order := order). rewrite Er. cbn. apply list_elem_of_here. }
    apply Hdom in Hs as (i & b' & Hi & _ & He).
    rewrite expendable_at_in_force, (Hnone i b' Hi) in He. discriminate.
Qed.

Lemma enforceRetentionPolicy_cancelled_witness :
  deleted_ids (backup.enforceRetentionPolicy canonical_range (4 * 24 * backup.Hour)
                 cancelled_context obliging_target three_backups no_limits).1 = [] /\
  (backup.enforceRetentionPolicy canonical_range (4 * 24 * backup.Hour)
     cancelled_context obliging_target three_backups no_limits).2 =
    Some (backup.NewError backup.ErrUnknown "multiple errors occurred: %s" []
            [backup.CtxErr cancelled_context] None).
Proof.
  destruct (enforceRetentionPolicy_cancelled canonical_range (4 * 24 * backup.Hour)
              cancelled_context obliging_target three_backups no_limits eq_refl)
    as (H1 & H2 & _).
  split; [exact H1|]. apply H2. exists 1%nat, (stored "b" (2 * 24 * backup.Hour)).
  split; reflexivity.
Defined.


(** X20: [GetBackupStats] always returns a nil error and leaves out the
    targets whose listing fails.  For a target that lists its backups,
    [TotalBackups] is their number, [DailyBackups] the number of those
    flagged daily, [WeeklyBackups] the number of all others (daily and
    weekly add up to the total), and [OldestBackup] and [NewestBackup] are
    the smallest and the largest timestamp of the list (the zero time when
    the list is empty). *)
Theorem GetBackupStats_counts targets stateManager :
  (backup.GetBackupStats targets stateManager).2 = None /\
  (forall name err,
      targets !! name = Some (inr err) ->
      (backup.GetBackupStats targets stateManager).1 !! name = None) /\
  (forall name backups,
      targets !! name = Some (inl backups) ->
      exists stats,
        (backup.GetBackupStats targets stateManager).1 !! name = Some stats /\
        backup.TotalBackups stats = Z.of_nat (length backups) /\
        backup.DailyBackups stats =
          Z.of_nat (length (filter (fun b => backup.IsDaily b = true) backups)) /\
        backup.DailyBackups stats + backup.WeeklyBackups stats = backup.TotalBackups stats /\
        (forall b, b ∈ backups ->
                   backup.OldestBackup stats <= backup.Timestamp b <= backup.NewestBackup stats) /\
        (backups <> [] ->
         (exists b, b ∈ backups /\ backup.OldestBackup stats = backup.Timestamp b) /\
         (exists b, b ∈ backups /\ backup.NewestBackup stats = backup.Timestamp b)) /\
        (backups = [] ->
         backup.OldestBackup stats = backup.zeroTime /\
         backup.NewestBackup stats = backup.zeroTime)).
Proof.
  split; [reflexivity|]. split.
  - intros name err H. unfold backup.GetBackupStats. cbn [fst].
    rewrite map_lookup_imap, H. reflexivity.
  - intros name backups H. eexists. split.
    { unfold backup.GetBackupStats. cbn [fst]. rewrite map_lookup_imap, H. reflexivity. }
    match goal with
    | |- context [backup.targetStats backups ?state] =>
        pose proof (targetStats_counted backups state) as Hc;
        set (stats := backup.targetStats backups state) in *
    end.
    cbv zeta in Hc. destruct Hc as [Ht Hd Hw Ho Hn Hoi Hni Hb].
    split; [exact Ht|]. split; [exact Hd|]. split.
    { rewrite Hd, Hw, Ht.
      assert (Hlen : forall l : list backup.BackupInfo,
                (length (filter (fun b => backup.IsDaily b = true) l) +
                 length (filter (fun b => backup.IsDaily b = false) l) = length l)%nat).
      { induction l as [|b l IH]; [reflexivity|]. destruct (backup.IsDaily b) eqn:E.
        - rewrite filter_cons_True, filter_cons_False by congruence. cbn. lia.
        - rewrite filter_cons_False, filter_cons_True by congruence. cbn. lia. }
      specialize (Hlen backups). lia. }
    split; [intros b Hin; split; [now apply Ho | now apply Hn]|]. split.
    + intros Hne. destruct backups as [|b0 rest]; [congruence|]. split.
      * destruct Hoi as [E|E]; [|exact E]. exists b0. split; [apply list_elem_of_here | exact E].
      * destruct Hni as [E|E]; [|exact E]. exists b0. split; [apply list_elem_of_here | exact E].
    + intros ->. destruct Hoi as [E|(b & Hin & _)]; [|inversion Hin].
      destruct Hni as [E'|(b & Hin & _)]; [|inversion Hin]. auto.
Qed.

(** X19: [parseRetentionAge] reads a decimal number followed by one of
    the units d, m and y as that many days, 30-day months or 365-day years,
    as long as the duration fits 64 bits (at most 106751 days, 3558 months
    or 292 years); a number without a unit is a validation error (the scan
    meets the end of the input), and so is a number followed by any other
    word (of ASCII bytes that are not white space, the first of them not a
    digit). *)
Theorem parseRetentionAge_reads_number_and_unit n :
  0 <= n ->
  (n <= 106751 ->
   backup.parseRetentionAge (gofmt.Sprint n +:+ "d") = (n * 24 * backup.Hour, None)) /\
  (n <= 3558 ->
   backup.parseRetentionAge (gofmt.Sprint n +:+ "m") = (n * 30 * 24 * backup.Hour, None)) /\
  (n <= 292 ->
   backup.parseRetentionAge (gofmt.Sprint n +:+ "y") = (n * 365 * 24 * backup.Hour, None)) /\
  (n < 2 ^ 63 ->
   backup.parseRetentionAge (gofmt.Sprint n) =
     (0, Some (backup.NewError backup.ErrValidation "invalid retention age format: %s"
                 [gofmt.Sprint n] [] (Some (backup.ScanFailed gofmt.EOF))))) /\
  (n < 2 ^ 63 ->
   forall (c : ascii) (rest : string),
     Forall (fun b => plain b = true) (gostrings.chars (String c rest)) ->
     gofmt.digit c = None ->
     String c rest <> "d"%string -> String c rest <> "m"%string ->
     String c rest <> "y"%string ->
     backup.parseRetentionAge (gofmt.Sprint n +:+ String c rest) =
       (0, Some (backup.NewError backup.ErrValidation "invalid retention age unit: %s"
                   [String c rest] [] None))).
Proof.
  intros H0. split; [|split; [|split; [|split]]]; intros H.
  - apply parseRetentionAge_days. lia.
  - apply parseRetentionAge_months. lia.
  - apply parseRetentionAge_years. lia.
  - apply parseRetentionAge_no_unit. lia.
  - intros c rest Hplain Hd Hnd Hnm Hny. apply parseRetentionAge_other_unit; auto. lia.
Qed.

Lemma parseRetentionAge_reads_number_and_unit_witness :
  backup.parseRetentionAge (gofmt.Sprint 30 +:+ "d") = (30 * 24 * backup.Hour, None).
Proof.
  apply (parseRetentionAge_reads_number_and_unit 30); lia.
Defined.


(** X8: a monitor that has been stopped cannot be restarted.  [Stop] on a
    running monitor closes the channel [done] and clears the flag.  A later
    [Start] sets the flag again, makes a new ticker and starts a new
    [monitorLoop], but that loop returns at its first turn because [done] is
    closed, so no check is ever made; and the next [Stop] panics, closing a
    channel that is closed already. *)
Theorem stopped_monitor_cannot_restart m interval :
  running m = true -> done_closed m = false ->
  exists stopped events,
    Stop m = Returns (stopped, events) /\
    IsRunning stopped = false /\
    IsRunning (Start interval stopped).1 = true /\
    (Start interval stopped).2 =
      [EvNewTicker interval; EvGoMonitorLoop; EvLogStarted interval] /\
    (forall tick, monitorLoop_turn (Start interval stopped).1 tick = LoopReturn) /\
    Stop (Start interval stopped).1 = Panics.
Proof.
  intros Hr Hd. unfold Stop at 1. rewrite Hr, Hd. cbn [negb].
  eexists _, _. split; [reflexivity|]. cbn. auto.
Qed.

Lemma stopped_monitor_cannot_restart_witness :
  exists stopped events,
    Stop (Start 30000000000 NewFFmpegMonitor).1 = Returns (stopped, events) /\
    IsRunning stopped = false /\
    IsRunning (Start 30000000000 stopped).1 = true /\
    (Start 30000000000 stopped).2 =
      [EvNewTicker 30000000000; EvGoMonitorLoop; EvLogStarted 30000000000] /\
    (forall tick, monitorLoop_turn (Start 30000000000 stopped).1 tick = LoopReturn) /\
    Stop (Start 30000000000 stopped).1 = Panics.
Proof.
  exact (stopped_monitor_cannot_restart (Start 30000000000 NewFFmpegMonitor).1 30000000000
           eq_refl eq_refl).
Defined.

(** X9: [UnixProcessManager.FindProcesses] reads back what [pgrep]
    prints.  When the command succeeds and its output is one decimal process
    id per line, the result is the list of these ids, in order, each with
    the name "ffmpeg". *)
Theorem UnixProcessManager_FindProcesses_reads_pgrep cmdExecutor pids :
  Forall (fun pid => - 2 ^ 63 <= pid < 2 ^ 63) pids ->
  ExecuteCommand cmdExecutor "pgrep" ["ffmpeg"%string] = (pgrep_output pids, None) ->
  UnixProcessManager_FindProcesses cmdExecutor =
    inl (map (fun pid => {| PID := pid; Name := "ffmpeg" |}) pids).
Proof.
  intros Hp He. unfold UnixProcessManager_FindProcesses. rewrite He.
  now rewrite FindProcesses_pgrep_output.
Qed.

(** X10: how [UnixProcessManager.FindProcesses] treats a failure of
    [pgrep].  An error whose text contains "exit status 1" means that no
    process was found: the result is the empty list and no error, and a
    monitoring pass with this process manager then terminates nothing and
    returns no error: it returns nil, unless a registered value makes the
    look-up of its process id panic.  Any other error is returned, wrapped
    in "error running pgrep command", and a monitoring pass returns it
    wrapped further. *)
Theorem UnixProcessManager_no_process_is_not_an_error cmdExecutor output err :
  ExecuteCommand cmdExecutor "pgrep" ["ffmpeg"%string] = (output, Some err) ->
  (gostrings.Contains err "exit status 1" = true ->
   UnixProcessManager_FindProcesses cmdExecutor = inl [] /\
   forall it config repo,
     ((forall url value, repo !! url = Some value -> known_pid value <> Panics) ->
      (checkProcesses it config (UnixProcessManager cmdExecutor) repo).2 = Returns None) /\
     ((exists url value, repo !! url = Some value /\ known_pid value = Panics) ->
      (checkProcesses it config (UnixProcessManager cmdExecutor) repo).2 = Panics) /\
     forall pid,
       EvTerminate pid ∈ (checkProcesses it config (UnixProcessManager cmdExecutor) repo).1 ->
       False) /\
  (gostrings.Contains err "exit status 1" = false ->
   UnixProcessManager_FindProcesses cmdExecutor =
     inr (Wrapped "error running pgrep command: %w" [] (CollaboratorError err)) /\
   forall it config repo,
     (checkProcesses it config (UnixProcessManager cmdExecutor) repo).2 =
       Returns
         (Some (Wrapped "error cleaning up orphaned FFmpeg processes: %w" []
                  (Wrapped "error finding FFmpeg processes: %w" []
                     (Wrapped "error running pgrep command: %w" [] (CollaboratorError err)))))).
Proof.
  intros He. split; intros Hc.
  - assert (Hf : UnixProcessManager_FindProcesses cmdExecutor = inl []).
    { unfold UnixProcessManager_FindProcesses. now rewrite He, Hc. }
    split; [exact Hf|]. intros it config repo. split; [|split].
    + intros Hsafe. rewrite checkProcesses_result. cbn [FindProcesses UnixProcessManager].
      rewrite Hf.
      destruct (second_ForEach it repo) as [[_ (known & -> & _)]|[(u & v & Hr & Hp) _]];
        [reflexivity | now apply Hsafe in Hr].
    + intros (url & value & Hr & Hp). rewrite checkProcesses_result.
      cbn [FindProcesses UnixProcessManager]. rewrite Hf.
      destruct (second_ForEach it repo) as [[Hsafe _]|[_ ->]]; [|reflexivity].
      now apply Hsafe in Hr.
    + intros pid H. apply terminate_cause in H as [(ps & proc & Hps & Hin & _) _].
      cbn [FindProcesses UnixProcessManager] in Hps. rewrite Hf in Hps.
      injection Hps as <-. inversion Hin.
  - assert (Hf : UnixProcessManager_FindProcesses cmdExecutor =
                 inr (Wrapped "error running pgrep command: %w" [] (CollaboratorError err))).
    { unfold UnixProcessManager_FindProcesses. now rewrite He, Hc. }
    split; [exact Hf|]. intros it config repo.
    rewrite checkProcesses_result. cbn [FindProcesses UnixProcessManager].
    now rewrite Hf.
Qed.

(** X11: with the Unix process manager and a [pgrep] that prints the
    process ids [pids], a monitoring pass terminates exactly the listed
    processes that no entry of the registry owns, provided that no
    registered value makes the look-up of its process id panic; if one
    does, the pass terminates nothing. *)
Theorem monitor_kills_the_unregistered_pgrep_pids it config cmdExecutor repo pids pid :
  Forall (fun pid => - 2 ^ 63 <= pid < 2 ^ 63) pids ->
  ExecuteCommand cmdExecutor "pgrep" ["ffmpeg"%string] = (pgrep_output pids, None) ->
  EvTerminate pid ∈ (checkProcesses it config (UnixProcessManager cmdExecutor) repo).1 <->
  (forall url value, repo !! url = Some value -> known_pid value <> Panics) /\
  pid ∈ pids /\
  forall url value, repo !! url = Some value -> known_pid value <> Returns (Some pid).
Proof.
  intros Hp He.
  pose proof (FindProcesses_pgrep_output pids Hp) as Hparse.
  assert (Hf : FindProcesses (UnixProcessManager cmdExecutor) =
               inl (map (fun pid => {| PID := pid; Name := "ffmpeg" |}) pids)).
  { cbn [FindProcesses UnixProcessManager]. unfold UnixProcessManager_FindProcesses.
    now rewrite He, Hparse. }
  split.
  - intros H.
    apply terminate_cause in H as ((ps & proc & Hps & Hin & Hpid) & Hunknown & Hsafe).
    split; [exact Hsafe|]. split; [|exact Hunknown]. rewrite Hf in Hps. injection Hps as <-.
    apply list_elem_of_In, in_map_iff in Hin as (p & <- & Hin). cbn in Hpid. subst p.
    now apply list_elem_of_In.
  - intros (Hsafe & Hin & Hunknown). rewrite checkProcesses_events. apply elem_of_app. right.
    apply (orphan_terminated it (UnixProcessManager cmdExecutor) repo _
             {| PID := pid; Name := "ffmpeg" |} Hf Hsafe); [|exact Hunknown].
    apply list_elem_of_In, in_map_iff. exists pid. split; [reflexivity|].
    now apply list_elem_of_In.
Qed.


(** X13: [Build] never overrides a component and a category that were set
    on the builder.  Whether or not telemetry reporting is active, and
    whatever the detection of component and category would return, the error
    built carries the builder's error, component, category and context, and
    its component counts as detected; it is handed to [reportToTelemetry]
    exactly when reporting is active. *)
Theorem Build_keeps_explicit_values active now detectComponent detectCategory eb :
  errors.eb_component eb <> "" -> errors.eb_category eb <> "" ->
  errors.Build active now detectComponent detectCategory eb =
    ({| errors.Err := errors.eb_err eb;
        errors.component := errors.eb_component eb;
        errors.Category := errors.eb_category eb;
        errors.Context := errors.eb_context eb;
        errors.Timestamp := now;
        errors.reported := false;
        errors.detected := true |}, eb, active).
Proof.
  intros Hc Hk. unfold errors.Build.
  destruct (String.eqb_spec (errors.eb_component eb) "") as [E|_]; [congruence|].
  destruct (String.eqb_spec (errors.eb_category eb) "") as [E|_]; [congruence|].
  destruct active; cbn [negb errors.component errors.Category].
  - reflexivity.
  - destruct (String.eqb_spec (errors.eb_component eb) "") as [E|_]; [congruence|].
    cbn [errors.Category].
    destruct (String.eqb_spec (errors.eb_category eb) "") as [E|_]; [congruence|].
    reflexivity.
Qed.

Lemma Build_keeps_explicit_values_witness :
  (errors.Build true 0 "birdnet" (fun _ _ => errors.CategoryGeneric)
     (errors.unsupportedBitDepthBuilder 8)).1.1 =
    {| errors.Err := errors.Errorf "unsupported audio bit depth: %d" [CtxInt 8];
       errors.component := "myaudio";
       errors.Category := errors.CategoryValidation;
       errors.Context :=
         Some (<["supported_bit_depths" := CtxString "16,24,32"]>
                 (<["bit_depth" := CtxInt 8]>
                    (<["operation" := CtxString "convert_to_float32"]> ∅)));
       errors.Timestamp := 0;
       errors.reported := false;
       errors.detected := true |}.
Proof.
  rewrite (Build_keeps_explicit_values true 0 "birdnet" (fun _ _ => errors.CategoryGeneric)
             (errors.unsupportedBitDepthBuilder 8)); [reflexivity | discriminate | discriminate].
Defined.

(** X14: [AddErrorHook] and [ClearErrorHooks] never return.  Each takes
    the write lock of [errorHooksMutex] and, still holding it, calls
    [updateActiveReportingStatus], which waits for the read lock of the same
    mutex.  After [AddErrorHook] in the initial state the hook has been
    appended, the flag [hasActiveReporting] is still false and the write
    lock is held, so every later [SetTelemetryReporter] blocks as well;
    while the lock is free, [SetTelemetryReporter] returns and sets the flag
    to "a hook exists or the reporter is enabled". *)
Theorem AddErrorHook_never_returns hook st :
  (exists st', errors.AddErrorHook hook st = errors.Blocked st') /\
  (exists st', errors.ClearErrorHooks st = errors.Blocked st') /\
  errors.AddErrorHook hook errors.initial =
    errors.Blocked
      {| errors.hasActiveReporting := false;
         errors.errorHooks := [hook];
         errors.globalTelemetryReporter := None;
         errors.errorHooksMutex := {| errors.writer := true; errors.readers := 0 |} |} /\
  (errors.writer (errors.errorHooksMutex st) = true ->
   forall reporter,
     errors.SetTelemetryReporter reporter st =
       errors.Blocked
         {| errors.hasActiveReporting := errors.hasActiveReporting st;
            errors.errorHooks := errors.errorHooks st;
            errors.globalTelemetryReporter := reporter;
            errors.errorHooksMutex := errors.errorHooksMutex st |}) /\
  (errors.writer (errors.errorHooksMutex st) = false ->
   forall reporter,
     exists st',
       errors.SetTelemetryReporter (Some reporter) st = errors.Done tt st' /\
       errors.hasActiveReporting st' =
         negb (Nat.eqb (length (errors.errorHooks st)) 0) || errors.IsEnabled reporter /\
       errors.errorHooksMutex st' = errors.errorHooksMutex st).
Proof.
  split; [|split; [|split; [|split]]].
  - unfold errors.AddErrorHook, errors.locked, errors.Lock.
    destruct (errors.writer (errors.errorHooksMutex st) ||
              negb (Nat.eqb (errors.readers (errors.errorHooksMutex st)) 0)); eauto.
  - unfold errors.ClearErrorHooks, errors.locked, errors.Lock.
    destruct (errors.writer (errors.errorHooksMutex st) ||
              negb (Nat.eqb (errors.readers (errors.errorHooksMutex st)) 0)); eauto.
  - reflexivity.
  - intros Hw reporter. unfold errors.SetTelemetryReporter, errors.updateActiveReportingStatus,
      errors.RLock. cbn [errors.errorHooksMutex]. now rewrite Hw.
  - intros Hw reporter. unfold errors.SetTelemetryReporter, errors.updateActiveReportingStatus,
      errors.RLock, errors.RUnlock. cbn [errors.errorHooksMutex errors.errorHooks
      errors.globalTelemetryReporter]. rewrite Hw. cbn [errors.readers errors.writer].
    eexists. split; [reflexivity|]. cbn [errors.hasActiveReporting errors.errorHooksMutex].
    split; [reflexivity|]. destruct (errors.errorHooksMutex st) as [w r]. cbn in Hw. now subst.
Qed.

Lemma checkProcesses_spares_registered_witness :
  (exists processes proc,
      FindProcesses scenario_pm = inl processes /\ proc ∈ processes /\ PID proc = 1234) /\
  (forall url value,
      scenario_repo !! url = Some value -> known_pid value <> Returns (Some 1234)).
Proof.
  apply (checkProcesses_spares_registered canonical_iteration scenario_config scenario_pm
           scenario_repo 1234).
  rewrite list_elem_of_In. vm_compute. tauto.
Defined.

Lemma checkProcesses_spares_healthy_witness :
  scenario_repo !! "old" = Some scenario_old /\ implementsCleaner scenario_old = true /\
  (("old" ∉ GetConfiguredURLs scenario_config) \/
   exists processes pid,
     FindProcesses scenario_pm = inl processes /\ pid ∈ map PID processes /\
     known_pid scenario_old = Returns (Some pid) /\
     IsProcessRunning scenario_pm pid = false).
Proof.
  apply (checkProcesses_spares_healthy canonical_iteration scenario_config scenario_pm
           scenario_repo scenario_old "old").
  rewrite list_elem_of_In. vm_compute. tauto.
Defined.

Lemma UnixProcessManager_FindProcesses_reads_pgrep_witness :
  UnixProcessManager_FindProcesses two_decoders =
    inl [ {| PID := 4242; Name := "ffmpeg" |}; {| PID := 17; Name := "ffmpeg" |} ].
Proof.
  apply (UnixProcessManager_FindProcesses_reads_pgrep two_decoders [4242; 17]).
  - repeat constructor; lia.
  - reflexivity.
Defined.

Lemma UnixProcessManager_no_process_is_not_an_error_witness :
  UnixProcessManager_FindProcesses no_decoder = inl [].
Proof.
  apply (UnixProcessManager_no_process_is_not_an_error no_decoder "" "exit status 1" eq_refl).
  reflexivity.
Defined.

Lemma monitor_kills_the_unregistered_pgrep_pids_witness :
  EvTerminate 17 ∈
    (checkProcesses canonical_iteration scenario_config (UnixProcessManager two_decoders)
       scenario_repo).1 <->
  (forall url value, scenario_repo !! url = Some value -> known_pid value <> Panics) /\
  17 ∈ [4242; 17] /\
  forall url value, scenario_repo !! url = Some value -> known_pid value <> Returns (Some 17).
Proof.
  apply (monitor_kills_the_unregistered_pgrep_pids canonical_iteration scenario_config
           two_decoders scenario_repo [4242; 17] 17).
  - repeat constructor; lia.
  - reflexivity.
Defined.

(** X12: [WindowsProcessManager.FindProcesses] reads back what [tasklist]
    prints in CSV format.  When the command succeeds and every line of its
    output is the quoted image name [ffmpeg.exe], the quoted decimal process
    id and further columns (which may hold commas), ended by a carriage
    return and a line feed, the result is the list of these ids, in order,
    each with the name "ffmpeg.exe". *)
Theorem WindowsProcessManager_FindProcesses_reads_tasklist cmdExecutor rows :
  Forall (fun row : Z * string =>
            - 2 ^ 63 <= row.1 < 2 ^ 63 /\
            Forall (fun c => c <> "010"%char) (gostrings.chars row.2)) rows ->
  ExecuteCommand cmdExecutor "tasklist"
    ["/FI"; "IMAGENAME eq ffmpeg.exe"; "/NH"; "/FO"; "CSV"]%string =
    (tasklist_output rows, None) ->
  WindowsProcessManager_FindProcesses cmdExecutor =
    inl (map (fun row : Z * string => {| PID := row.1; Name := "ffmpeg.exe" |}) rows).
Proof.
  intros Hrows He. unfold WindowsProcessManager_FindProcesses. rewrite He.
  now rewrite FindProcesses_tasklist_output.
Qed.

Lemma WindowsProcessManager_FindProcesses_reads_tasklist_witness :
  WindowsProcessManager_FindProcesses two_decoders_windows =
    inl [ {| PID := 4242; Name := "ffmpeg.exe" |}; {| PID := 17; Name := "ffmpeg.exe" |} ].
Proof.
  apply (WindowsProcessManager_FindProcesses_reads_tasklist two_decoders_windows
           [(4242, "Console,1,45,000 K"%string); (17, "Services,0,1,024 K"%string)]).
  - repeat constructor; cbn; try lia; discriminate.
  - reflexivity.
Defined.
